(** * Skeletal animation tracks, weight compilation and skinning

    A shallow embedding of [makehuman/shared/animation.py].

    Conventions of the embedding.
    - Python floats are modelled by exact rationals ([Q]); results that the
      program computes in floating point are therefore stated up to [Qeq]
      and without rounding.
    - Python exceptions are modelled by the [Raise] constructor of [exc];
      stateful methods return the state reached at the moment the exception
      left the method.
    - A 4x4 pose matrix is a value of the record [Mat]; the shape test of the
      constructor ([poseData.shape == (dataLen, 4, 4)]) is discharged by this
      type.
    - Counts ([nFrames], [nBones], [dataLen], vertex and bone indices) are
      natural numbers; frame indices computed from a time are integers,
      because [math.modf] yields negative values for negative times. *)

From Stdlib Require Import String ZArith QArith Qround List Bool Lia Arith.
From Stdlib Require Import Permutation Sorted Lqa.
Import ListNotations.

Open Scope nat_scope.

(** ** Exceptions *)

Inductive runtime_reason :=
| PoseDataLength      (* "pose data does not have the proper length" *)
| BoneCountMismatch   (* "number of bones in animation data differs ..." *)
| FrameRateTooHigh    (* "Cannot sparsify animation: new framerate ..." *)
| NoSuchBoundMesh.

Inductive pyerror :=
| RuntimeError (why : runtime_reason)
| AttributeError
| IndexError
| ValueError
| ZeroDivisionError
| NotImplementedError
| ForeignError (tag : nat).   (* raised inside a collaborator object *)

Inductive exc (A : Type) :=
| Ok (a : A)
| Raise (e : pyerror).
Arguments Ok {A} a.
Arguments Raise {A} e.

(** State-and-exception monad: the state survives a raised exception. *)
Definition M (St A : Type) : Type := St -> exc A * St.

Definition ret {St A} (a : A) : M St A := fun s => (Ok a, s).

Definition bind {St A B} (c : M St A) (k : A -> M St B) : M St B :=
  fun s => match c s with
           | (Ok a, s') => k a s'
           | (Raise e, s') => (Raise e, s')
           end.

Definition raise {St A} (e : pyerror) : M St A := fun s => (Raise e, s).
Definition get {St} : M St St := fun s => (Ok s, s).
Definition put {St} (s : St) : M St unit := fun _ => (Ok tt, s).

Notation "x <- c ;; k" := (bind c (fun x => k))
  (at level 61, c at next level, right associativity).
Notation "c ;;; k" := (bind c (fun _ => k))
  (at level 61, right associativity).

(** [for x in l: body x] *)
Fixpoint forM_ {St A} (l : list A) (body : A -> M St unit) : M St unit :=
  match l with
  | [] => ret tt
  | x :: l' => body x ;;; forM_ l' body
  end.

(** ** Python primitives *)

Module Py.

(** [l[start:stop]] for integer bounds: negative bounds count from the end,
    out-of-range bounds are clipped, an empty range gives the empty list. *)
Definition norm_index (len i : Z) : Z :=
  if (i <? 0)%Z then Z.max (i + len) 0 else Z.min i len.

(** Offset and length of the range selected by [start:stop] in a sequence
    of [len] items. *)
Definition slice_bounds (len : nat) (start stop : Z) : nat * nat :=
  let s := norm_index (Z.of_nat len) start in
  let e := norm_index (Z.of_nat len) stop in
  (Z.to_nat s, Z.to_nat (e - s)).

Definition window {A} (l : list A) (bounds : nat * nat) : list A :=
  firstn (snd bounds) (skipn (fst bounds) l).

Definition slice {A} (l : list A) (start stop : Z) : list A :=
  window l (slice_bounds (length l) start stop).

(** [math.modf x]: fractional and integral part, both carrying the sign of
    [x] (the integral part is rounded towards zero). *)
Definition trunc (x : Q) : Z := Z.quot (Qnum x) (Zpos (Qden x)).

Definition modf (x : Q) : Q * Z :=
  let i := trunc x in ((x - inject_Z i)%Q, i).

(** [l[i] = v] on a list or on the first axis of an array: [IndexError]
    when [i] is out of range. *)
Fixpoint set_nth {A} (i : nat) (v : A) (l : list A) : option (list A) :=
  match l, i with
  | [], _ => None
  | _ :: l', O => Some (v :: l')
  | x :: l', S i' => option_map (cons x) (set_nth i' v l')
  end.

(** [max(l)] of a list of naturals; [ValueError] on the empty list. *)
Definition max_list (l : list nat) : exc nat :=
  match l with
  | [] => Raise ValueError
  | x :: l' => Ok (fold_left Nat.max l' x)
  end.

End Py.

(** ** Matrices *)

Record Vec4 := vec4 { v0 : Q; v1 : Q; v2 : Q; v3 : Q }.
Record Mat := mat { r0 : Vec4; r1 : Vec4; r2 : Vec4; r3 : Vec4 }.

Definition vec_list (v : Vec4) : list Q := [v0 v; v1 v; v2 v; v3 v].
Definition mat_rows (m : Mat) : list Vec4 := [r0 m; r1 m; r2 m; r3 m].

Definition vec_map2 (f : Q -> Q -> Q) (a b : Vec4) : Vec4 :=
  vec4 (f (v0 a) (v0 b)) (f (v1 a) (v1 b)) (f (v2 a) (v2 b)) (f (v3 a) (v3 b)).
Definition vec_map (f : Q -> Q) (a : Vec4) : Vec4 :=
  vec4 (f (v0 a)) (f (v1 a)) (f (v2 a)) (f (v3 a)).
Definition mat_map2 (f : Q -> Q -> Q) (a b : Mat) : Mat :=
  mat (vec_map2 f (r0 a) (r0 b)) (vec_map2 f (r1 a) (r1 b))
      (vec_map2 f (r2 a) (r2 b)) (vec_map2 f (r3 a) (r3 b)).
Definition mat_map (f : Q -> Q) (a : Mat) : Mat :=
  mat (vec_map f (r0 a)) (vec_map f (r1 a)) (vec_map f (r2 a)) (vec_map f (r3 a)).

Definition mat_zero : Mat :=
  let z := vec4 0 0 0 0 in mat z z z z.
Definition mat_identity : Mat :=
  mat (vec4 1 0 0 0) (vec4 0 1 0 0) (vec4 0 0 1 0) (vec4 0 0 0 1).

Definition vec_eq (a b : Vec4) : Prop :=
  v0 a == v0 b /\ v1 a == v1 b /\ v2 a == v2 b /\ v3 a == v3 b.
Definition mat_eq (a b : Mat) : Prop :=
  vec_eq (r0 a) (r0 b) /\ vec_eq (r1 a) (r1 b) /\
  vec_eq (r2 a) (r2 b) /\ vec_eq (r3 a) (r3 b).

(** [m[:3, 3]]: the translation column. *)
Definition translation (m : Mat) : list Q := [v3 (r0 m); v3 (r1 m); v3 (r2 m)].

(** [m[:3, 3] = 0] *)
Definition clear_v3 (v : Vec4) : Vec4 := vec4 (v0 v) (v1 v) (v2 v) 0.
Definition zero_translation (m : Mat) : Mat :=
  mat (clear_v3 (r0 m)) (clear_v3 (r1 m)) (clear_v3 (r2 m)) (r3 m).

(** ** AnimationTrack *)

(** The two matrix buffers a track can hold. *)
Inductive buffer_id := Primary | Baked.

(** An array value as the program handles it.  A basic slice of a track
    buffer is a _view_: it shares the storage of the buffer, so that an
    assignment through it changes the buffer.  The result of array
    arithmetic and the result of [copy()] own their storage. *)
Inductive ndarray :=
| View (b : buffer_id) (bounds : nat * nat)
| Owned (a : list Mat).

Record AnimationTrack := mkTrack {
  name : string;
  dataLen : nat;
  nFrames : nat;
  nBones : nat;
  _data : list Mat;
  frameRate : Q;
  loop : bool;
  looping : option bool;          (* attribute created by [setLooping] *)
  _data_baked : option (list Mat);
  interpolationType : Z
}.

Definition set_baked (v : option (list Mat)) (t : AnimationTrack) :=
  mkTrack (name t) (dataLen t) (nFrames t) (nBones t) (_data t) (frameRate t)
          (loop t) (looping t) v (interpolationType t).
Definition set_looping (v : option bool) (t : AnimationTrack) :=
  mkTrack (name t) (dataLen t) (nFrames t) (nBones t) (_data t) (frameRate t)
          (loop t) v (_data_baked t) (interpolationType t).
Definition set_frameRate (v : Q) (t : AnimationTrack) :=
  mkTrack (name t) (dataLen t) (nFrames t) (nBones t) (_data t) v
          (loop t) (looping t) (_data_baked t) (interpolationType t).
Definition set_dataLen (v : nat) (t : AnimationTrack) :=
  mkTrack (name t) v (nFrames t) (nBones t) (_data t) (frameRate t)
          (loop t) (looping t) (_data_baked t) (interpolationType t).
Definition set_nFrames (v : nat) (t : AnimationTrack) :=
  mkTrack (name t) (dataLen t) v (nBones t) (_data t) (frameRate t)
          (loop t) (looping t) (_data_baked t) (interpolationType t).
Definition set_primary (v : list Mat) (t : AnimationTrack) :=
  mkTrack (name t) (dataLen t) (nFrames t) (nBones t) v (frameRate t)
          (loop t) (looping t) (_data_baked t) (interpolationType t).

(** [AnimationTrack.__init__(name, poseData, nFrames, framerate)];
    [dataLen/nFrames] is Python 2 integer division. *)
Definition init (nm : string) (poseData : list Mat) (nframes : nat)
           (framerate : Q) : exc AnimationTrack :=
  let dlen := length poseData in
  if nframes =? 0 then Raise ZeroDivisionError else
  let nbones := dlen / nframes in
  if negb (nbones * nframes =? dlen) then Raise (RuntimeError PoseDataLength)
  else Ok (mkTrack nm dlen nframes nbones poseData framerate
                   true None None 0%Z).

Definition isBaked (t : AnimationTrack) : bool :=
  match _data_baked t with Some _ => true | None => false end.

Definition resetBaked (t : AnimationTrack) : AnimationTrack :=
  set_baked None t.

(** The [data] property: the baked buffer when there is one. *)
Definition data_id (t : AnimationTrack) : buffer_id :=
  if isBaked t then Baked else Primary.

Definition buffer (t : AnimationTrack) (b : buffer_id) : list Mat :=
  match b with
  | Primary => _data t
  | Baked => match _data_baked t with Some a => a | None => [] end
  end.

Definition data (t : AnimationTrack) : list Mat := buffer t (data_id t).

(** [self.data[start:stop]]: a view of the served buffer. *)
Definition data_slice (t : AnimationTrack) (start stop : Z) : ndarray :=
  View (data_id t) (Py.slice_bounds (length (data t)) start stop).

(** The matrices an array value denotes. *)
Definition contents (t : AnimationTrack) (a : ndarray) : list Mat :=
  match a with
  | View b bounds => Py.window (buffer t b) bounds
  | Owned l => l
  end.

(** [getFrameIndexAtTime(time)]: [(frameIdx, fraction)]. *)
Definition getFrameIndexAtTime (t : AnimationTrack) (time : Q)
  : exc (Z * Q) :=
  let (fraction, frameIdx) := Py.modf (frameRate t * time) in
  if loop t then
    if nFrames t =? 0 then Raise ZeroDivisionError
    else Ok ((frameIdx mod Z.of_nat (nFrames t))%Z, fraction)
  else if (Z.of_nat (nFrames t) <=? frameIdx)%Z then
    Ok ((Z.of_nat (nFrames t) - 1)%Z, 0%Q)
  else Ok (frameIdx, fraction).

(** [a + b] on arrays of matrices, broadcasting a first axis of length 1. *)
Definition mat_add : Mat -> Mat -> Mat := mat_map2 Qplus.
Definition mat_scale (k : Q) : Mat -> Mat := mat_map (fun x => x * k)%Q.

Definition array_add (a b : list Mat) : exc (list Mat) :=
  if length a =? length b then Ok (map (fun p => mat_add (fst p) (snd p)) (combine a b))
  else match a, b with
       | [x], _ => Ok (map (mat_add x) b)
       | _, [y] => Ok (map (fun x => mat_add x y) a)
       | _, _ => Raise ValueError
       end.

(** [getAtTime(time)].  The result is [None] where the Python method falls
    off its end without a [return] (logarithmic interpolation is a TODO). *)
Definition getAtTime (t : AnimationTrack) (time : Q) : exc (option ndarray) :=
  match getFrameIndexAtTime t time with
  | Raise e => Raise e
  | Ok (frameIdx, fraction) =>
    if Qeq_bool fraction 0 || (interpolationType t =? 0)%Z then
      let idx := (frameIdx * Z.of_nat (nBones t))%Z in
      Ok (Some (data_slice t idx (idx + Z.of_nat (nBones t))))
    else if (interpolationType t =? 1)%Z then
      let idx1 := (frameIdx * Z.of_nat (nBones t))%Z in
      if nFrames t =? 0 then Raise ZeroDivisionError else
      let idx2 := (((frameIdx + 1) mod Z.of_nat (nFrames t))
                   * Z.of_nat (nBones t))%Z in
      let a := Py.slice (data t) idx1 (idx1 + Z.of_nat (nBones t)) in
      let b := Py.slice (data t) idx2 (idx2 + Z.of_nat (nBones t)) in
      match array_add (map (mat_scale (1 - fraction)) a)
                      (map (mat_scale fraction) b) with
      | Ok r => Ok (Some (Owned r))
      | Raise e => Raise e
      end
    else Ok None
  end.

Definition getAtFramePos (t : AnimationTrack) (frame : Z) : ndarray :=
  data_slice t (frame * Z.of_nat (nBones t))
               ((frame + 1) * Z.of_nat (nBones t)).

Definition isLooping (t : AnimationTrack) : bool := loop t.

(** [setLooping(enabled)] stores into the attribute [looping]. *)
Definition setLooping (enabled : bool) (t : AnimationTrack) : AnimationTrack :=
  set_looping (Some enabled) t.

(** [getPlaytime()]: [float(nFrames)/frameRate]. *)
Definition getPlaytime (t : AnimationTrack) : exc Q :=
  if Qeq_bool (frameRate t) 0 then Raise ZeroDivisionError
  else Ok (inject_Z (Z.of_nat (nFrames t)) / frameRate t)%Q.

(** *** sparsify *)

(** [range(0, stop, step)] for a positive [step]. *)
Definition range_step (stop step : nat) : list nat :=
  map (fun k => k * step) (seq 0 ((stop + step - 1) / step)).

(** [a[indxs]] with a list of indices: [IndexError] when one is out of
    range. *)
Fixpoint fancy_index {A} (a : list A) (indxs : list nat) : exc (list A) :=
  match indxs with
  | [] => Ok []
  | i :: rest =>
    match nth_error a i, fancy_index a rest with
    | Some x, Ok r => Ok (x :: r)
    | None, _ => Raise IndexError
    | _, Raise e => Raise e
    end
  end.

(** The loop of [sparsify] that collects the indices to keep. *)
Definition sparsify_step (nbones : nat) (dropFrames : Z)
           (acc : list nat * Z) (frameI : nat) : list nat * Z :=
  let (indxs, count) := acc in
  ((if (count =? 0)%Z then indxs ++ seq frameI nbones else indxs),
   ((count + 1) mod dropFrames)%Z).

Definition sparsify_indxs (dlen nbones : nat) (dropFrames : Z) : list nat :=
  fst (fold_left (sparsify_step nbones dropFrames)
                 (range_step dlen nbones) ([], 0%Z)).

(** [self.data = value].  [data] is declared with [@property] and has no
    setter, and [AnimationTrack] derives from [object]: the assignment
    raises [AttributeError] and stores nothing. *)
Definition assign_data (value : list Mat) : M AnimationTrack unit :=
  raise AttributeError.

Definition modify {St} (f : St -> St) : M St unit := fun s => (Ok tt, f s).

Definition liftE {St A} (r : exc A) : M St A := fun s => (r, s).

Definition sparsify (newFrameRate : Q) : M AnimationTrack unit :=
  t <- get ;;
  if negb (Qle_bool newFrameRate (frameRate t))
  then raise (RuntimeError FrameRateTooHigh)
  else if Qeq_bool newFrameRate 0 then raise ZeroDivisionError
  else
    let dropFrames := Py.trunc (frameRate t / newFrameRate) in
    if (dropFrames <=? 0)%Z then ret tt
    else if nBones t =? 0 then raise ValueError   (* range() with step 0 *)
    else
      let indxs := sparsify_indxs (dataLen t) (nBones t) dropFrames in
      d <- liftE (fancy_index (data t) indxs) ;;
      assign_data d ;;;
      modify (set_frameRate newFrameRate) ;;;
      t1 <- get ;;
      modify (set_dataLen (length (data t1))) ;;;
      t2 <- get ;;
      if nBones t2 =? 0 then raise ZeroDivisionError
      else modify (set_nFrames (dataLen t2 / nBones t2)).

(** [Pose.sparsify] *)
Definition Pose_sparsify (newFrameRate : Q) : M AnimationTrack unit :=
  raise NotImplementedError.

(** *** bake *)

(** The skeleton collaborator, as [bake] uses it.  [matPoseVerts s b] is
    the skin matrix that bone [b] of the list returned by [getBones()]
    exposes while the skeleton is in state [s]. *)
Class Skeleton (S : Type) := {
  boneCount : S -> nat;                 (* len(skel.getBones()) *)
  getPose : S -> list Mat;
  setPose : list Mat -> M S unit;
  matPoseVerts : S -> nat -> Mat
}.

(** What [bake] relies on when it restores the pose. *)
Class SkeletonLaws (S : Type) `{Skeleton S} := {
  getPose_length : forall s, length (getPose s) = boneCount s;
  setPose_getPose : forall p s s',
      setPose p s = (Ok tt, s') -> getPose s' = p;
  setPose_boneCount : forall p s r s',
      setPose p s = (r, s') -> boneCount s' = boneCount s
}.

Definition on_skel {S} (c : M S unit) : M (AnimationTrack * S) unit :=
  fun st => let (r, s') := c (snd st) in (r, (fst st, s')).

Definition on_track {S A} (c : M AnimationTrack A)
  : M (AnimationTrack * S) A :=
  fun st => let (r, t') := c (fst st) in (r, (t', snd st)).

(** [self._data_baked[idx,:,:] = m] *)
Definition baked_assign (idx : nat) (m : Mat) : M AnimationTrack unit :=
  fun t => match _data_baked t with
           | None => (Raise AttributeError, t)
           | Some b => match Py.set_nth idx m b with
                       | Some b' => (Ok tt, set_baked (Some b') t)
                       | None => (Raise IndexError, t)
                       end
           end.

(** The slice [bake] hands to [setPose] for frame [f_idx]. *)
Definition bake_slice (t : AnimationTrack) (f_idx : nat) : list Mat :=
  Py.slice (_data t) (Z.of_nat f_idx) (Z.of_nat (f_idx + nBones t)).

Definition bake_bone {S} `{Skeleton S} (t : AnimationTrack) (f_idx b_idx : nat)
  : M (AnimationTrack * S) unit :=
  let idx := f_idx * nBones t + b_idx in
  st <- get ;;
  on_track (baked_assign idx (matPoseVerts (snd st) b_idx)).

Definition bake_frame {S} `{Skeleton S} (t : AnimationTrack) (f_idx : nat)
  : M (AnimationTrack * S) unit :=
  on_skel (setPose (bake_slice t f_idx)) ;;;
  forM_ (seq 0 (nBones t)) (bake_bone t f_idx).

Definition bake {S} `{Skeleton S} : M (AnimationTrack * S) unit :=
  st <- get ;;
  let t := fst st in
  if negb (boneCount (snd st) =? nBones t)
  then raise (RuntimeError BoneCountMismatch)
  else
    let old_pose := getPose (snd st) in
    on_track (modify (set_baked (Some (repeat mat_zero (dataLen t))))) ;;;
    forM_ (seq 0 (nFrames t)) (bake_frame t) ;;;
    on_skel (setPose old_pose).

(** The slice of the primary buffer that holds frame [f]:
    indices [f*nBones .. (f+1)*nBones-1]. *)
Definition frame_slice (t : AnimationTrack) (f : nat) : list Mat :=
  firstn (nBones t) (skipn (f * nBones t) (_data t)).

(** Invariant established by the constructor. *)
Definition track_ok (t : AnimationTrack) : Prop :=
  nFrames t <> 0 /\
  dataLen t = nBones t * nFrames t /\
  length (_data t) = dataLen t /\
  (forall b, _data_baked t = Some b -> length b = dataLen t).

(** ** AnimatedMesh: the pose state *)

Record AnimatedMesh := mkAnimatedMesh {
  currentAnim : option AnimationTrack;
  playTime : Q;
  inPlace : bool;
  posed : bool;
  onlyAnimateVisible : bool
}.

Definition set_currentAnim (v : option AnimationTrack) (am : AnimatedMesh) :=
  mkAnimatedMesh v (playTime am) (inPlace am) (posed am)
                 (onlyAnimateVisible am).

(** [a.copy()] *)
Definition array_copy (t : AnimationTrack) (a : ndarray) : ndarray :=
  Owned (contents t a).

Definition map_window {A} (f : A -> A) (bounds : nat * nat) (l : list A)
  : list A :=
  firstn (fst bounds) l
  ++ map f (Py.window l bounds)
  ++ skipn (fst bounds + snd bounds) l.

Definition update_buffer (b : buffer_id) (v : list Mat) (t : AnimationTrack)
  : AnimationTrack :=
  match b with
  | Primary => set_primary v t
  | Baked => set_baked (Some v) t
  end.

(** [a[:,:3,3] = zeros]: an assignment through [a].  When [a] is a view the
    buffer it shares with the track is the one written. *)
Definition assign_translation_zero (a : ndarray) (t : AnimationTrack)
  : ndarray * AnimationTrack :=
  match a with
  | Owned l => (Owned (map zero_translation l), t)
  | View b bounds =>
      (a, update_buffer b (map_window zero_translation bounds (buffer t b)) t)
  end.

(** [AnimatedMesh.getPoseState()] *)
Definition getPoseState : M AnimatedMesh (option ndarray) :=
  am <- get ;;
  match currentAnim am with
  | None => raise AttributeError          (* None.getAtTime *)
  | Some t =>
    poseState <- liftE (getAtTime t (playTime am)) ;;
    if inPlace am then
      match poseState with
      | None => raise AttributeError      (* None.copy *)
      | Some a =>
        let c := array_copy t a in
        let (c', t') := assign_translation_zero c t in
        put (set_currentAnim (Some t') am) ;;;
        ret (Some c')
      end
    else ret poseState
  end.

(** Not part of the program: [getPoseState] with its [copy()] taken out,
    to compare the effect on the track. *)
Definition getPoseState_without_copy : M AnimatedMesh (option ndarray) :=
  am <- get ;;
  match currentAnim am with
  | None => raise AttributeError
  | Some t =>
    poseState <- liftE (getAtTime t (playTime am)) ;;
    if inPlace am then
      match poseState with
      | None => raise AttributeError
      | Some a =>
        let (c', t') := assign_translation_zero a t in
        put (set_currentAnim (Some t') am) ;;;
        ret (Some c')
      end
    else ret poseState
  end.

(** ** Vertex weight compilation *)

(** The raw mapping: bone name -> (vertex indices, weights).  A Python 2
    dictionary has no specified iteration order; the association list fixes
    one. *)
Definition raw_mapping := list (string * (list nat * list Q)).

(** The four record layouts ([dtype]) the compiler can allocate. *)
Inductive layout := L1 | L3 | L4 | L17.

Definition slots (d : layout) : nat :=
  match d with L1 => 1 | L3 => 3 | L4 => 4 | L17 => 17 end.

(** [len(dtype)]: the number of fields, [b_idx1..] and [wght1..]. *)
Definition dtype_len (d : layout) : nat := 2 * slots d.

Definition dtype_for (nWeights : nat) : layout :=
  if nWeights =? 3 then L3
  else if nWeights =? 4 then L4
  else if nWeights =? 17 then L17
  else L1.

(** A compiled array: per vertex, the pairs [(b_idx_i, wght_i)]. *)
Record compiled := mkCompiled {
  dtype : layout;
  records : list (list (nat * Q))
}.

Definition zero_record (d : layout) : list (nat * Q) :=
  repeat (0, 0%Q) (slots d).

(** [np.zeros(vertexCount, dtype)] *)
Definition zeros (vertexCount : nat) (d : layout) : compiled :=
  mkCompiled d (repeat (zero_record d) vertexCount).

Definition mapE {A B} (f : A -> exc B) : list A -> exc (list B) :=
  fix go l :=
    match l with
    | [] => Ok []
    | x :: l' =>
      match f x with
      | Raise e => Raise e
      | Ok y => match go l' with
                | Raise e => Raise e
                | Ok r => Ok (y :: r)
                end
      end
    end.

Definition foldE {A B} (f : A -> B -> exc A) : list B -> A -> exc A :=
  fix go l a :=
    match l with
    | [] => Ok a
    | x :: l' => match f a x with
                 | Raise e => Raise e
                 | Ok a' => go l' a'
                 end
    end.

(** The inference of [vertexCount] when none is given. *)
Definition infer_step (vertexCount : nat) (item : string * (list nat * list Q))
  : exc nat :=
  match Py.max_list (fst (snd item)) with
  | Raise e => Raise e
  | Ok mx => Ok (Nat.max mx vertexCount)
  end.

Definition infer_vertexCount (m : raw_mapping) : exc nat :=
  match foldE infer_step m 0 with
  | Raise e => Raise e
  | Ok vertexCount => Ok (if vertexCount =? 0 then vertexCount
                          else vertexCount + 1)
  end.

(** [dict([(b.name, b_idx) for b_idx, b in enumerate(bones)])]: a later bone
    of the same name replaces an earlier one. *)
Fixpoint b_lookup_from (names : list string) (i : nat) (bname : string)
  : option nat :=
  match names with
  | [] => None
  | n :: rest =>
    match b_lookup_from rest (S i) bname with
    | Some j => Some j
    | None => if String.eqb n bname then Some i else None
    end
  end.

Definition b_lookup (names : list string) : string -> option nat :=
  b_lookup_from names 0.

(** The dictionary [_ws]: vertex index -> list of [(weight, bone index)],
    kept in insertion order; keys are unique. *)
Definition ws_dict := list (nat * list (Q * nat)).

Fixpoint ws_get (ws : ws_dict) (v : nat) : option (list (Q * nat)) :=
  match ws with
  | [] => None
  | (k, l) :: rest => if k =? v then Some l else ws_get rest v
  end.

Fixpoint ws_set (ws : ws_dict) (v : nat) (l : list (Q * nat)) : ws_dict :=
  match ws with
  | [] => [(v, l)]
  | (k, l0) :: rest =>
    if k =? v then (k, l) :: rest else (k, l0) :: ws_set rest v l
  end.

(** The search for an entry of the same bone: the last match wins. *)
Definition find_bone (l : list (Q * nat)) (b_idx : nat) : option nat :=
  fold_left (fun d_idx idx =>
               if snd (nth idx l (0%Q, 0)) =? b_idx then Some idx else d_idx)
            (seq 0 (length l)) None.

Fixpoint replace_nth {A} (i : nat) (v : A) (l : list A) : list A :=
  match l, i with
  | [], _ => []
  | _ :: l', O => v :: l'
  | x :: l', S i' => x :: replace_nth i' v l'
  end.

Definition add_weight (l : list (Q * nat)) (wght : Q) (b_idx : nat)
  : list (Q * nat) :=
  match find_bone l b_idx with
  | Some d_idx =>
      let old := fst (nth d_idx l (0%Q, 0)) in
      replace_nth d_idx ((old + wght)%Q, b_idx) l
  | None => l ++ [(wght, b_idx)]
  end.

Definition ws_add (b_idx : nat) (ws : ws_dict) (vw : nat * Q) : ws_dict :=
  let (v_idx, wght) := vw in
  let l := match ws_get ws v_idx with Some l => l | None => [] end in
  ws_set ws v_idx (add_weight l wght b_idx).

(** One bone of the mapping; an unknown bone name is logged and skipped. *)
Definition ws_bone (names : list string) (ws : ws_dict)
           (item : string * (list nat * list Q)) : ws_dict :=
  match b_lookup names (fst item) with
  | None => ws
  | Some b_idx =>
      fold_left (ws_add b_idx) (combine (fst (snd item)) (snd (snd item))) ws
  end.

Definition accumulate (names : list string) (m : raw_mapping) : ws_dict :=
  fold_left (ws_bone names) m [].

(** Order of Python tuples [(weight, bone index)]. *)
Definition entry_leb (a b : Q * nat) : bool :=
  match (fst a ?= fst b)%Q with
  | Lt => true
  | Gt => false
  | Eq => snd a <=? snd b
  end.

(** [sorted(l, reverse=True)] *)
Fixpoint insert_desc (x : Q * nat) (l : list (Q * nat)) : list (Q * nat) :=
  match l with
  | [] => [x]
  | y :: l' => if entry_leb y x then x :: y :: l' else y :: insert_desc x l'
  end.

Definition sorted_reverse (l : list (Q * nat)) : list (Q * nat) :=
  fold_right insert_desc [] l.

Definition qsum (l : list Q) : Q := fold_left Qplus l 0%Q.

(** The renormalisation of a truncated list.  Where the sum is zero numpy
    produces infinities or NaN, which [Q] does not have; [Qdiv] yields 0
    there, and every statement about renormalised weights below assumes a
    nonzero sum. *)
Definition renormalize (l : list (Q * nat)) : list (Q * nat) :=
  let total := qsum (map fst l) in
  map (fun e => ((fst e / total)%Q, snd e)) l.

Definition finalize (nWeights : nat) (l : list (Q * nat)) : list (Q * nat) :=
  if nWeights <? length l
  then renormalize (firstn nWeights (sorted_reverse l))
  else sorted_reverse l.

Definition finalize_all (nWeights : nat) (ws : ws_dict) : ws_dict :=
  map (fun kv => (fst kv, finalize nWeights (snd kv))) ws.

(** [compiled[v_idx]['wght%s' % (i+1)] = w] followed by the same for
    [b_idx]: both raise in the same cases, [IndexError] for a vertex outside
    the array and [ValueError] for a field the layout does not have. *)
Definition assign_fields (v_idx i : nat) (w : Q) (bidx : nat)
           (rows : list (list (nat * Q))) : exc (list (list (nat * Q))) :=
  match nth_error rows v_idx with
  | None => Raise IndexError
  | Some r =>
    match Py.set_nth i (bidx, w) r with
    | None => Raise ValueError
    | Some r' => Ok (replace_nth v_idx r' rows)
    end
  end.

Fixpoint enumerate_from {A} (i : nat) (l : list A) : list (nat * A) :=
  match l with
  | [] => []
  | x :: l' => (i, x) :: enumerate_from (S i) l'
  end.

Definition write_vertex (rows : list (list (nat * Q)))
           (kv : nat * list (Q * nat)) : exc (list (list (nat * Q))) :=
  foldE (fun rows ie => assign_fields (fst kv) (fst ie) (fst (snd ie))
                                      (snd (snd ie)) rows)
        (enumerate_from 0 (snd kv)) rows.

(** [_compileVertexWeights(vertBoneMapping, skel, vertexCount, nWeights)];
    [names] lists the names of [skel.getBones()]. *)
Definition _compileVertexWeights (vertBoneMapping : raw_mapping)
           (names : list string) (vertexCount : option nat) (nWeights : nat)
  : exc compiled :=
  match (match vertexCount with
         | Some n => Ok n
         | None => infer_vertexCount vertBoneMapping
         end) with
  | Raise e => Raise e
  | Ok vertexCount =>
    let d := dtype_for nWeights in
    let compiled_vertweights := zeros vertexCount d in
    let _ws := finalize_all nWeights (accumulate names vertBoneMapping) in
    match foldE write_vertex _ws (records compiled_vertweights) with
    | Raise e => Raise e
    | Ok rows => Ok (mkCompiled d rows)
    end
  end.

(** ** Skinning *)

(** An [n x ncols] coordinate array. *)
Record coord_array := mkCoords {
  ncols : nat;
  crows : list (list Q)
}.

(** [m[:3, :c]] *)
Definition sub3 (c : nat) (m : Mat) : list (list Q) :=
  map (fun r => firstn c (vec_list r)) (firstn 3 (mat_rows m)).

Definition grid_scale (w : Q) (g : list (list Q)) : list (list Q) :=
  map (map (fun x => (w * x)%Q)) g.

Definition row_add (a b : list Q) : list Q :=
  map (fun p => (fst p + snd p)%Q) (combine a b).

Definition grid_add (a b : list (list Q)) : list (list Q) :=
  map (fun p => row_add (fst p) (snd p)) (combine a b).

(** [wght_i * P[b_idx_i][:3,:c]] for one vertex. *)
Definition skin_term (c : nat) (P : list Mat) (slot : nat * Q)
  : exc (list (list Q)) :=
  match nth_error P (fst slot) with
  | None => Raise IndexError
  | Some m => Ok (grid_scale (snd slot) (sub3 c m))
  end.

(** The sum of the first [k] terms of one vertex, added left to right. *)
Definition accum_vertex (c k : nat) (P : list Mat) (r : list (nat * Q))
  : exc (list (list Q)) :=
  match mapE (skin_term c P) (firstn k r) with
  | Raise e => Raise e
  | Ok [] => Raise ValueError
  | Ok (t :: ts) => Ok (fold_left grid_add ts t)
  end.

Definition dot (a b : list Q) : Q :=
  qsum (map (fun p => (fst p * snd p)%Q) (combine a b)).

(** One vertex of [einsum('ijk,ikl -> ij', accum[:,:3,:c], coords[:,:c,None])].
    A vertex of a single component is broadcast over the [c] columns. *)
Definition einsum_vertex (c : nat) (av : list (list Q) * list Q)
  : exc (list Q) :=
  let (a, v) := av in
  if length (firstn c v) =? c
  then Ok (map (fun arow => dot arow (firstn c v)) a)
  else match v with
       | [x] => Ok (map (fun arow => dot arow (repeat x c)) a)
       | _ => Raise ValueError
       end.

(** The columns of [coords[:,:c]], of an array of [n] columns, against the
    [c] columns of the matrices: they agree, or there is a single column. *)
Definition columns_fit (c n : nat) : bool :=
  (Nat.min c n =? c) || (Nat.min c n =? 1).

(** [skinMesh(coords, compiledVertWeights, poseData)].  [einsum] broadcasts
    an axis of length one: a single record serves every vertex, a single
    vertex every record, and a single coordinate column every matrix
    column; other shapes that do not agree are a [ValueError]. *)
Definition skinMesh (coords : coord_array) (compiledVertWeights : compiled)
           (poseData : list Mat) : exc (list (list Q)) :=
  let c := if ncols coords =? 4 then 4 else 3 in
  let W := compiledVertWeights in
  let P := poseData in
  let k := if dtype_len (dtype W) =? 4 * 2 then 4
           else if dtype_len (dtype W) =? 2 then 1
           else if dtype_len (dtype W) =? 17 * 2 then 17
           else 3 in
  match mapE (accum_vertex c k P) (records W) with
  | Raise e => Raise e
  | Ok accum =>
    if columns_fit c (ncols coords) then
      if length accum =? length (crows coords)
      then mapE (einsum_vertex c) (combine accum (crows coords))
      else match accum, crows coords with
           | [a], rows => mapE (fun v => einsum_vertex c (a, v)) rows
           | accs, [v] => mapE (fun a => einsum_vertex c (a, v)) accs
           | _, _ => Raise ValueError
           end
    else Raise ValueError
  end.

(** [emptyTrack(nFrames, nBones)] *)
Definition emptyTrack (nframes nbones : nat) : list Mat :=
  repeat mat_identity (nframes * nbones).

(** The frames [sparsify] means to keep: those whose number is a multiple
    of [dropFrames]. *)
Definition kept_frames (nframes : nat) (dropFrames : Z) : list nat :=
  filter (fun f => (Z.of_nat f mod dropFrames =? 0)%Z) (seq 0 nframes).

(** The states a skeleton goes through when the poses of a list are set one
    after the other. *)
Fixpoint pose_states {S} `{Skeleton S} (poses : list (list Mat)) (s : S)
  : list S :=
  match poses with
  | [] => []
  | p :: rest => let s' := snd (setPose p s) in s' :: pose_states rest s'
  end.

(** The skin matrices of all bones of a skeleton state, in bone order. *)
Definition skin_matrices {S} `{Skeleton S} (nbones : nat) (s : S) : list Mat :=
  map (matPoseVerts s) (seq 0 nbones).

(** The skeleton accepts every pose that has one matrix per bone. *)
Definition accepts_full_poses (S : Type) `{Skeleton S} : Prop :=
  forall (p : list Mat) (s : S),
    length p = boneCount s -> fst (setPose p s) = Ok tt.

(** The exception [e] is one that [setPose] of the skeleton raises. *)
Definition raised_by_setPose (S : Type) `{Skeleton S} (e : pyerror) : Prop :=
  exists (p : list Mat) (s : S), fst (setPose p s) = Raise e.

(** ** Skeletons for the examples *)

(** A skeleton that keeps the pose it is given; the skin matrix of a bone
    is its pose matrix.  A pose must have one matrix per bone. *)
Record ListSkeleton := mkListSkeleton { ls_pose : list Mat }.

#[export] Instance ListSkeleton_ops : Skeleton ListSkeleton := {
  boneCount s := length (ls_pose s);
  getPose s := ls_pose s;
  setPose p := fun s =>
    if length p =? length (ls_pose s)
    then (Ok tt, mkListSkeleton p)
    else (Raise IndexError, s);
  matPoseVerts s b := nth b (ls_pose s) mat_zero
}.

(** The same skeleton with a check: a pose with a matrix whose last
    diagonal entry is zero is refused. *)
Record CheckedSkeleton := mkCheckedSkeleton { cs_pose : list Mat }.

Definition degenerate (m : Mat) : bool := Qeq_bool (v3 (r3 m)) 0.

#[export] Instance CheckedSkeleton_ops : Skeleton CheckedSkeleton := {
  boneCount s := length (cs_pose s);
  getPose s := cs_pose s;
  setPose p := fun s =>
    if existsb degenerate p then (Raise (ForeignError 0), s)
    else if length p =? length (cs_pose s)
    then (Ok tt, mkCheckedSkeleton p)
    else (Raise IndexError, s);
  matPoseVerts s b := nth b (cs_pose s) mat_zero
}.

(** The pairs [(weight, bone index)] one item of the mapping assigns to
    vertex [v], in the order the compiler meets them; an item whose bone
    name the skeleton does not know assigns nothing. *)
Definition item_contributions (names : list string) (v : nat)
           (item : string * (list nat * list Q)) : list (Q * nat) :=
  match b_lookup names (fst item) with
  | None => []
  | Some b_idx =>
      map (fun vw => (snd vw, b_idx))
          (filter (fun vw => fst vw =? v)
                  (combine (fst (snd item)) (snd (snd item))))
  end.

Definition contributions (names : list string) (m : raw_mapping) (v : nat)
  : list (Q * nat) :=
  flat_map (item_contributions names v) m.

(** The number of entries vertex [v] has after merging: the number of
    distinct bones that assign to it. *)
Definition entry_count (names : list string) (m : raw_mapping) (v : nat)
  : nat :=
  length (nodup Nat.eq_dec (map snd (contributions names m v))).

(** The vertex count the compiler works with. *)
Definition effective_vertexCount (m : raw_mapping) (vertexCount : option nat)
  : exc nat :=
  match vertexCount with
  | Some n => Ok n
  | None => infer_vertexCount m
  end.

(** Every vertex index of the mapping. *)
Definition vertex_indices (m : raw_mapping) : list nat :=
  flat_map (fun item => fst (snd item)) m.

Definition raw_weights (m : raw_mapping) : list Q :=
  flat_map (fun item => snd (snd item)) m.

(** The entry list of one vertex, built from its contributions. *)
Definition merge_step (l : list (Q * nat)) (e : Q * nat) : list (Q * nat) :=
  add_weight l (fst e) (snd e).

Definition merged (cs : list (Q * nat)) : list (Q * nat) :=
  fold_left merge_step cs [].

(** One vertex of the dictionary, followed through the accumulation. *)
Definition entry_step (o : option (list (Q * nat))) (e : Q * nat)
  : option (list (Q * nat)) :=
  Some (merge_step (match o with Some l => l | None => [] end) e).

(** Entries in descending order of weight. *)
Definition entries_desc (l : list (Q * nat)) : Prop :=
  StronglySorted (fun a b => (fst b <= fst a)%Q) l.

(** Weights in descending order. *)
Definition descending (ws : list Q) : Prop :=
  StronglySorted (fun x y => (y <= x)%Q) ws.

(** A dictionary entry as a compiled record stores it. *)
Definition swap_entry (e : Q * nat) : nat * Q := (snd e, fst e).

(** Equality of rows and grids of rationals, entry by entry. *)
Definition row_eq (a b : list Q) : Prop := Forall2 Qeq a b.
Definition grid_eq (a b : list (list Q)) : Prop := Forall2 row_eq a b.

(** Equality of samples up to [Qeq] on the matrix entries. *)
Definition array_eq (a b : list Mat) : Prop := Forall2 mat_eq a b.

Definition sample_eq (x y : exc (option (list Mat))) : Prop :=
  match x, y with
  | Ok (Some a), Ok (Some b) => array_eq a b
  | Ok None, Ok None => True
  | Raise e, Raise e' => e = e'
  | _, _ => False
  end.

(** The matrices [getAtTime] hands back, read through the returned array. *)
Definition sampleAtTime (t : AnimationTrack) (time : Q)
  : exc (option (list Mat)) :=
  match getAtTime t time with
  | Ok (Some a) => Ok (Some (contents t a))
  | Ok None => Ok None
  | Raise e => Raise e
  end.

(** ** Sample inputs *)

Definition diag (q : Q) : Mat :=
  mat (vec4 q 0 0 5) (vec4 0 q 0 6) (vec4 0 0 q 7) (vec4 0 0 0 1).

(** A track of two frames of one bone, one frame per second, as the
    constructor builds it. *)
Definition track_1x2 : AnimationTrack :=
  mkTrack "walk" 2 2 1 [diag 1; diag 2] 1 true None None 0%Z.

(** A track of four frames of one bone at 30 frames per second. *)
Definition track_1x4 : AnimationTrack :=
  mkTrack "run" 4 4 1 [diag 1; diag 2; diag 3; diag 4] 30 true None None 0%Z.

(** Two frames of two bones. *)
Definition track_2x2 : AnimationTrack :=
  mkTrack "wave" 4 2 2 [diag 1; diag 2; diag 3; diag 4] 1 true None None 0%Z.

(** Two frames of one bone; the second frame holds a zero matrix. *)
Definition track_bad_frame : AnimationTrack :=
  mkTrack "bad" 2 2 1 [diag 1; mat_zero] 1 true None None 0%Z.

Definition rest_skeleton_2 : ListSkeleton :=
  mkListSkeleton [mat_identity; mat_identity].

Definition rest_checked_1 : CheckedSkeleton :=
  mkCheckedSkeleton [mat_identity].

(** A track set to logarithmic interpolation, and a mesh that plays it in
    place, half a second in. *)
Definition track_log : AnimationTrack :=
  mkTrack "log" 2 2 1 [diag 1; diag 2] 1 true None None 2%Z.

Definition mesh_log : AnimatedMesh :=
  mkAnimatedMesh (Some track_log) (1 # 2) true true false.

(** A mesh that plays [track_1x2] in place, at time 0. *)
Definition mesh_walk : AnimatedMesh :=
  mkAnimatedMesh (Some track_1x2) 0 true true false.

(** Two vertices with homogeneous coordinates, bound to two bones. *)
Definition coords_2 : coord_array :=
  mkCoords 4 [[3%Q; 4%Q; 5%Q; 1%Q]; [6%Q; 7%Q; 8%Q; 1%Q]].

Definition weights_2 : compiled :=
  mkCompiled L4
    [[(0, (1 # 2)%Q); (1, (1 # 2)%Q); (0, 0%Q); (0, 0%Q)];
     [(1, (3 # 4)%Q); (0, (1 # 4)%Q); (0, 0%Q); (0, 0%Q)]].

Definition rest_pose_2 : list Mat := emptyTrack 1 2.

(** ** Poses and empty tracks *)

(** [Pose.__init__(name, poseData)]: a track of one frame at rate 1. *)
Definition Pose_init (nm : string) (poseData : list Mat) : exc AnimationTrack :=
  init nm poseData 1 1.

(** [Pose.getData()] *)
Definition Pose_getData (t : AnimationTrack) : ndarray := getAtFramePos t 0.

(** [emptyPose(nBones)] *)
Definition emptyPose (nbones : nat) : list Mat := emptyTrack 1 nbones.

(** A looping track with linear interpolation, and the same track played
    once. *)
Definition track_once_looping : AnimationTrack :=
  mkTrack "loop" 2 2 1 [diag 1; diag 2] 1 true None None 1%Z.

(** A track of two frames that is played once. *)
Definition track_once : AnimationTrack :=
  mkTrack "once" 2 2 1 [diag 1; diag 2] 1 false None None 1%Z.

(** ** Further notions for the weight compiler *)

(** The bone name of an item is one the skeleton knows. *)
Definition resolves (names : list string)
           (item : string * (list nat * list Q)) : bool :=
  match b_lookup names (fst item) with Some _ => true | None => false end.

(** The total weight bone [b] assigns among the contributions [cs]. *)
Definition bone_total (cs : list (Q * nat)) (b : nat) : Q :=
  qsum (map fst (filter (fun e => snd e =? b) cs)).

(** ** VertexBoneWeights *)

Module VertexBoneWeights.

Record t := mk {
  _data : raw_mapping;
  _compiled : option compiled;
  _vertexCount : option nat;
  _nWeights : nat
}.

(** [VertexBoneWeights(data, nWeights=4, vertexCount=None)] *)
Definition init (data : raw_mapping) (nWeights : nat)
           (vertexCount : option nat) : t :=
  mk data None vertexCount nWeights.

Definition isCompiled (w : t) : bool :=
  match _compiled w with Some _ => true | None => false end.

Definition set_nWeights (v : nat) (w : t) : t :=
  mk (_data w) (_compiled w) (_vertexCount w) v.
Definition set_compiled (v : option compiled) (w : t) : t :=
  mk (_data w) v (_vertexCount w) (_nWeights w).
Definition set_vertexCount (v : option nat) (w : t) : t :=
  mk (_data w) (_compiled w) v (_nWeights w).

(** [compileData(skel, nWeights=None)]; [names] lists the bone names of
    [skel]. *)
Definition compileData (names : list string) (nWeights : option nat)
  : M t unit :=
  match nWeights with
  | Some k => modify (set_nWeights k)
  | None => ret tt
  end ;;;
  w <- get ;;
  c <- liftE (_compileVertexWeights (_data w) names (_vertexCount w)
                                    (_nWeights w)) ;;
  modify (set_compiled (Some c)) ;;;
  modify (set_vertexCount (Some (length (records c)))).

Definition clearCompiled (w : t) : t := set_compiled None w.

End VertexBoneWeights.

(** ** Further notions for skinning *)

(** The number of coordinate components [skinMesh] uses. *)
Definition used_cols (coords : coord_array) : nat :=
  if ncols coords =? 4 then 4 else 3.

(** [m[:3,:c]] applied to the first [c] components of [v]. *)
Definition transform (c : nat) (m : Mat) (v : list Q) : list Q :=
  map (fun row => dot row (firstn c v)) (sub3 c m).

(** Three frames of two bones in rest pose. *)
Definition track_rest : AnimationTrack :=
  mkTrack "rest" 6 3 2 (emptyTrack 3 2) 24 true None None 0%Z.

(** ** AnimatedMesh: the whole object *)

(** [getPoseState] as it acts on the active track: the result, and the
    track after the call. *)
Definition track_getPoseState (t : AnimationTrack) (time : Q) (inplace : bool)
  : exc (option ndarray) * AnimationTrack :=
  let am := mkAnimatedMesh (Some t) time inplace true false in
  let (r, am') := getPoseState am in
  (r, match currentAnim am' with Some t' => t' | None => t end).

(** Modelled from the spec: the mesh collaborator (its class is not part of
    this file).  A mesh has a name, one 3-d coordinate per vertex and a
    visibility flag; [changeCoords] replaces the coordinates and needs one
    row of three components per vertex (an array of another shape is
    reported as [ValueError]; broadcasting is not modelled), [calcNormals]
    and [update] leave name, coordinates and visibility as they are. *)
Module Mesh.

Record t := mk {
  name : string;
  coord : list (Q * Q * Q);
  visibility : bool
}.

Definition getVertexCount (m : t) : nat := length (coord m).

Definition row3 (r : list Q) : option (Q * Q * Q) :=
  match r with
  | [x; y; z] => Some (x, y, z)
  | _ => None
  end.

Fixpoint rows3 (rows : list (list Q)) : option (list (Q * Q * Q)) :=
  match rows with
  | [] => Some []
  | r :: rest =>
    match row3 r, rows3 rest with
    | Some v, Some vs => Some (v :: vs)
    | _, _ => None
    end
  end.

Definition changeCoords (verts : list (list Q)) (m : t) : exc t :=
  match rows3 verts with
  | Some vs => if length vs =? length (coord m)
               then Ok (mk (name m) vs (visibility m))
               else Raise ValueError
  | None => Raise ValueError
  end.

Definition calcNormals (m : t) : t := m.
Definition update (m : t) : t := m.

(** [coord[i, :3]] as a list. *)
Definition row_list (v : Q * Q * Q) : list Q :=
  [fst (fst v); snd (fst v); snd v].

End Mesh.

(** The skeleton collaborator, as [AnimatedMesh] uses it beyond [bake]. *)
Class RiggedSkeleton (S : Type) `{Skeleton S} := {
  boneNames : S -> list string;      (* [b.name for b in skel.getBones()] *)
  setToRestPose : S -> S
}.

Module AM.

Inductive am_error :=
| KeyError
| TypeError
| PyError (e : pyerror).

Inductive result (A : Type) :=
| Return (a : A)
| Throw (e : am_error).
Arguments Return {A} a.
Arguments Throw {A} e.

Definition R (St A : Type) : Type := St -> result A * St.

Definition rret {St A} (a : A) : R St A := fun s => (Return a, s).

Definition rbind {St A B} (c : R St A) (k : A -> R St B) : R St B :=
  fun s => match c s with
           | (Return a, s') => k a s'
           | (Throw e, s') => (Throw e, s')
           end.

Definition throw {St A} (e : am_error) : R St A := fun s => (Throw e, s).
Definition rget {St} : R St St := fun s => (Return s, s).
Definition rmodify {St} (f : St -> St) : R St unit :=
  fun s => (Return tt, f s).

Notation "x <~ c ;; k" := (rbind c (fun x => k))
  (at level 61, c at next level, right associativity).
Notation "c ~;; k" := (rbind c (fun _ => k))
  (at level 61, right associativity).

(** [try: c  except: pass] *)
Definition swallow {St} (c : R St unit) : R St unit :=
  fun s => (Return tt, snd (c s)).

Definition of_exc {A} (r : exc A) : result A :=
  match r with Ok a => Return a | Raise e => Throw (PyError e) end.

Fixpoint rfor {St A} (l : list A) (body : A -> R St unit) : R St unit :=
  match l with
  | [] => rret tt
  | x :: l' => body x ~;; rfor l' body
  end.

(** A Python dictionary with string keys, in insertion order. *)
Definition dict (V : Type) := list (string * V).

Fixpoint dict_get {V} (d : dict V) (k : string) : option V :=
  match d with
  | [] => None
  | (k0, v) :: rest => if String.eqb k0 k then Some v else dict_get rest k
  end.

Fixpoint dict_set {V} (d : dict V) (k : string) (v : V) : dict V :=
  match d with
  | [] => [(k, v)]
  | (k0, v0) :: rest =>
    if String.eqb k0 k then (k0, v) :: rest else (k0, v0) :: dict_set rest k v
  end.

(** [del d[k]]: [None] stands for [KeyError]. *)
Fixpoint dict_del {V} (d : dict V) (k : string) : option (dict V) :=
  match d with
  | [] => None
  | (k0, v0) :: rest =>
    if String.eqb k0 k then Some rest
    else option_map (cons (k0, v0)) (dict_del rest k)
  end.

(** The state of an [AnimatedMesh] together with the objects it refers to.
    Tracks and meshes are objects with an identity: [tracks] and [world]
    list them, and a reference is an index into these lists.  The
    [VertexBoneWeights] objects are held by value: one object shared by two
    bound meshes is not modelled. *)
Record state (S : Type) := mkState {
  tracks : list AnimationTrack;
  world : list Mesh.t;
  __skeleton : option S;
  __meshes : list nat;
  __vertexToBoneMaps : list VertexBoneWeights.t;
  __originalMeshCoords : list (list (list Q));
  _posed : bool;
  __animations : dict nat;
  __currentAnim : option nat;
  __playTime : Q;
  __inPlace : bool;
  onlyAnimateVisible : bool
}.
Arguments mkState {S}.
Arguments tracks {S}.
Arguments world {S}.
Arguments __skeleton {S}.
Arguments __meshes {S}.
Arguments __vertexToBoneMaps {S}.
Arguments __originalMeshCoords {S}.
Arguments _posed {S}.
Arguments __animations {S}.
Arguments __currentAnim {S}.
Arguments __playTime {S}.
Arguments __inPlace {S}.
Arguments onlyAnimateVisible {S}.

Definition null_track : AnimationTrack :=
  mkTrack EmptyString 0 0 0 [] 0 true None None 0%Z.
Definition null_mesh : Mesh.t := Mesh.mk EmptyString [] false.

(** The objects behind a reference. *)
Definition track_of {S} (s : state S) (a : nat) : AnimationTrack :=
  nth a (tracks s) null_track.
Definition mesh_of {S} (s : state S) (i : nat) : Mesh.t :=
  nth i (world s) null_mesh.

Definition set_tracks {S} (v : list AnimationTrack) (s : state S) : state S :=
  mkState v (world s) (__skeleton s) (__meshes s) (__vertexToBoneMaps s)
          (__originalMeshCoords s) (_posed s) (__animations s)
          (__currentAnim s) (__playTime s) (__inPlace s)
          (onlyAnimateVisible s).
Definition set_world {S} (v : list Mesh.t) (s : state S) : state S :=
  mkState (tracks s) v (__skeleton s) (__meshes s) (__vertexToBoneMaps s)
          (__originalMeshCoords s) (_posed s) (__animations s)
          (__currentAnim s) (__playTime s) (__inPlace s)
          (onlyAnimateVisible s).
Definition set_skeleton {S} (v : option S) (s : state S) : state S :=
  mkState (tracks s) (world s) v (__meshes s) (__vertexToBoneMaps s)
          (__originalMeshCoords s) (_posed s) (__animations s)
          (__currentAnim s) (__playTime s) (__inPlace s)
          (onlyAnimateVisible s).
Definition set_meshes {S} (v : list nat) (s : state S) : state S :=
  mkState (tracks s) (world s) (__skeleton s) v (__vertexToBoneMaps s)
          (__originalMeshCoords s) (_posed s) (__animations s)
          (__currentAnim s) (__playTime s) (__inPlace s)
          (onlyAnimateVisible s).
Definition set_vertexToBoneMaps {S} (v : list VertexBoneWeights.t)
           (s : state S) : state S :=
  mkState (tracks s) (world s) (__skeleton s) (__meshes s) v
          (__originalMeshCoords s) (_posed s) (__animations s)
          (__currentAnim s) (__playTime s) (__inPlace s)
          (onlyAnimateVisible s).
Definition set_originalMeshCoords {S} (v : list (list (list Q)))
           (s : state S) : state S :=
  mkState (tracks s) (world s) (__skeleton s) (__meshes s)
          (__vertexToBoneMaps s) v (_posed s) (__animations s)
          (__currentAnim s) (__playTime s) (__inPlace s)
          (onlyAnimateVisible s).
Definition set_posed {S} (v : bool) (s : state S) : state S :=
  mkState (tracks s) (world s) (__skeleton s) (__meshes s)
          (__vertexToBoneMaps s) (__originalMeshCoords s) v (__animations s)
          (__currentAnim s) (__playTime s) (__inPlace s)
          (onlyAnimateVisible s).
Definition set_animations {S} (v : dict nat) (s : state S) : state S :=
  mkState (tracks s) (world s) (__skeleton s) (__meshes s)
          (__vertexToBoneMaps s) (__originalMeshCoords s) (_posed s) v
          (__currentAnim s) (__playTime s) (__inPlace s)
          (onlyAnimateVisible s).
Definition set_currentAnim {S} (v : option nat) (s : state S) : state S :=
  mkState (tracks s) (world s) (__skeleton s) (__meshes s)
          (__vertexToBoneMaps s) (__originalMeshCoords s) (_posed s)
          (__animations s) v (__playTime s) (__inPlace s)
          (onlyAnimateVisible s).
Definition set_playTime {S} (v : Q) (s : state S) : state S :=
  mkState (tracks s) (world s) (__skeleton s) (__meshes s)
          (__vertexToBoneMaps s) (__originalMeshCoords s) (_posed s)
          (__animations s) (__currentAnim s) v (__inPlace s)
          (onlyAnimateVisible s).
Definition set_inPlace {S} (v : bool) (s : state S) : state S :=
  mkState (tracks s) (world s) (__skeleton s) (__meshes s)
          (__vertexToBoneMaps s) (__originalMeshCoords s) (_posed s)
          (__animations s) (__currentAnim s) (__playTime s) v
          (onlyAnimateVisible s).

(** *** The animation registry *)

(** [addAnimation(anim)] *)
Definition addAnimation {S} (anim : nat) (s : state S) : state S :=
  set_animations
    (dict_set (__animations s) (name (track_of s anim)) anim) s.

(** [getAnimation(name)] *)
Definition getAnimation {S} (nm : string) (s : state S) : result nat :=
  match dict_get (__animations s) nm with
  | Some a => Return a
  | None => Throw KeyError
  end.

Definition getAnimations {S} (s : state S) : list string :=
  map fst (__animations s).

Definition hasAnimation {S} (nm : string) (s : state S) : bool :=
  existsb (String.eqb nm) (getAnimations s).

(** [resetBakedAnimations()] *)
Definition resetBaked_at {S} (a : nat) (s : state S) : state S :=
  set_tracks (replace_nth a (resetBaked (track_of s a)) (tracks s)) s.

Definition resetBakedAnimations {S} : R (state S) unit :=
  s <~ rget ;;
  rfor (getAnimations s)
       (fun anim_name =>
          s1 <~ rget ;;
          match getAnimation anim_name s1 with
          | Return a => rmodify (resetBaked_at a)
          | Throw e => throw e
          end).

(** [removeAnimation(name)] *)
Definition removeAnimation {S} (nm : string) : R (state S) unit :=
  s <~ rget ;;
  match dict_del (__animations s) nm with
  | None => throw KeyError
  | Some d =>
    rmodify (set_animations d) ~;;
    match __currentAnim s with
    | Some a => if String.eqb (name (track_of s a)) nm
                then rmodify (set_currentAnim None)
                else rret tt
    | None => rret tt
    end
  end.

(** Python truth of a name: [None] and the empty string are false. *)
Definition truthy_name (nm : option string) : option string :=
  match nm with
  | Some EmptyString => None
  | other => other
  end.

(** [setActiveAnimation(name)] *)
Definition setActiveAnimation {S} (nm : option string) : R (state S) unit :=
  match truthy_name nm with
  | None => rmodify (set_currentAnim None)
  | Some n =>
    s <~ rget ;;
    match dict_get (__animations s) n with
    | Some a => rmodify (set_currentAnim (Some a))
    | None => throw KeyError
    end
  end.

Definition getActiveAnimation {S} (s : state S) : option nat :=
  __currentAnim s.

Definition setAnimateInPlace {S} (enable : bool) (s : state S) : state S :=
  set_inPlace enable s.

Definition getSkeleton {S} (s : state S) : option S := __skeleton s.

Definition getTime {S} (s : state S) : Q := __playTime s.

(** [isPoseable()], [isPosed()] *)
Definition isPoseable {S} (s : state S) : bool :=
  match __currentAnim s, getSkeleton s with
  | Some _, Some _ => true
  | _, _ => false
  end.

Definition isPosed {S} (s : state S) : bool := _posed s && isPoseable s.

(** *** Bound meshes *)

(** [l[i]] and [del l[i]] on a Python list. *)
Definition index {St A} (l : list A) (i : nat) : R St A :=
  match nth_error l i with
  | Some x => rret x
  | None => throw (PyError IndexError)
  end.

Definition del_at {A} (i : nat) (l : list A) : list A :=
  firstn i l ++ skipn (i + 1) l.

Definition del {St A} (proj : St -> list A) (upd : list A -> St -> St)
           (i : nat) : R St unit :=
  s <~ rget ;;
  if i <? length (proj s) then rmodify (upd (del_at i (proj s)))
  else throw (PyError IndexError).

Definition getBoundMeshes {S} (s : state S) : list string :=
  map (fun m => Mesh.name (mesh_of s m)) (__meshes s).

(** [_getBoundMeshIndex(meshName)] *)
Fixpoint first_named {S} (s : state S) (meshName : string)
         (ms : list (nat * nat)) : option nat :=
  match ms with
  | [] => None
  | (idx, mesh) :: rest =>
    if String.eqb (Mesh.name (mesh_of s mesh)) meshName then Some idx
    else first_named s meshName rest
  end.

Definition _getBoundMeshIndex {S} (meshName : string) : R (state S) nat :=
  s <~ rget ;;
  match first_named s meshName (enumerate_from 0 (__meshes s)) with
  | Some idx => rret idx
  | None => throw (PyError (RuntimeError NoSuchBoundMesh))
  end.

(** [_updateMeshVerts(mesh, verts)] *)
Definition _updateMeshVerts {S} (mesh : nat) (verts : list (list Q))
  : R (state S) unit :=
  fun s =>
    match Mesh.changeCoords (map (firstn 3) verts) (mesh_of s mesh) with
    | Ok m =>
      (Return tt,
       set_world (replace_nth mesh (Mesh.update (Mesh.calcNormals m))
                              (world s)) s)
    | Raise e => (Throw (PyError e), s)
    end.

(** [removeBoundMesh(name)] *)
Definition removeBoundMesh {S} (nm : string) : R (state S) unit :=
  swallow
    (rIdx <~ _getBoundMeshIndex nm ;;
     swallow (s <~ rget ;;
              mesh <~ index (__meshes s) rIdx ;;
              o <~ index (__originalMeshCoords s) rIdx ;;
              _updateMeshVerts mesh (map (firstn 3) o)) ~;;
     del __meshes set_meshes rIdx ~;;
     del __originalMeshCoords set_originalMeshCoords rIdx ~;;
     del __vertexToBoneMaps set_vertexToBoneMaps rIdx).

(** [getRestCoordinates(name)] *)
Definition getRestCoordinates {S} (nm : string)
  : R (state S) (list (list Q)) :=
  rIdx <~ _getBoundMeshIndex nm ;;
  s <~ rget ;;
  o <~ index (__originalMeshCoords s) rIdx ;;
  rret (map (firstn 3) o).

(** [getBoundMesh(name)]: [None] stands for the pair [(None, None)]. *)
Definition getBoundMesh {S} (nm : string)
  : R (state S) (option (nat * VertexBoneWeights.t)) :=
  s <~ rget ;;
  match first_named s nm (enumerate_from 0 (__meshes s)) with
  | None => rret None
  | Some rIdx =>
    mesh <~ index (__meshes s) rIdx ;;
    vmap <~ index (__vertexToBoneMaps s) rIdx ;;
    rret (Some (mesh, vmap))
  end.

(** [containsBoundMesh(mesh)] *)
Definition containsBoundMesh {S} (mesh : nat) : R (state S) bool :=
  s <~ rget ;;
  r <~ getBoundMesh (Mesh.name (mesh_of s mesh)) ;;
  rret (match r with
        | Some (mesh2, _) => mesh2 =? mesh
        | None => false
        end).

(** A vertex-to-bone mapping is given raw or as a [VertexBoneWeights]. *)
Definition as_weights {S} (s : state S) (mesh : nat)
           (vertexToBoneMapping : raw_mapping + VertexBoneWeights.t)
  : VertexBoneWeights.t :=
  match vertexToBoneMapping with
  | inr w => w
  | inl raw =>
    VertexBoneWeights.init raw 4
                           (Some (Mesh.getVertexCount (mesh_of s mesh)))
  end.

(** [vmap.compileData(skel)] on a mapping that is not stored yet. *)
Definition compiled_with {S} `{RiggedSkeleton S} (skel : S)
           (vmap : VertexBoneWeights.t) : result VertexBoneWeights.t :=
  match VertexBoneWeights.compileData (boneNames skel) None vmap with
  | (Ok _, vmap') => Return vmap'
  | (Raise e, _) => Throw (PyError e)
  end.

(** The rest coordinates of a mesh with the homogeneous coordinate 1. *)
Definition rest_snapshot (m : Mesh.t) : list (list Q) :=
  map (fun v => Mesh.row_list v ++ [1%Q]) (Mesh.coord m).

(** [addBoundMesh(mesh, vertexToBoneMapping)] *)
Definition addBoundMesh {S} `{RiggedSkeleton S} (mesh : nat)
           (vertexToBoneMapping : raw_mapping + VertexBoneWeights.t)
  : R (state S) unit :=
  s <~ rget ;;
  (if existsb (String.eqb (Mesh.name (mesh_of s mesh))) (getBoundMeshes s)
   then getBoundMesh (Mesh.name (mesh_of s mesh)) ~;;
        removeBoundMesh (Mesh.name (mesh_of s mesh))
   else rret tt) ~;;
  s1 <~ rget ;;
  let vmap := as_weights s1 mesh vertexToBoneMapping in
  rmodify (fun s => set_originalMeshCoords
                      (__originalMeshCoords s
                       ++ [rest_snapshot (mesh_of s mesh)]) s) ~;;
  vmap' <~ match getSkeleton s1 with
           | Some skel => fun s => (compiled_with skel vmap, s)
           | None => rret vmap
           end ;;
  rmodify (fun s => set_vertexToBoneMaps
                      (__vertexToBoneMaps s ++ [vmap']) s) ~;;
  rmodify (fun s => set_meshes (__meshes s ++ [mesh]) s).

(** [updateVertexWeights(meshName, vertexToBoneMapping)] *)
Definition updateVertexWeights {S} `{RiggedSkeleton S} (meshName : string)
           (vertexToBoneMapping : raw_mapping + VertexBoneWeights.t)
  : R (state S) unit :=
  rIdx <~ _getBoundMeshIndex meshName ;;
  s <~ rget ;;
  mesh <~ index (__meshes s) rIdx ;;
  let vmap := as_weights s mesh vertexToBoneMapping in
  vmap' <~ match getSkeleton s with
           | Some skel => fun s => (compiled_with skel vmap, s)
           | None => rret vmap
           end ;;
  s1 <~ rget ;;
  if rIdx <? length (__vertexToBoneMaps s1)
  then rmodify (set_vertexToBoneMaps
                  (replace_nth rIdx vmap' (__vertexToBoneMaps s1)))
  else throw (PyError IndexError).

(** [resetCompiledWeights()] *)
Definition resetCompiledWeights {S} (s : state S) : state S :=
  set_vertexToBoneMaps
    (map VertexBoneWeights.clearCompiled (__vertexToBoneMaps s)) s.

(** *** Posing *)

(** [self.__currentAnim.bake(self.getSkeleton())] *)
Definition bake_current {S} `{RiggedSkeleton S} (anim : nat) (skel : S)
  : R (state S) unit :=
  fun s =>
    match bake (track_of s anim, skel) with
    | (r, (t', skel')) =>
      (of_exc r,
       set_skeleton (Some skel')
                    (set_tracks (replace_nth anim t' (tracks s)) s))
    end.

(** [getPoseState()] *)
Definition getPoseState {S} : R (state S) (option ndarray) :=
  fun s =>
    match __currentAnim s with
    | None => (Throw (PyError AttributeError), s)
    | Some a =>
      match track_getPoseState (track_of s a) (__playTime s) (__inPlace s)
      with
      | (r, t') => (of_exc r, set_tracks (replace_nth a t' (tracks s)) s)
      end
    end.

(** The body of the loop of [_pose] over the bound meshes, posed branch. *)
Definition pose_mesh {S} `{RiggedSkeleton S} (anim : nat)
           (poseState : option ndarray) (item : nat * nat)
  : R (state S) unit :=
  let (idx, mesh) := item in
  s <~ rget ;;
  if onlyAnimateVisible s && negb (Mesh.visibility (mesh_of s mesh))
  then rret tt
  else
    vmap <~ index (__vertexToBoneMaps s) idx ;;
    (if VertexBoneWeights.isCompiled vmap then rret tt
     else match getSkeleton s with
          | Some skel =>
            fun s =>
              match VertexBoneWeights.compileData (boneNames skel) None vmap
              with
              | (r, vmap') =>
                (of_exc r,
                 set_vertexToBoneMaps
                   (replace_nth idx vmap' (__vertexToBoneMaps s)) s)
              end
          | None => throw (PyError AttributeError)
          end) ~;;
    s1 <~ rget ;;
    o <~ index (__originalMeshCoords s1) idx ;;
    vmap1 <~ index (__vertexToBoneMaps s1) idx ;;
    match VertexBoneWeights._compiled vmap1, poseState with
    | None, _ => throw (PyError AttributeError)
    | Some _, None => throw TypeError
    | Some W, Some a =>
      match skinMesh (mkCoords 4 o) W (contents (track_of s1 anim) a) with
      | Raise e => throw (PyError e)
      | Ok posedCoords => _updateMeshVerts mesh (map (firstn 3) posedCoords)
      end
    end.

(** The body of the loop of [_pose], rest branch. *)
Definition rest_mesh {S} (item : nat * nat) : R (state S) unit :=
  let (idx, mesh) := item in
  s <~ rget ;;
  o <~ index (__originalMeshCoords s) idx ;;
  _updateMeshVerts mesh o.

(** [_pose()] *)
Definition _pose {S} `{RiggedSkeleton S} : R (state S) unit :=
  s <~ rget ;;
  if isPosed s then
    match getSkeleton s, __currentAnim s with
    | Some skel, Some anim =>
      (if isBaked (track_of s anim) then rret tt
       else bake_current anim skel) ~;;
      poseState <~ getPoseState ;;
      s1 <~ rget ;;
      rfor (enumerate_from 0 (__meshes s1)) (pose_mesh anim poseState)
    | _, _ => rret tt
    end
  else
    match getSkeleton s with
    | Some skel => rmodify (set_skeleton (Some (setToRestPose skel)))
    | None => rret tt
    end ~;;
    s1 <~ rget ;;
    rfor (enumerate_from 0 (__meshes s1)) rest_mesh.

(** *** Play time *)

(** [update(timeDeltaSecs)] *)
Definition update {S} `{RiggedSkeleton S} (timeDeltaSecs : Q)
  : R (state S) unit :=
  rmodify (fun s => set_playTime (__playTime s + timeDeltaSecs)%Q s) ~;;
  _pose.

(** [resetTime()] *)
Definition resetTime {S} `{RiggedSkeleton S} : R (state S) unit :=
  rmodify (set_playTime 0%Q) ~;; _pose.

(** [setToTime(time, update=True)] *)
Definition setToTime {S} `{RiggedSkeleton S} (time : Q) (upd : bool)
  : R (state S) unit :=
  rmodify (set_playTime time) ~;;
  if upd then _pose else rret tt.

(** [resetToRestPose(update=True)] *)
Definition resetToRestPose {S} `{RiggedSkeleton S} (upd : bool)
  : R (state S) unit :=
  setActiveAnimation None ~;;
  if upd then resetTime else rmodify (set_playTime 0%Q).

(** [removeAnimations(update=True)] *)
Definition removeAnimations {S} `{RiggedSkeleton S} (upd : bool)
  : R (state S) unit :=
  resetToRestPose upd ~;; rmodify (set_animations []).

(** [setSkeleton(skel)] *)
Definition setSkeleton {S} `{RiggedSkeleton S} (skel : option S)
  : R (state S) unit :=
  rmodify (set_skeleton skel) ~;;
  removeAnimations false ~;;
  rmodify resetCompiledWeights.

(** [refreshPose(updateIfInRest=False)] *)
Definition refreshPose {S} `{RiggedSkeleton S} (updateIfInRest : bool)
  : R (state S) unit :=
  s <~ rget ;;
  match getSkeleton s with
  | None => resetToRestPose true
  | Some _ => rret tt
  end ~;;
  s1 <~ rget ;;
  if updateIfInRest || isPosed s1 then _pose else rret tt.

(** [setPosed(posed)] *)
Definition setPosed {S} `{RiggedSkeleton S} (posed : bool)
  : R (state S) unit :=
  rmodify (set_posed posed) ~;; refreshPose true.

(** [a[:, :3] = c[:, :3]] on a snapshot [a] with one row per vertex; a
    source of one row is broadcast. *)
Definition assign_xyz (a : list (list Q)) (c : list (Q * Q * Q))
  : exc (list (list Q)) :=
  if length c =? length a
  then Ok (map (fun rv => Mesh.row_list (snd rv) ++ skipn 3 (fst rv))
               (combine a c))
  else match c with
       | [v] => Ok (map (fun r => Mesh.row_list v ++ skipn 3 r) a)
       | _ => Raise ValueError
       end.

(** [refreshStaticMeshes(refresh_pose=True)] *)
Definition refresh_mesh {S} (item : nat * nat) : R (state S) unit :=
  let (mIdx, mesh) := item in
  s <~ rget ;;
  o <~ index (__originalMeshCoords s) mIdx ;;
  match assign_xyz o (Mesh.coord (mesh_of s mesh)) with
  | Ok o' => rmodify (set_originalMeshCoords
                        (replace_nth mIdx o' (__originalMeshCoords s)))
  | Raise e => throw (PyError e)
  end.

Definition refreshStaticMeshes {S} `{RiggedSkeleton S} (refresh_pose : bool)
  : R (state S) unit :=
  s <~ rget ;;
  rfor (enumerate_from 0 (__meshes s)) refresh_mesh ~;;
  if refresh_pose then refreshPose false else rret tt.

(** [_updateOriginalMeshCoords(name, coord)] *)
Definition _updateOriginalMeshCoords {S} (nm : string)
           (coord : list (Q * Q * Q)) : R (state S) unit :=
  rIdx <~ _getBoundMeshIndex nm ;;
  s <~ rget ;;
  o <~ index (__originalMeshCoords s) rIdx ;;
  match assign_xyz o coord with
  | Ok o' => rmodify (set_originalMeshCoords
                        (replace_nth rIdx o' (__originalMeshCoords s)))
  | Raise e => throw (PyError e)
  end.

(** [AnimatedMesh(skel, mesh, vertexToBoneMapping)], created among the
    track and mesh objects [trs] and [ms]. *)
Definition init {S} `{RiggedSkeleton S} (trs : list AnimationTrack)
           (ms : list Mesh.t) (skel : option S) (mesh : nat)
           (vertexToBoneMapping : raw_mapping + VertexBoneWeights.t)
  : result unit * state S :=
  addBoundMesh mesh vertexToBoneMapping
               (mkState trs ms skel [] [] [] true [] None 0%Q false false).

End AM.

(** ** Notions for the properties of [AnimatedMesh] *)

(** A skeleton with named bones that keeps the pose it is given; its rest
    pose is the identity on every bone. *)
Record RigSkeleton := mkRig { rig_bones : list string; rig_pose : list Mat }.

#[export] Instance RigSkeleton_ops : Skeleton RigSkeleton := {
  boneCount s := length (rig_bones s);
  getPose s := rig_pose s;
  setPose p := fun s =>
    if length p =? length (rig_bones s)
    then (Ok tt, mkRig (rig_bones s) p)
    else (Raise IndexError, s);
  matPoseVerts s b := nth b (rig_pose s) mat_zero
}.

#[export] Instance RigSkeleton_rig : RiggedSkeleton RigSkeleton := {
  boneNames s := rig_bones s;
  setToRestPose s :=
    mkRig (rig_bones s) (repeat mat_identity (length (rig_bones s)))
}.

(** A snapshot of rest coordinates fits a mesh: one row per vertex, with at
    least the three coordinates. *)
Definition snapshot_fits (m : Mesh.t) (o : list (list Q)) : Prop :=
  length o = length (Mesh.coord m) /\ Forall (fun r => 3 <= length r) o.

(** The coordinates [o[:, :3]] of a snapshot, one triple per vertex. *)
Definition xyz (o : list (list Q)) : list (Q * Q * Q) :=
  map (fun r => (nth 0 r 0%Q, nth 1 r 0%Q, nth 2 r 0%Q)) o.

(** The bound meshes have distinct names, and each has its mapping and a
    snapshot that fits. *)
Definition bound_ok {S} (s : AM.state S) : Prop :=
  NoDup (AM.getBoundMeshes s) /\
  length (AM.__originalMeshCoords s) = length (AM.__meshes s) /\
  length (AM.__vertexToBoneMaps s) = length (AM.__meshes s) /\
  forall idx mesh o,
    nth_error (AM.__meshes s) idx = Some mesh ->
    nth_error (AM.__originalMeshCoords s) idx = Some o ->
    mesh < length (AM.world s) /\ snapshot_fits (AM.mesh_of s mesh) o.

(** A triangle and a player that has bound it, with one track. *)
Definition triangle : Mesh.t :=
  Mesh.mk "tri" [(0, 0, 0); (1, 0, 0); (0, 1, 0)]%Q true.

Definition moved_triangle : Mesh.t :=
  Mesh.mk "tri" [(5, 5, 5); (6, 5, 5); (5, 6, 5)]%Q true.

Definition player_rest : AM.state RigSkeleton :=
  AM.mkState [track_1x4] [moved_triangle]
             (Some (mkRig ["root"%string] [diag 2]))
             [0] [VertexBoneWeights.init [] 4 (Some 3)]
             [AM.rest_snapshot triangle]
             false [("run"%string, 0)] (Some 0) 0%Q false false.

(** The state with one more snapshot, taken of the mesh [mesh], and the
    state in which this mesh is bound with the weights [vmap]. *)
Definition with_snapshot {S} (s : AM.state S) (mesh : nat) : AM.state S :=
  AM.set_originalMeshCoords
    (AM.__originalMeshCoords s ++ [AM.rest_snapshot (AM.mesh_of s mesh)]) s.

Definition with_bound {S} (s : AM.state S) (mesh : nat)
           (vmap : VertexBoneWeights.t) : AM.state S :=
  AM.set_meshes
    (AM.__meshes s ++ [mesh])
    (AM.set_vertexToBoneMaps (AM.__vertexToBoneMaps s ++ [vmap])
                             (with_snapshot s mesh)).

(** What a pass of [_pose] over the bound meshes may change: the
    coordinates of the meshes it touches and the compiled weights; the
    visibility of every mesh and all the rest of the state stay. *)
Definition pose_frame {S} (touch : nat -> Prop) (s s' : AM.state S) : Prop :=
  AM.set_world [] (AM.set_vertexToBoneMaps [] s')
  = AM.set_world [] (AM.set_vertexToBoneMaps [] s) /\
  (forall i, Mesh.visibility (AM.mesh_of s' i)
             = Mesh.visibility (AM.mesh_of s i)) /\
  (forall i, ~ touch i -> AM.mesh_of s' i = AM.mesh_of s i).

(** The player with its triangle, posed with a baked track. *)
Definition player_posed : AM.state RigSkeleton :=
  AM.mkState [set_baked (Some [diag 1; diag 1; diag 1; diag 1]) track_1x4]
             [triangle]
             (Some (mkRig ["root"%string] [diag 2]))
             [0] [VertexBoneWeights.init
                    [("root"%string, ([0; 1; 2], [1; 1; 1]%Q))] 4 (Some 3)]
             [AM.rest_snapshot triangle]
             true [("run"%string, 0)] (Some 0) 0%Q false false.

(** * Properties *)

(** ** Rounding *)

Lemma trunc_nonneg_floor (x : Q) : (0 <= x)%Q -> Py.trunc x = Qfloor x.
Proof.
  destruct x as [n d]; unfold Py.trunc, Qfloor, Qle; simpl; intros Hn.
  apply Z.quot_div_nonneg; lia.
Qed.

Lemma Qfloor_unique (x : Q) (z : Z) :
  (inject_Z z <= x)%Q -> (x < inject_Z (z + 1))%Q -> Qfloor x = z.
Proof.
  intros Hlo Hhi.
  assert (H1 : (Qfloor x < z + 1)%Z).
  { rewrite Zlt_Qlt. eapply Qle_lt_trans; [apply Qfloor_le | exact Hhi]. }
  assert (H2 : (z < Qfloor x + 1)%Z).
  { rewrite Zlt_Qlt. eapply Qle_lt_trans; [exact Hlo | apply Qlt_floor]. }
  lia.
Qed.

Lemma Qfloor_plus_Z (x : Q) (n : Z) :
  Qfloor (x + inject_Z n)%Q = (Qfloor x + n)%Z.
Proof.
  apply Qfloor_unique.
  - rewrite inject_Z_plus. apply Qplus_le_compat; [apply Qfloor_le | apply Qle_refl].
  - replace (Qfloor x + n + 1)%Z with ((Qfloor x + 1) + n)%Z by ring.
    rewrite inject_Z_plus. apply Qplus_lt_le_compat; [apply Qlt_floor | apply Qle_refl].
Qed.

Lemma frac_bounds (x : Q) :
  (0 <= x - inject_Z (Qfloor x))%Q /\ (x - inject_Z (Qfloor x) < 1)%Q.
Proof.
  pose proof (Qfloor_le x) as Hlo. pose proof (Qlt_floor x) as Hhi.
  rewrite inject_Z_plus in Hhi. change (inject_Z 1) with 1%Q in Hhi.
  split; lra.
Qed.

Lemma modf_nonneg (x : Q) :
  (0 <= x)%Q -> Py.modf x = ((x - inject_Z (Qfloor x))%Q, Qfloor x).
Proof.
  intros Hx. unfold Py.modf. now rewrite trunc_nonneg_floor.
Qed.

(** ** Time to frame *)

(** For a time that is not negative, [getFrameIndexAtTime] returns the
    frame and the fraction its documentation describes. *)
Lemma getFrameIndexAtTime_nonneg (t : AnimationTrack) (time : Q) :
  nFrames t <> 0 -> (0 <= frameRate t * time)%Q ->
  let raw := (frameRate t * time)%Q in
  exists frameIdx fraction,
    getFrameIndexAtTime t time = Ok (frameIdx, fraction) /\
    (0 <= fraction)%Q /\ (fraction < 1)%Q /\
    (loop t = true ->
       frameIdx = (Qfloor raw mod Z.of_nat (nFrames t))%Z /\
       fraction = (raw - inject_Z (Qfloor raw))%Q) /\
    (loop t = false -> (Z.of_nat (nFrames t) <= Qfloor raw)%Z ->
       frameIdx = (Z.of_nat (nFrames t) - 1)%Z /\ fraction = 0%Q) /\
    (loop t = false -> (Qfloor raw < Z.of_nat (nFrames t))%Z ->
       frameIdx = Qfloor raw /\
       fraction = (raw - inject_Z (Qfloor raw))%Q).
Proof.
  intros Hn Hraw raw. unfold getFrameIndexAtTime.
  rewrite (modf_nonneg _ Hraw). fold raw.
  destruct (frac_bounds raw) as [Hf0 Hf1].
  destruct (loop t) eqn:Hloop.
  - destruct (Nat.eqb_spec (nFrames t) 0) as [E|_]; [contradiction|].
    eexists _, _. split; [reflexivity|].
    repeat split; try assumption; discriminate.
  - destruct (Z.leb_spec (Z.of_nat (nFrames t)) (Qfloor raw)) as [Hge|Hlt].
    + eexists _, _. split; [reflexivity|].
      repeat split; try discriminate; try reflexivity; lia.
    + eexists _, _. split; [reflexivity|].
      repeat split; try assumption; try discriminate; lia.
Qed.

(** C4 (failing input).  With one frame per second and two frames, the time
    -1/2 yields frame 0 and the fraction -1/2: [math.modf] rounds towards
    zero and keeps the sign.  The floor of the raw frame position is -1, so
    the frame the documentation describes is 1 (= -1 mod 2) with fraction
    1/2, and a fraction is documented to lie in [0,1). *)
Theorem getFrameIndexAtTime_negative_time :
  getFrameIndexAtTime track_1x2 (-1 # 2) = Ok (0%Z, (-1 # 2)%Q) /\
  (Qfloor (frameRate track_1x2 * (-1 # 2)) mod Z.of_nat (nFrames track_1x2))%Z
    = 1%Z /\
  ~ (0 <= (-1 # 2))%Q.
Proof.
  split; [vm_compute; reflexivity|].
  split; [vm_compute; reflexivity|].
  intros H; vm_compute in H; apply H; reflexivity.
Qed.

(** C6 (failing input).  The same track has period 2 seconds, yet the
    sample at time -1/2 is frame 0 and the sample one period later, at 3/2,
    is frame 1. *)
Theorem getAtTime_negative_time_not_periodic :
  loop track_1x2 = true /\
  (inject_Z (Z.of_nat (nFrames track_1x2)) / frameRate track_1x2 == 2)%Q /\
  sampleAtTime track_1x2 (-1 # 2) = Ok (Some [diag 1]) /\
  sampleAtTime track_1x2 ((-1 # 2) + 2) = Ok (Some [diag 2]) /\
  diag 1 <> diag 2.
Proof.
  repeat split; try (vm_compute; reflexivity).
  discriminate.
Qed.

(** ** Looping flag *)

Lemma setLooping_loop (b : bool) (t : AnimationTrack) :
  loop (setLooping b t) = loop t /\
  nFrames (setLooping b t) = nFrames t /\
  frameRate (setLooping b t) = frameRate t.
Proof. repeat split. Qed.

Lemma setLooping_many_loop (bs : list bool) (t : AnimationTrack) :
  let t' := fold_left (fun t b => setLooping b t) bs t in
  loop t' = loop t /\ nFrames t' = nFrames t /\ frameRate t' = frameRate t.
Proof.
  revert t. induction bs as [|b bs IH]; intros t; simpl; [repeat split|].
  destruct (IH (setLooping b t)) as (H1 & H2 & H3).
  destruct (setLooping_loop b t) as (E1 & E2 & E3).
  repeat split; congruence.
Qed.

Lemma init_loop nm poseData nframes framerate t :
  init nm poseData nframes framerate = Ok t -> loop t = true.
Proof.
  unfold init. destruct (nframes =? 0); [discriminate|].
  destruct (negb _); [discriminate|]. intros [= <-]. reflexivity.
Qed.

(** C9.  After any sequence of [setLooping] calls on a constructed track,
    [isLooping] still answers [True], the value the constructor stored in
    [loop], and [getFrameIndexAtTime] computes what it computed before: the
    setter only ever writes the attribute [looping]. *)
Theorem setLooping_does_not_change_isLooping
        nm poseData nframes framerate t (bs : list bool) :
  init nm poseData nframes framerate = Ok t ->
  let t' := fold_left (fun t b => setLooping b t) bs t in
  isLooping t = true /\
  isLooping t' = true /\
  (forall b, In b bs -> looping t' <> None) /\
  (forall time, getFrameIndexAtTime t' time = getFrameIndexAtTime t time).
Proof.
  intros Hinit t'.
  destruct (setLooping_many_loop bs t) as (H1 & H2 & H3). fold t' in H1, H2, H3.
  pose proof (init_loop _ _ _ _ _ Hinit) as Hl.
  unfold isLooping. repeat split.
  - exact Hl.
  - congruence.
  - intros b Hb. subst t'. clear -Hb. revert t.
    induction bs as [|b0 bs IH] using rev_ind; intros t; [contradiction|].
    rewrite fold_left_app. simpl. discriminate.
  - intros time. unfold getFrameIndexAtTime. now rewrite H1, H2, H3.
Qed.

Lemma setLooping_does_not_change_isLooping_witness :
  let t := track_1x2 in
  let t' := fold_left (fun t b => setLooping b t) [false; true; false] t in
  isLooping t = true /\ isLooping t' = true /\
  (forall b, In b [false; true; false] -> looping t' <> None) /\
  (forall time, getFrameIndexAtTime t' time = getFrameIndexAtTime t time).
Proof.
  apply (setLooping_does_not_change_isLooping "walk" [diag 1; diag 2] 2 1).
  reflexivity.
Defined.

(** ** sparsify *)

(** No call of [sparsify] changes the track: every branch that returns does
    so before the first assignment, and the first assignment raises. *)
Lemma sparsify_state (newFrameRate : Q) (t : AnimationTrack) :
  snd (sparsify newFrameRate t) = t.
Proof.
  unfold sparsify, bind, get, raise, ret, liftE, assign_data.
  destruct (negb _); [reflexivity|].
  destruct (Qeq_bool _ _); [reflexivity|].
  destruct (_ <=? _)%Z; [reflexivity|].
  destruct (nBones t =? 0); [reflexivity|].
  destruct (fancy_index _ _); reflexivity.
Qed.

Lemma sparsify_higher_rate (newFrameRate : Q) (t : AnimationTrack) :
  (frameRate t < newFrameRate)%Q ->
  sparsify newFrameRate t = (Raise (RuntimeError FrameRateTooHigh), t).
Proof.
  intros Hlt. unfold sparsify, bind, get, raise.
  destruct (Qle_bool newFrameRate (frameRate t)) eqn:E; [|reflexivity].
  apply Qle_bool_iff in E. exfalso. apply (Qlt_not_le _ _ Hlt E).
Qed.

(** A call that gets as far as dropping frames ends in [AttributeError]
    (or in the [IndexError] of the selection) and never returns. *)
Lemma sparsify_drop_raises (newFrameRate : Q) (t : AnimationTrack) :
  (1 <= Py.trunc (frameRate t / newFrameRate))%Z ->
  fst (sparsify newFrameRate t) <> Ok tt.
Proof.
  intros Hd. unfold sparsify, bind, get, raise, ret, liftE, assign_data.
  destruct (negb _); [discriminate|].
  destruct (Qeq_bool _ _); [discriminate|].
  destruct (Z.leb_spec (Py.trunc (frameRate t / newFrameRate)) 0); [lia|].
  destruct (nBones t =? 0); [discriminate|].
  destruct (fancy_index _ _); discriminate.
Qed.

Lemma range_step_frames (nb nf : nat) :
  nb <> 0 -> range_step (nb * nf) nb = map (fun k => k * nb) (seq 0 nf).
Proof.
  intros Hnb. unfold range_step. f_equal. f_equal.
  symmetry. apply (Nat.div_unique _ _ _ (nb - 1)); lia.
Qed.

Lemma sparsify_fold (nb : nat) (drop : Z) (n a : nat) (ix : list nat) :
  (0 < drop)%Z ->
  fold_left (sparsify_step nb drop) (map (fun k => k * nb) (seq a n))
            (ix, (Z.of_nat a mod drop)%Z)
  = (ix ++ flat_map (fun f => seq (f * nb) nb)
                    (filter (fun f => (Z.of_nat f mod drop =? 0)%Z) (seq a n)),
     (Z.of_nat (a + n) mod drop)%Z).
Proof.
  intros Hd. revert a ix. induction n as [|n IH]; intros a ix; simpl.
  - now rewrite app_nil_r, Nat.add_0_r.
  - replace ((Z.of_nat a mod drop + 1) mod drop)%Z
      with (Z.of_nat (S a) mod drop)%Z
      by (rewrite Z.add_mod_idemp_l by lia; f_equal; lia).
    rewrite IH. replace (S a + n) with (a + S n) by lia.
    destruct (Z.of_nat a mod drop =? 0)%Z; simpl; [|reflexivity].
    now rewrite <- app_assoc.
Qed.

Lemma sparsify_indxs_spec (nb nf : nat) (drop : Z) :
  nb <> 0 -> (0 < drop)%Z ->
  sparsify_indxs (nb * nf) nb drop
  = flat_map (fun f => seq (f * nb) nb) (kept_frames nf drop).
Proof.
  intros Hnb Hd. unfold sparsify_indxs, kept_frames.
  rewrite range_step_frames by assumption.
  change 0%Z with (Z.of_nat 0 mod drop)%Z at 1.
  now rewrite sparsify_fold.
Qed.

Lemma kept_frames_length (nf d : nat) :
  d <> 0 -> length (kept_frames nf (Z.of_nat d)) = (nf + d - 1) / d.
Proof.
  intros Hd. unfold kept_frames. induction nf as [|n IH].
  - simpl. symmetry. apply Nat.div_small. lia.
  - rewrite seq_S, filter_app, length_app, IH. simpl.
    replace (Z.of_nat n mod Z.of_nat d)%Z with (Z.of_nat (n mod d))
      by (rewrite Nat2Z.inj_mod; reflexivity).
    pose proof (Nat.div_mod_eq n d) as E.
    pose proof (Nat.mod_upper_bound n d Hd) as Hr.
    set (q := n / d) in *. set (r := n mod d) in *.
    destruct (Z.eqb_spec (Z.of_nat r) 0) as [Hz|Hz]; simpl.
    + assert (r = 0) by lia.
      replace ((n + d - 1) / d) with q
        by (apply (Nat.div_unique _ _ _ (d - 1)); lia).
      apply (Nat.div_unique _ _ _ 0); lia.
    + assert (r <> 0) by lia.
      replace ((n + d - 1) / d) with (q + 1)
        by (apply (Nat.div_unique _ _ _ (r - 1)); lia).
      apply (Nat.div_unique _ _ _ r); lia.
Qed.

(** C5 (failing input).  Halving the rate of a four-frame track at 30
    frames per second: the indices of frames 0 and 2 are selected, then the
    assignment [self.data = data] raises [AttributeError]; the track keeps
    its four frames and its rate of 30, where two frames at rate 15 were
    due.  A higher rate is refused as described. *)
Theorem sparsify_raises_on_valid_ratio :
  Py.trunc (frameRate track_1x4 / 15) = 2%Z /\
  sparsify_indxs (dataLen track_1x4) (nBones track_1x4) 2 = [0; 2] /\
  sparsify 15 track_1x4 = (Raise AttributeError, track_1x4) /\
  nFrames track_1x4 = 4 /\ (4 + 2 - 1) / 2 = 2 /\
  sparsify 60 track_1x4 = (Raise (RuntimeError FrameRateTooHigh), track_1x4).
Proof.
  repeat split; vm_compute; reflexivity.
Qed.

(** ** bake *)

Lemma set_nth_spec {A} (i : nat) (v : A) (l : list A) :
  i < length l ->
  Py.set_nth i v l = Some (firstn i l ++ v :: skipn (S i) l).
Proof.
  revert i. induction l as [|x l IH]; intros [|i] Hi; simpl in *; try lia.
  - reflexivity.
  - rewrite IH by lia. reflexivity.
Qed.

Lemma set_baked_twice (x y : option (list Mat)) (t : AnimationTrack) :
  set_baked x (set_baked y t) = set_baked x t.
Proof. reflexivity. Qed.

Lemma slice_length_nat {A} (l : list A) (a b : nat) :
  length (Py.slice l (Z.of_nat a) (Z.of_nat b))
  = Nat.min b (length l) - Nat.min a (length l).
Proof.
  unfold Py.slice, Py.slice_bounds, Py.window, Py.norm_index. simpl.
  destruct (Z.ltb_spec (Z.of_nat a) 0); [lia|].
  destruct (Z.ltb_spec (Z.of_nat b) 0); [lia|].
  rewrite length_firstn, length_skipn. lia.
Qed.

Lemma bake_slice_length (t : AnimationTrack) (f : nat) :
  track_ok t -> f < nFrames t -> length (bake_slice t f) = nBones t.
Proof.
  intros (Hn & Hd & Hl & _) Hf. unfold bake_slice.
  rewrite slice_length_nat, Hl, Hd.
  destruct (nBones t) as [|nb]; [simpl; lia|nia].
Qed.

Lemma splice_twice {A} (l xs ys : list A) (i j k : nat) :
  j = i + length xs -> j <= k -> k <= length l ->
  firstn j (firstn i l ++ xs ++ skipn j l) ++ ys
    ++ skipn k (firstn i l ++ xs ++ skipn j l)
  = firstn i l ++ (xs ++ ys) ++ skipn k l.
Proof.
  intros Hj Hjk Hk.
  assert (Hlen : length (firstn i l ++ xs) = j)
    by (rewrite length_app, length_firstn; lia).
  rewrite (app_assoc (firstn i l) xs).
  rewrite firstn_app, Hlen, Nat.sub_diag, firstn_all2 by lia.
  simpl. rewrite app_nil_r.
  rewrite skipn_app, Hlen, skipn_all2 by lia. simpl.
  rewrite skipn_skipn. replace (k - j + j) with k by lia.
  now rewrite <- !app_assoc.
Qed.

Lemma last_cons_default {A} (l : list A) :
  forall x d : A, last (x :: l) d = last l x.
Proof.
  induction l as [|y l IH]; intros x d; [reflexivity|].
  change (last (x :: y :: l) d) with (last (y :: l) d).
  now rewrite (IH y d), (IH y x).
Qed.

Lemma skin_matrices_length {Sk} `{Skeleton Sk} (nb : nat) (s : Sk) :
  length (skin_matrices nb s) = nb.
Proof. unfold skin_matrices. now rewrite length_map, length_seq. Qed.

Section BakeLoops.
Context {Sk : Type} `{SkeletonLaws Sk}.

Lemma bake_bones_run (t t1 : AnimationTrack) (s : Sk) (f n a : nat)
      (bk : list Mat) :
  _data_baked t1 = Some bk ->
  f * nBones t + a + n <= length bk ->
  forM_ (seq a n) (bake_bone t f) (t1, s)
  = (Ok tt,
     (set_baked (Some (firstn (f * nBones t + a) bk
                       ++ map (matPoseVerts s) (seq a n)
                       ++ skipn (f * nBones t + a + n) bk)) t1, s)).
Proof.
  revert a t1 bk. induction n as [|n IH]; intros a t1 bk Hbk Hlen; simpl.
  - unfold ret. rewrite Nat.add_0_r, firstn_skipn.
    destruct t1; simpl in *; subst; reflexivity.
  - unfold bind at 1. unfold bake_bone at 1.
    unfold bind, get, on_track, baked_assign. simpl.
    rewrite Hbk, set_nth_spec by lia.
    set (i := f * nBones t + a) in *.
    assert (Hi : i < length bk) by lia.
    change (firstn i bk ++ matPoseVerts s a :: skipn (S i) bk)
      with (firstn i bk ++ [matPoseVerts s a] ++ skipn (S i) bk).
    set (bk1 := firstn i bk ++ [matPoseVerts s a] ++ skipn (S i) bk).
    assert (Hl1 : length bk1 = length bk).
    { subst bk1. rewrite !length_app, length_firstn, length_skipn.
      cbn [length]. lia. }
    rewrite (IH (S a) (set_baked (Some bk1) t1) bk1 eq_refl)
      by (rewrite Hl1; lia).
    rewrite set_baked_twice. do 3 f_equal.
    replace (f * nBones t + S a) with (S i) by lia.
    subst bk1. rewrite splice_twice by (cbn [length]; lia).
    replace (S i + n) with (i + S n) by lia. reflexivity.
Qed.

Lemma bake_frames_run (t t1 : AnimationTrack) (s : Sk) (n a : nat)
      (bk : list Mat) :
  accepts_full_poses Sk ->
  (forall f, a <= f < a + n -> length (bake_slice t f) = nBones t) ->
  boneCount s = nBones t ->
  _data_baked t1 = Some bk ->
  (a + n) * nBones t <= length bk ->
  let sks := pose_states (map (bake_slice t) (seq a n)) s in
  forM_ (seq a n) (bake_frame t) (t1, s)
  = (Ok tt,
     (set_baked (Some (firstn (a * nBones t) bk
                       ++ flat_map (skin_matrices (nBones t)) sks
                       ++ skipn ((a + n) * nBones t) bk)) t1,
      last sks s)) /\
  boneCount (last sks s) = nBones t.
Proof.
  intros Hacc. revert a t1 s bk.
  induction n as [|n IH]; intros a t1 s bk Hsl Hcnt Hbk Hlen sks.
  - subst sks. simpl. unfold ret. rewrite Nat.add_0_r, firstn_skipn.
    split; [|assumption]. destruct t1; simpl in *; subst; reflexivity.
  - subst sks. cbn [seq map pose_states flat_map forM_].
    rewrite last_cons_default.
    pose proof (Hacc (bake_slice t a) s) as Hset.
    rewrite Hsl, Hcnt in Hset by lia. specialize (Hset eq_refl).
    destruct (setPose (bake_slice t a) s) as [r s1] eqn:Es.
    cbn [fst snd] in *. subst r.
    assert (Hc1 : boneCount s1 = nBones t).
    { rewrite (setPose_boneCount _ _ _ _ Es). exact Hcnt. }
    unfold bind at 1. unfold bake_frame at 1. unfold bind at 1.
    unfold on_skel at 1. cbn [fst snd]. rewrite Es.
    rewrite (bake_bones_run t t1 s1 a (nBones t) 0 bk Hbk) by nia.
    fold (skin_matrices (nBones t) s1).
    rewrite !Nat.add_0_r.
    set (i := a * nBones t).
    set (j := i + nBones t).
    set (xs := skin_matrices (nBones t) s1).
    assert (Hxs : length xs = nBones t)
      by (subst xs; unfold skin_matrices; now rewrite length_map, length_seq).
    set (bk1 := firstn i bk ++ xs ++ skipn j bk).
    assert (Hl1 : length bk1 = length bk).
    { subst bk1 i j. rewrite !length_app, length_firstn, length_skipn. nia. }
    destruct (IH (S a) (set_baked (Some bk1) t1) s1 bk1) as [Hrun Hcount].
    + intros f Hf. apply Hsl. lia.
    + exact Hc1.
    + reflexivity.
    + rewrite Hl1. nia.
    + cbv zeta in Hrun. subst bk1. rewrite Hrun. split; [|exact Hcount].
      rewrite set_baked_twice. do 4 f_equal.
      replace (S a * nBones t) with j by (subst j i; lia).
      rewrite splice_twice by (subst i j; nia).
      replace ((S a + n) * nBones t) with ((a + S n) * nBones t) by nia.
      now rewrite <- !app_assoc.
Qed.

Lemma bake_frame_step (t t1 : AnimationTrack) (s : Sk) (n a : nat)
      (bk : list Mat) :
  _data_baked t1 = Some bk ->
  a * nBones t + nBones t <= length bk ->
  forM_ (seq a (S n)) (bake_frame t) (t1, s)
  = match setPose (bake_slice t a) s with
    | (Ok _, s1) =>
        forM_ (seq (S a) n) (bake_frame t)
              (set_baked (Some (firstn (a * nBones t) bk
                                ++ skin_matrices (nBones t) s1
                                ++ skipn (a * nBones t + nBones t) bk)) t1,
               s1)
    | (Raise e, s1) => (Raise e, (t1, s1))
    end.
Proof.
  intros Hbk Hlen.
  cbn [seq forM_]. unfold bind at 1. unfold bake_frame at 1.
  unfold bind at 1. unfold on_skel at 1. cbn [fst snd].
  destruct (setPose (bake_slice t a) s) as [[[]|e] s1]; [|reflexivity].
  rewrite (bake_bones_run t t1 s1 a (nBones t) 0 bk Hbk) by lia.
  now rewrite !Nat.add_0_r.
Qed.

(** Without any assumption on the skeleton: the frame loop ends normally
    or with an exception that came out of [setPose]. *)
Lemma bake_frames_outcome (t t1 : AnimationTrack) (s : Sk) (n a : nat)
      (bk : list Mat) :
  _data_baked t1 = Some bk ->
  (a + n) * nBones t <= length bk ->
  fst (forM_ (seq a n) (bake_frame t) (t1, s)) = Ok tt \/
  exists e, fst (forM_ (seq a n) (bake_frame t) (t1, s)) = Raise e /\
            raised_by_setPose Sk e.
Proof.
  revert a t1 s bk. induction n as [|n IH]; intros a t1 s bk Hbk Hlen.
  - left. reflexivity.
  - rewrite (bake_frame_step t t1 s n a bk Hbk) by nia.
    destruct (setPose (bake_slice t a) s) as [[[]|e] s1] eqn:Es.
    + set (bk1 := firstn (a * nBones t) bk ++ skin_matrices (nBones t) s1
                  ++ skipn (a * nBones t + nBones t) bk).
      apply (IH (S a) (set_baked (Some bk1) t1) s1 bk1 eq_refl).
      subst bk1.
      rewrite !length_app, length_firstn, skin_matrices_length, length_skipn.
      nia.
    + right. exists e. split; [reflexivity|].
      exists (bake_slice t a), s. now rewrite Es.
Qed.

End BakeLoops.

Lemma pose_states_length {Sk} `{Skeleton Sk} (poses : list (list Mat)) (s : Sk) :
  length (pose_states poses s) = length poses.
Proof.
  revert s. induction poses as [|p poses IH]; intros s; simpl; [reflexivity|].
  now rewrite IH.
Qed.

Lemma flat_skin_length {Sk} `{Skeleton Sk} (nb : nat) (sks : list Sk) :
  length (flat_map (skin_matrices nb) sks) = length sks * nb.
Proof.
  induction sks as [|s sks IH]; simpl; [reflexivity|].
  now rewrite length_app, skin_matrices_length, IH.
Qed.

Lemma flat_skin_nth {Sk} `{Skeleton Sk} (nb : nat) (sks : list Sk) (d : Sk)
      (f b : nat) :
  f < length sks -> b < nb ->
  nth_error (flat_map (skin_matrices nb) sks) (f * nb + b)
  = Some (matPoseVerts (nth f sks d) b).
Proof.
  revert f. induction sks as [|s sks IH]; intros f Hf Hb; simpl in Hf; [lia|].
  simpl flat_map. destruct f as [|f].
  - simpl. rewrite nth_error_app1 by (rewrite skin_matrices_length; lia).
    unfold skin_matrices. rewrite nth_error_map, nth_error_nth' with (d := 0)
      by (rewrite length_seq; lia).
    rewrite seq_nth by lia. reflexivity.
  - rewrite nth_error_app2 by (rewrite skin_matrices_length; simpl; lia).
    rewrite skin_matrices_length.
    replace (S f * nb + b - nb) with (f * nb + b) by (simpl; lia).
    simpl nth. apply IH; lia.
Qed.

Lemma bake_mismatch {Sk} `{Skeleton Sk} (t : AnimationTrack) (sk : Sk) :
  boneCount sk <> nBones t ->
  bake (t, sk) = (Raise (RuntimeError BoneCountMismatch), (t, sk)).
Proof.
  intros Hne. unfold bake, bind, get, raise. simpl.
  destruct (Nat.eqb_spec (boneCount sk) (nBones t)); [contradiction|].
  reflexivity.
Qed.

Lemma bake_run {Sk} `{SkeletonLaws Sk} (t : AnimationTrack) (sk : Sk) :
  track_ok t -> accepts_full_poses Sk -> boneCount sk = nBones t ->
  let sks := pose_states (map (bake_slice t) (seq 0 (nFrames t))) sk in
  exists sk',
    bake (t, sk)
    = (Ok tt,
       (set_baked (Some (flat_map (skin_matrices (nBones t)) sks)) t, sk')) /\
    getPose sk' = getPose sk.
Proof.
  intros Hok Hacc Hcnt sks.
  pose proof Hok as (Hn & Hd & Hl & _).
  unfold bake. unfold bind at 1. unfold get at 1. cbn [fst snd].
  destruct (Nat.eqb_spec (boneCount sk) (nBones t)) as [_|]; [|contradiction].
  cbn [negb]. unfold bind at 1. unfold on_track at 1, modify at 1. cbn [fst snd].
  set (bk := repeat mat_zero (dataLen t)).
  assert (Hbk : length bk = dataLen t) by (subst bk; apply repeat_length).
  destruct (bake_frames_run t (set_baked (Some bk) t) sk (nFrames t) 0 bk Hacc)
    as [Hrun Hlast].
  - intros f Hf. apply bake_slice_length; [assumption|lia].
  - assumption.
  - reflexivity.
  - rewrite Hbk, Hd. simpl. lia.
  - cbv zeta in Hrun. fold sks in Hrun, Hlast.
    unfold bind at 1. rewrite Hrun.
    rewrite set_baked_twice. simpl firstn. rewrite app_nil_l.
    rewrite skipn_all2 by (rewrite Hbk, Hd; simpl; lia).
    rewrite app_nil_r.
    unfold on_skel. cbn [fst snd].
    pose proof (Hacc (getPose sk) (last sks sk)) as Hset.
    rewrite getPose_length, Hlast, Hcnt in Hset. specialize (Hset eq_refl).
    destruct (setPose (getPose sk) (last sks sk)) as [r sk'] eqn:Es.
    cbn [fst] in Hset. subst r.
    exists sk'. split; [reflexivity|].
    apply (setPose_getPose _ _ _ Es).
Qed.

(** The constructor establishes the invariant. *)
Lemma init_track_ok nm poseData nframes framerate t :
  init nm poseData nframes framerate = Ok t -> track_ok t.
Proof.
  unfold init. destruct (Nat.eqb_spec nframes 0) as [|Hn]; [discriminate|].
  destruct (Nat.eqb_spec (length poseData / nframes * nframes)
                         (length poseData)) as [E|]; [|discriminate].
  simpl. intros [= <-]. unfold track_ok. simpl.
  repeat split; auto. discriminate.
Qed.

(** C1 (amended).  When the bone counts agree and the skeleton accepts
    every full pose, [bake] returns; the baked buffer then holds, at index
    [f*nBones + b], the skin matrix bone [b] showed after the pose of frame
    [f] had been set, the primary buffer is untouched, and the skeleton is
    back in the pose it had before the call. *)
Theorem bake_stores_skin_matrices_and_restores_pose
        {Sk} `{SkeletonLaws Sk} (t : AnimationTrack) (sk : Sk) :
  track_ok t -> accepts_full_poses Sk -> boneCount sk = nBones t ->
  let sks := pose_states (map (bake_slice t) (seq 0 (nFrames t))) sk in
  exists t' sk' baked,
    bake (t, sk) = (Ok tt, (t', sk')) /\
    _data_baked t' = Some baked /\
    length baked = dataLen t /\
    (forall f b, f < nFrames t -> b < nBones t ->
       nth_error baked (f * nBones t + b)
       = Some (matPoseVerts (nth f sks sk) b)) /\
    _data t' = _data t /\
    getPose sk' = getPose sk.
Proof.
  intros Hok Hacc Hcnt sks.
  destruct (bake_run t sk Hok Hacc Hcnt) as (sk' & Hrun & Hpose).
  fold sks in Hrun.
  assert (Hlen : length sks = nFrames t).
  { subst sks. now rewrite pose_states_length, length_map, length_seq. }
  eexists _, sk', _. split; [exact Hrun|].
  split; [reflexivity|].
  destruct Hok as (_ & Hd & _).
  split; [rewrite flat_skin_length, Hlen, Hd; lia|].
  split; [|split; [reflexivity|exact Hpose]].
  intros f b Hf Hb. apply flat_skin_nth; lia.
Qed.

Lemma bake_outcome {Sk} `{SkeletonLaws Sk} (t : AnimationTrack) (sk : Sk) :
  track_ok t -> boneCount sk = nBones t ->
  forall e, fst (bake (t, sk)) = Raise e -> raised_by_setPose Sk e.
Proof.
  intros (Hn & Hd & Hl & _) Hcnt e.
  unfold bake. unfold bind at 1. unfold get at 1. cbn [fst snd].
  destruct (Nat.eqb_spec (boneCount sk) (nBones t)) as [_|]; [|contradiction].
  cbn [negb]. unfold bind at 1. unfold on_track at 1, modify at 1. cbn [fst snd].
  set (bk := repeat mat_zero (dataLen t)).
  destruct (bake_frames_outcome t (set_baked (Some bk) t) sk (nFrames t) 0 bk
                                eq_refl) as [Hok|(e' & He' & Hby)].
  - subst bk. rewrite repeat_length, Hd. simpl. lia.
  - unfold bind at 1.
    destruct (forM_ (seq 0 (nFrames t)) (bake_frame t)
                    (set_baked (Some bk) t, sk)) as [[[]|e0] [t' sk']];
      [|discriminate].
    unfold on_skel. cbn [fst snd].
    destruct (setPose (getPose sk) sk') as [r sk''] eqn:Es. cbn [fst].
    intros ->. exists (getPose sk), sk'. now rewrite Es.
  - unfold bind at 1.
    destruct (forM_ (seq 0 (nFrames t)) (bake_frame t)
                    (set_baked (Some bk) t, sk)) as [[[]|e0] st];
      [discriminate|].
    cbn [fst] in *. injection He' as ->. intros [= <-]. exact Hby.
Qed.

(** C7 (amended).  On a track as the constructor builds it, [bake] raises its
    bone-count [RuntimeError] exactly when the bone counts differ, and does
    so before anything is written: the track (both buffers, [nFrames],
    [frameRate]) and the skeleton are the ones the call started with.
    With equal bone counts no exception originates in [bake]: whatever it
    ends with came out of the skeleton's [setPose]; for a skeleton that
    accepts every full pose, [bake] raises if and only if the bone counts
    differ. *)
Theorem bake_raises_iff_bone_count_differs
        {Sk} `{SkeletonLaws Sk} (t : AnimationTrack) (sk : Sk) :
  track_ok t ->
  (boneCount sk <> nBones t ->
     bake (t, sk) = (Raise (RuntimeError BoneCountMismatch), (t, sk))) /\
  (boneCount sk = nBones t ->
     forall e, fst (bake (t, sk)) = Raise e -> raised_by_setPose Sk e) /\
  (accepts_full_poses Sk ->
     (fst (bake (t, sk)) <> Ok tt <-> boneCount sk <> nBones t)).
Proof.
  intros Hok. split; [apply bake_mismatch|].
  split; [now apply bake_outcome|].
  intros Hacc. split.
  - intros Hraise Hcnt.
    destruct (bake_run t sk Hok Hacc Hcnt) as (sk' & Hrun & _).
    rewrite Hrun in Hraise. now apply Hraise.
  - intros Hne. rewrite (bake_mismatch t sk Hne). discriminate.
Qed.

#[export] Instance ListSkeleton_laws : SkeletonLaws ListSkeleton.
Proof.
  split.
  - reflexivity.
  - intros p s s'. simpl.
    destruct (length p =? length (ls_pose s)); intros [= <-]. reflexivity.
  - intros p s r s'. simpl.
    destruct (Nat.eqb_spec (length p) (length (ls_pose s))) as [E|_];
      intros [= _ <-]; simpl; congruence.
Qed.

#[export] Instance CheckedSkeleton_laws : SkeletonLaws CheckedSkeleton.
Proof.
  split.
  - reflexivity.
  - intros p s s'. simpl. destruct (existsb degenerate p); [discriminate|].
    destruct (length p =? length (cs_pose s)); intros [= <-]. reflexivity.
  - intros p s r s'. simpl.
    destruct (existsb degenerate p); [intros [= _ <-]; reflexivity|].
    destruct (Nat.eqb_spec (length p) (length (cs_pose s))) as [E|_];
      intros [= _ <-]; simpl; congruence.
Qed.

Lemma ListSkeleton_accepts : accepts_full_poses ListSkeleton.
Proof.
  intros p s Hlen. simpl in *. rewrite Hlen, Nat.eqb_refl. reflexivity.
Qed.

Lemma track_2x2_ok : track_ok track_2x2.
Proof.
  repeat split; try reflexivity; try discriminate.
Qed.

Lemma bake_stores_skin_matrices_and_restores_pose_witness :
  let t := track_2x2 in
  let sk := rest_skeleton_2 in
  let sks := pose_states (map (bake_slice t) (seq 0 (nFrames t))) sk in
  exists t' sk' baked,
    bake (t, sk) = (Ok tt, (t', sk')) /\
    _data_baked t' = Some baked /\
    length baked = dataLen t /\
    (forall f b, f < nFrames t -> b < nBones t ->
       nth_error baked (f * nBones t + b)
       = Some (matPoseVerts (nth f sks sk) b)) /\
    _data t' = _data t /\
    getPose sk' = getPose sk.
Proof.
  apply (bake_stores_skin_matrices_and_restores_pose track_2x2 rest_skeleton_2).
  - exact track_2x2_ok.
  - exact ListSkeleton_accepts.
  - reflexivity.
Defined.

Lemma bake_raises_iff_bone_count_differs_witness :
  ((boneCount rest_skeleton_2 <> nBones track_1x2 ->
      bake (track_1x2, rest_skeleton_2)
      = (Raise (RuntimeError BoneCountMismatch), (track_1x2, rest_skeleton_2)))
   /\
   (boneCount rest_skeleton_2 = nBones track_1x2 ->
      forall e, fst (bake (track_1x2, rest_skeleton_2)) = Raise e ->
                raised_by_setPose ListSkeleton e) /\
   (accepts_full_poses ListSkeleton ->
      (fst (bake (track_1x2, rest_skeleton_2)) <> Ok tt
       <-> boneCount rest_skeleton_2 <> nBones track_1x2)))
  /\
  ((boneCount rest_skeleton_2 <> nBones track_2x2 ->
      bake (track_2x2, rest_skeleton_2)
      = (Raise (RuntimeError BoneCountMismatch), (track_2x2, rest_skeleton_2)))
   /\
   (boneCount rest_skeleton_2 = nBones track_2x2 ->
      forall e, fst (bake (track_2x2, rest_skeleton_2)) = Raise e ->
                raised_by_setPose ListSkeleton e) /\
   (accepts_full_poses ListSkeleton ->
      (fst (bake (track_2x2, rest_skeleton_2)) <> Ok tt
       <-> boneCount rest_skeleton_2 <> nBones track_2x2))).
Proof.
  split.
  - apply (bake_raises_iff_bone_count_differs track_1x2 rest_skeleton_2).
    repeat split; try reflexivity; discriminate.
  - apply (bake_raises_iff_bone_count_differs track_2x2 rest_skeleton_2).
    repeat split; try reflexivity; discriminate.
Defined.

(** C7 (counterexample).  A track as the constructor builds it and a
    skeleton with the same number of bones: [bake] raises although the bone
    counts agree, because the skeleton's [setPose] refuses the second
    frame.  The exception is the one of [setPose], not the bone-count
    error, and the track is not as before the call: it has a baked buffer,
    with the first frame written. *)
Lemma bake_raises_with_equal_bone_counts :
  init "bad" [diag 1; mat_zero] 2 1 = Ok track_bad_frame /\
  track_ok track_bad_frame /\
  boneCount rest_checked_1 = nBones track_bad_frame /\
  fst (bake (track_bad_frame, rest_checked_1)) = Raise (ForeignError 0) /\
  _data_baked track_bad_frame = None /\
  _data_baked (fst (snd (bake (track_bad_frame, rest_checked_1))))
  = Some [diag 1; mat_zero].
Proof.
  split; [vm_compute; reflexivity|].
  split; [repeat split; try reflexivity; discriminate|].
  repeat split; vm_compute; reflexivity.
Qed.

(** C1 (counterexample).  One bone, two frames, the second of which the
    skeleton refuses: [bake] sets frame 0, raises in [setPose] for frame 1,
    and the skeleton keeps the pose of frame 0 instead of the rest pose it
    had before the call. *)
Lemma bake_error_leaves_pose_changed :
  boneCount rest_checked_1 = nBones track_bad_frame /\
  fst (bake (track_bad_frame, rest_checked_1)) = Raise (ForeignError 0) /\
  getPose rest_checked_1 = [mat_identity] /\
  getPose (snd (snd (bake (track_bad_frame, rest_checked_1)))) = [diag 1] /\
  getPose (snd (snd (bake (track_bad_frame, rest_checked_1))))
    <> getPose rest_checked_1.
Proof.
  repeat split; try (vm_compute; reflexivity).
  vm_compute. discriminate.
Qed.

(** The pose [bake] sets for frame 1 of a two-bone track starts at index 1
    of the primary buffer, one matrix after the start of frame 0, whereas
    frame 1 occupies the indices 2 and 3; the baked buffer shows it. *)
Lemma bake_second_frame_slice :
  bake_slice track_2x2 1 = [diag 2; diag 3] /\
  frame_slice track_2x2 1 = [diag 3; diag 4] /\
  _data_baked (fst (snd (bake (track_2x2, rest_skeleton_2))))
  = Some [diag 1; diag 2; diag 2; diag 3].
Proof.
  repeat split; vm_compute; reflexivity.
Qed.

(** ** The pose state *)

Lemma zero_translation_column (m : Mat) :
  translation (zero_translation m) = [0%Q; 0%Q; 0%Q].
Proof. reflexivity. Qed.

Lemma getFrameIndexAtTime_returns (t : AnimationTrack) (time : Q) :
  nFrames t <> 0 ->
  exists frameIdx fraction,
    getFrameIndexAtTime t time = Ok (frameIdx, fraction) /\
    (loop t = true -> (0 <= frameIdx < Z.of_nat (nFrames t))%Z).
Proof.
  intros Hn. unfold getFrameIndexAtTime.
  destruct (Py.modf (frameRate t * time)) as [fraction frameIdx].
  destruct (loop t).
  - destruct (Nat.eqb_spec (nFrames t) 0); [contradiction|].
    eexists _, _. split; [reflexivity|]. intros _.
    apply Z.mod_pos_bound. lia.
  - destruct (_ <=? _)%Z; eexists _, _; (split; [reflexivity|discriminate]).
Qed.

Lemma getAtTime_discrete (t : AnimationTrack) (time : Q) :
  interpolationType t = 0%Z -> nFrames t <> 0 ->
  exists a, getAtTime t time = Ok (Some a).
Proof.
  intros Hi Hn. unfold getAtTime.
  destruct (getFrameIndexAtTime_returns t time Hn) as (fi & fr & -> & _).
  rewrite Hi. change (0 =? 0)%Z with true. rewrite orb_true_r.
  eexists; reflexivity.
Qed.

Lemma slice_length_Z {A} (l : list A) (a b : Z) :
  (0 <= a <= b)%Z -> (b <= Z.of_nat (length l))%Z ->
  length (Py.slice l a b) = Z.to_nat (b - a).
Proof.
  intros Hab Hb.
  rewrite <- (Z2Nat.id a), <- (Z2Nat.id b) at 1 by lia.
  rewrite slice_length_nat. lia.
Qed.

Lemma data_length (t : AnimationTrack) :
  track_ok t -> length (data t) = nBones t * nFrames t.
Proof.
  intros (_ & Hd & Hl & Hb). unfold data, data_id, isBaked, buffer.
  destruct (_data_baked t) as [b|] eqn:E; [rewrite (Hb b eq_refl)|rewrite Hl];
    exact Hd.
Qed.

Lemma frame_window_length (t : AnimationTrack) (f : Z) :
  track_ok t -> (0 <= f < Z.of_nat (nFrames t))%Z ->
  length (Py.slice (data t) (f * Z.of_nat (nBones t))
                   (f * Z.of_nat (nBones t) + Z.of_nat (nBones t)))
  = nBones t.
Proof.
  intros Hok Hf. rewrite slice_length_Z.
  - lia.
  - nia.
  - rewrite (data_length t Hok). nia.
Qed.

Lemma getAtTime_linear_loop (t : AnimationTrack) (time : Q) :
  track_ok t -> loop t = true -> interpolationType t = 1%Z ->
  exists a, getAtTime t time = Ok (Some a).
Proof.
  intros Hok Hloop Hi. pose proof Hok as (Hn & _).
  unfold getAtTime.
  destruct (getFrameIndexAtTime_returns t time Hn) as (fi & fr & -> & Hfi).
  specialize (Hfi Hloop). rewrite Hi.
  destruct (Qeq_bool fr 0 || (1 =? 0)%Z); [eexists; reflexivity|].
  change (1 =? 1)%Z with true. cbv iota.
  destruct (Nat.eqb_spec (nFrames t) 0); [contradiction|].
  unfold array_add. rewrite !length_map.
  rewrite !frame_window_length
    by (try assumption; try apply Z.mod_pos_bound; lia).
  rewrite Nat.eqb_refl. eexists; reflexivity.
Qed.

(** C8 (amended).  With [animateInPlace] on and an active track, a call of
    [getPoseState] leaves the mesh and its track, buffers included, as they
    were.  Whenever [getAtTime] yields an array at the play time, the result
    is a fresh array holding those matrices with the translation column
    zeroed; [getAtTime] does yield one for a track without interpolation,
    and for a looping track with linear interpolation.  When [getAtTime]
    yields [None], [getPoseState] raises [AttributeError]. *)
Theorem getPoseState_in_place (am : AnimatedMesh) (t : AnimationTrack) :
  currentAnim am = Some t -> inPlace am = true ->
  snd (getPoseState am) = am /\
  (forall a, getAtTime t (playTime am) = Ok (Some a) ->
     fst (getPoseState am)
     = Ok (Some (Owned (map zero_translation (contents t a)))) /\
     Forall (fun m => translation m = [0%Q; 0%Q; 0%Q])
            (map zero_translation (contents t a))) /\
  (getAtTime t (playTime am) = Ok None ->
     fst (getPoseState am) = Raise AttributeError) /\
  (interpolationType t = 0%Z -> nFrames t <> 0 ->
     exists a, getAtTime t (playTime am) = Ok (Some a)) /\
  (interpolationType t = 1%Z -> loop t = true -> track_ok t ->
     exists a, getAtTime t (playTime am) = Ok (Some a)).
Proof.
  intros Hcur Hin.
  assert (Hsame : set_currentAnim (Some t) am = am)
    by (destruct am; simpl in *; now subst).
  unfold getPoseState, bind, get, liftE, raise, put, ret.
  rewrite Hcur, Hin.
  destruct (getAtTime t (playTime am)) as [[a|]|e] eqn:Eg; simpl.
  - rewrite Hsame. split; [reflexivity|].
    split; [|split; [discriminate|split]].
    + intros a' [= <-]. split; [reflexivity|].
      apply Forall_forall. intros m Hm. apply in_map_iff in Hm.
      destruct Hm as (m0 & <- & _). apply zero_translation_column.
    + intros _ _. eexists; reflexivity.
    + intros _ _ _. eexists; reflexivity.
  - split; [reflexivity|]. split; [discriminate|]. split; [reflexivity|].
    split.
    + intros Hi Hn. destruct (getAtTime_discrete t (playTime am) Hi Hn) as [a Ha].
      congruence.
    + intros Hi Hl Hok.
      destruct (getAtTime_linear_loop t (playTime am) Hok Hl Hi) as [a Ha].
      congruence.
  - split; [reflexivity|]. split; [discriminate|]. split; [discriminate|].
    split.
    + intros Hi Hn. destruct (getAtTime_discrete t (playTime am) Hi Hn) as [a Ha].
      congruence.
    + intros Hi Hl Hok.
      destruct (getAtTime_linear_loop t (playTime am) Hok Hl Hi) as [a Ha].
      congruence.
Qed.

Lemma getPoseState_in_place_witness :
  snd (getPoseState mesh_walk) = mesh_walk /\
  (forall a, getAtTime track_1x2 (playTime mesh_walk) = Ok (Some a) ->
     fst (getPoseState mesh_walk)
     = Ok (Some (Owned (map zero_translation (contents track_1x2 a)))) /\
     Forall (fun m => translation m = [0%Q; 0%Q; 0%Q])
            (map zero_translation (contents track_1x2 a))) /\
  (getAtTime track_1x2 (playTime mesh_walk) = Ok None ->
     fst (getPoseState mesh_walk) = Raise AttributeError) /\
  (interpolationType track_1x2 = 0%Z -> nFrames track_1x2 <> 0 ->
     exists a, getAtTime track_1x2 (playTime mesh_walk) = Ok (Some a)) /\
  (interpolationType track_1x2 = 1%Z -> loop track_1x2 = true ->
     track_ok track_1x2 ->
     exists a, getAtTime track_1x2 (playTime mesh_walk) = Ok (Some a)).
Proof.
  apply (getPoseState_in_place mesh_walk track_1x2); reflexivity.
Defined.

(** C8 (counterexample).  A track set to logarithmic interpolation, played
    in place half a second in: [getAtTime] falls through to [None] and
    [getPoseState] raises on [None.copy()] instead of returning matrices. *)
Lemma getPoseState_log_interpolation_raises :
  currentAnim mesh_log = Some track_log /\
  inPlace mesh_log = true /\
  getAtTime track_log (playTime mesh_log) = Ok None /\
  fst (getPoseState mesh_log) = Raise AttributeError.
Proof.
  repeat split; vm_compute; reflexivity.
Qed.

(** Without the copy the zeroing reaches the buffer of the track. *)
Lemma getPoseState_without_copy_writes_track :
  fst (getPoseState mesh_walk)
    = Ok (Some (Owned [zero_translation (diag 1)])) /\
  snd (getPoseState mesh_walk) = mesh_walk /\
  option_map _data (currentAnim (snd (getPoseState_without_copy mesh_walk)))
    = Some [zero_translation (diag 1); diag 2].
Proof.
  repeat split; vm_compute; reflexivity.
Qed.

(** ** Weight compilation: the inferred vertex count *)

Lemma foldE_cons {A B} (f : A -> B -> exc A) (x : B) (l : list B) (a : A) :
  foldE f (x :: l) a
  = match f a x with Raise e => Raise e | Ok a' => foldE f l a' end.
Proof. reflexivity. Qed.

Lemma mapE_cons {A B} (f : A -> exc B) (x : A) (l : list A) :
  mapE f (x :: l)
  = match f x with
    | Raise e => Raise e
    | Ok y => match mapE f l with Raise e => Raise e | Ok r => Ok (y :: r) end
    end.
Proof. reflexivity. Qed.

Lemma fold_max_list_max (verts : list nat) (x : nat) :
  fold_left Nat.max verts x = list_max (x :: verts).
Proof.
  revert x. induction verts as [|y verts IH]; intros x; simpl.
  - lia.
  - rewrite IH. simpl. lia.
Qed.

Lemma foldE_infer_max (m : raw_mapping) (acc : nat) :
  Forall (fun item => fst (snd item) <> []) m ->
  foldE infer_step m acc = Ok (Nat.max acc (list_max (vertex_indices m))).
Proof.
  revert acc. induction m as [|[bname [verts weights]] m IH];
    intros acc Hne.
  - simpl. now rewrite Nat.max_0_r.
  - inversion Hne as [|? ? Hv Hrest]; subst. simpl in Hv.
    rewrite foldE_cons. unfold infer_step. cbn [fst snd].
    destruct verts as [|x verts]; [contradiction|]. cbn [Py.max_list].
    rewrite IH by assumption. f_equal.
    unfold vertex_indices. cbn [flat_map fst snd]. rewrite list_max_app.
    rewrite fold_max_list_max. lia.
Qed.

(** The inferred count is the largest vertex index plus one when that index
    is positive, and 0 when it is 0. *)
Lemma infer_vertexCount_spec (m : raw_mapping) :
  Forall (fun item => fst (snd item) <> []) m ->
  let mx := list_max (vertex_indices m) in
  infer_vertexCount m = Ok (if mx =? 0 then 0 else mx + 1).
Proof.
  intros Hne mx. unfold infer_vertexCount.
  rewrite foldE_infer_max by assumption. simpl Nat.max. fold mx.
  destruct (Nat.eqb_spec mx 0) as [->|]; reflexivity.
Qed.

(** ** Weight compilation: accumulation *)

Lemma ws_get_set (ws : ws_dict) (k v : nat) (l : list (Q * nat)) :
  ws_get (ws_set ws k l) v = if k =? v then Some l else ws_get ws v.
Proof.
  induction ws as [|[k0 l0] ws IH]; simpl.
  - destruct (k =? v); reflexivity.
  - destruct (Nat.eqb_spec k0 k) as [->|Hk]; simpl.
    + destruct (k =? v); reflexivity.
    + destruct (Nat.eqb_spec k0 v) as [->|Hv].
      * destruct (Nat.eqb_spec k v); [congruence|reflexivity].
      * exact IH.
Qed.

Lemma ws_set_keys (ws : ws_dict) (k : nat) (l : list (Q * nat)) :
  map fst (ws_set ws k l)
  = if existsb (Nat.eqb k) (map fst ws) then map fst ws
    else map fst ws ++ [k].
Proof.
  induction ws as [|[k0 l0] ws IH]; simpl; [reflexivity|].
  rewrite (Nat.eqb_sym k k0).
  destruct (Nat.eqb_spec k0 k) as [->|Hk]; simpl; [reflexivity|].
  rewrite IH. destruct (existsb _ _); reflexivity.
Qed.

Lemma ws_set_NoDup (ws : ws_dict) (k : nat) (l : list (Q * nat)) :
  NoDup (map fst ws) -> NoDup (map fst (ws_set ws k l)).
Proof.
  intros Hnd. rewrite ws_set_keys.
  destruct (existsb (Nat.eqb k) (map fst ws)) eqn:E; [assumption|].
  apply NoDup_app; [assumption|constructor; [intros []|constructor]|].
  intros x Hx [Ek|[]]. subst x.
  assert (existsb (Nat.eqb k) (map fst ws) = true); [|congruence].
  apply existsb_exists. exists k. split; [assumption|apply Nat.eqb_refl].
Qed.

Lemma ws_get_in (ws : ws_dict) (k : nat) :
  In k (map fst ws) -> exists l, ws_get ws k = Some l.
Proof.
  induction ws as [|[k0 l0] ws IH]; simpl; [intros []|].
  destruct (Nat.eqb_spec k0 k) as [->|Hk]; [eexists; reflexivity|].
  intros [E|Hin]; [contradiction|]. now apply IH.
Qed.

Lemma ws_get_some_in (ws : ws_dict) (k : nat) (l : list (Q * nat)) :
  ws_get ws k = Some l -> In (k, l) ws.
Proof.
  induction ws as [|[k0 l0] ws IH]; simpl; [discriminate|].
  destruct (Nat.eqb_spec k0 k) as [->|Hk].
  - intros [= ->]. now left.
  - intros Hg. right. now apply IH.
Qed.

Lemma ws_add_get (b : nat) (ws : ws_dict) (vw : nat * Q) (v : nat) :
  ws_get (ws_add b ws vw) v
  = if fst vw =? v then entry_step (ws_get ws v) (snd vw, b)
    else ws_get ws v.
Proof.
  destruct vw as [v' w]. unfold ws_add. rewrite ws_get_set. simpl.
  destruct (Nat.eqb_spec v' v) as [->|]; reflexivity.
Qed.

Lemma fold_ws_add_get (b : nat) (vws : list (nat * Q)) (ws : ws_dict)
      (v : nat) :
  ws_get (fold_left (ws_add b) vws ws) v
  = fold_left entry_step
              (map (fun vw => (snd vw, b))
                   (filter (fun vw => fst vw =? v) vws))
              (ws_get ws v).
Proof.
  revert ws. induction vws as [|vw vws IH]; intros ws; simpl; [reflexivity|].
  rewrite IH, ws_add_get.
  destruct (fst vw =? v); reflexivity.
Qed.

Lemma ws_bone_get (names : list string) (ws : ws_dict)
      (item : string * (list nat * list Q)) (v : nat) :
  ws_get (ws_bone names ws item) v
  = fold_left entry_step (item_contributions names v item) (ws_get ws v).
Proof.
  unfold ws_bone, item_contributions.
  destruct (b_lookup names (fst item)); [apply fold_ws_add_get|reflexivity].
Qed.

Lemma accumulate_from_get (names : list string) (m : raw_mapping)
      (ws : ws_dict) (v : nat) :
  ws_get (fold_left (ws_bone names) m ws) v
  = fold_left entry_step (contributions names m v) (ws_get ws v).
Proof.
  revert ws. induction m as [|item m IH]; intros ws; simpl; [reflexivity|].
  rewrite IH, ws_bone_get. unfold contributions. simpl.
  now rewrite fold_left_app.
Qed.

Lemma entry_step_fold (cs : list (Q * nat)) (l : list (Q * nat))
      (e : Q * nat) :
  fold_left entry_step cs (Some l) = Some (fold_left merge_step cs l).
Proof.
  revert l. induction cs as [|c cs IH]; intros l; simpl; [reflexivity|].
  unfold entry_step at 2. apply IH.
Qed.

(** After the accumulation a vertex has an entry exactly when something was
    assigned to it, and the entry is the merge of what was assigned. *)
Lemma accumulate_get (names : list string) (m : raw_mapping) (v : nat) :
  ws_get (accumulate names m) v
  = match contributions names m v with
    | [] => None
    | cs => Some (merged cs)
    end.
Proof.
  unfold accumulate. rewrite accumulate_from_get. simpl ws_get.
  destruct (contributions names m v) as [|c cs]; [reflexivity|].
  simpl. unfold entry_step at 2. now rewrite (entry_step_fold cs _ c).
Qed.

Lemma ws_add_NoDup (b : nat) (ws : ws_dict) (vw : nat * Q) :
  NoDup (map fst ws) -> NoDup (map fst (ws_add b ws vw)).
Proof. destruct vw. apply ws_set_NoDup. Qed.

Lemma accumulate_NoDup (names : list string) (m : raw_mapping) :
  NoDup (map fst (accumulate names m)).
Proof.
  unfold accumulate.
  assert (G : forall ws, NoDup (map fst ws) ->
                         NoDup (map fst (fold_left (ws_bone names) m ws))).
  { induction m as [|item m IH]; intros ws Hnd; simpl; [assumption|].
    apply IH. unfold ws_bone. destruct (b_lookup names (fst item)); [|assumption].
    revert ws Hnd.
    induction (combine (fst (snd item)) (snd (snd item))) as [|vw vws IHv];
      intros ws Hnd; simpl; [assumption|].
    apply IHv. now apply ws_add_NoDup. }
  apply G. constructor.
Qed.

(** ** Weight compilation: merging *)

Lemma qsum_from (l : list Q) (a : Q) :
  (fold_left Qplus l a == a + qsum l)%Q.
Proof.
  unfold qsum. revert a. induction l as [|x l IH]; intros a; simpl.
  - ring.
  - rewrite IH, (IH (0 + x)%Q). ring.
Qed.

Lemma qsum_cons (x : Q) (l : list Q) : (qsum (x :: l) == x + qsum l)%Q.
Proof.
  unfold qsum at 1. simpl. rewrite qsum_from. ring.
Qed.

Lemma qsum_app (l1 l2 : list Q) : (qsum (l1 ++ l2) == qsum l1 + qsum l2)%Q.
Proof.
  induction l1 as [|x l1 IH]; simpl.
  - unfold qsum at 2. simpl. ring.
  - rewrite !qsum_cons, IH. ring.
Qed.

Lemma qsum_nil : qsum [] = 0%Q.
Proof. reflexivity. Qed.

Lemma qsum_perm (l1 l2 : list Q) :
  Permutation l1 l2 -> (qsum l1 == qsum l2)%Q.
Proof.
  induction 1 as [| x l l' _ IH | x y l | l l' l'' _ IH1 _ IH2].
  - reflexivity.
  - now rewrite !qsum_cons, IH.
  - rewrite !qsum_cons. ring.
  - now rewrite IH1.
Qed.

Lemma qsum_pos (l : list Q) :
  l <> [] -> Forall (fun w => (0 < w)%Q) l -> (0 < qsum l)%Q.
Proof.
  intros Hne Hpos. destruct l as [|x l]; [contradiction|]. clear Hne.
  revert x Hpos. induction l as [|y l IH]; intros x Hpos.
  - inversion Hpos; subst. rewrite qsum_cons, qsum_nil. lra.
  - inversion Hpos as [|? ? Hx Hrest]; subst.
    rewrite qsum_cons. specialize (IH y Hrest). lra.
Qed.

Lemma find_bone_from (l : list (Q * nat)) (b : nat) (n a : nat)
      (acc : option nat) :
  let r := fold_left (fun d_idx idx =>
                        if snd (nth idx l (0%Q, 0)) =? b then Some idx
                        else d_idx) (seq a n) acc in
  (forall d, r = Some d ->
     acc = Some d \/ (a <= d < a + n /\ snd (nth d l (0%Q, 0)) = b)) /\
  (r = None ->
     acc = None /\ forall i, a <= i < a + n -> snd (nth i l (0%Q, 0)) <> b).
Proof.
  revert a acc. induction n as [|n IH]; intros a acc; simpl.
  - split; [intros d Hd; now left|]. intros Hn. split; [assumption|]. lia.
  - destruct (IH (S a) (if snd (nth a l (0%Q, 0)) =? b then Some a else acc))
      as [IH1 IH2].
    split.
    + intros d Hd. destruct (IH1 d Hd) as [Hacc|[Hr Hs]].
      * destruct (Nat.eqb_spec (snd (nth a l (0%Q, 0))) b) as [E|_].
        -- injection Hacc as <-. right. split; [lia|assumption].
        -- now left.
      * right. split; [lia|assumption].
    + intros Hn. destruct (IH2 Hn) as [Hacc Hall].
      destruct (Nat.eqb_spec (snd (nth a l (0%Q, 0))) b) as [E|Hne];
        [discriminate|].
      split; [assumption|]. intros i Hi.
      destruct (Nat.eq_dec i a) as [->|]; [assumption|]. apply Hall. lia.
Qed.

Lemma find_bone_some (l : list (Q * nat)) (b d : nat) :
  find_bone l b = Some d -> d < length l /\ snd (nth d l (0%Q, 0)) = b.
Proof.
  intros Hf. destruct (find_bone_from l b (length l) 0 None) as [H1 _].
  destruct (H1 d Hf) as [|[Hr Hs]]; [discriminate|]. split; [lia|assumption].
Qed.

Lemma find_bone_none (l : list (Q * nat)) (b : nat) :
  find_bone l b = None -> ~ In b (map snd l).
Proof.
  intros Hf Hin. destruct (find_bone_from l b (length l) 0 None) as [_ H2].
  destruct (H2 Hf) as [_ Hall].
  apply in_map_iff in Hin. destruct Hin as (e & He & Hin).
  destruct (In_nth l e (0%Q, 0) Hin) as (i & Hi & Hnth).
  apply (Hall i); [lia|]. now rewrite Hnth.
Qed.

Lemma replace_nth_spec {A} (i : nat) (v : A) (l : list A) :
  i < length l -> replace_nth i v l = firstn i l ++ v :: skipn (S i) l.
Proof.
  revert i. induction l as [|x l IH]; intros [|i] Hi; simpl in *; try lia.
  - reflexivity.
  - now rewrite IH by lia.
Qed.

Lemma nth_split_at {A} (i : nat) (d : A) (l : list A) :
  i < length l -> l = firstn i l ++ nth i l d :: skipn (S i) l.
Proof.
  revert i. induction l as [|x l IH]; intros [|i] Hi; simpl in *; try lia.
  - reflexivity.
  - f_equal. apply IH. lia.
Qed.

(** Adding a weight keeps the bones of an entry distinct, adds the bone if
    it is new, and adds the weight to the total. *)
Lemma add_weight_spec (l : list (Q * nat)) (w : Q) (b : nat) :
  NoDup (map snd l) ->
  NoDup (map snd (add_weight l w b)) /\
  (forall x, In x (map snd (add_weight l w b)) <-> In x (map snd l) \/ x = b) /\
  (qsum (map fst (add_weight l w b)) == qsum (map fst l) + w)%Q /\
  (Forall (fun e => (0 < fst e)%Q) l -> (0 < w)%Q ->
   Forall (fun e => (0 < fst e)%Q) (add_weight l w b)).
Proof.
  intros Hnd. unfold add_weight.
  destruct (find_bone l b) as [d|] eqn:Ef.
  - destruct (find_bone_some l b d Ef) as [Hd Hs].
    rewrite replace_nth_spec by assumption.
    pose proof (nth_split_at d (0%Q, 0) l Hd) as Hl.
    remember (firstn d l) as pre eqn:Epre.
    remember (skipn (S d) l) as post eqn:Epost. clear Epre Epost.
    destruct (nth d l (0%Q, 0)) as [w0 b0] eqn:En. simpl in Hs. subst b0.
    simpl fst.
    assert (Hsnd : map snd (pre ++ ((w0 + w)%Q, b) :: post) = map snd l).
    { rewrite Hl, !map_app. reflexivity. }
    rewrite Hsnd. split; [assumption|]. split; [|split].
    + intros x. split; [tauto|]. intros [Hx | ->]; [assumption|].
      rewrite Hl, map_app. apply in_or_app. right. now left.
    + rewrite Hl, !map_app, !qsum_app. simpl map.
      rewrite !qsum_cons. simpl fst. ring.
    + intros Hpos Hw. rewrite Hl in Hpos.
      apply Forall_app in Hpos. destruct Hpos as [Hpre Hpost].
      inversion Hpost as [|? ? Hw0 Hpost']; subst. simpl in Hw0.
      apply Forall_app. split; [assumption|].
      constructor; [simpl; lra|assumption].
  - pose proof (find_bone_none l b Ef) as Hnin.
    rewrite !map_app. simpl map. split; [|split; [|split]].
    + apply NoDup_app; [assumption|constructor; [intros []|constructor]|].
      intros x Hx [E|[]]. subst x. contradiction.
    + intros x. rewrite in_app_iff. simpl. intuition.
    + rewrite qsum_app, qsum_cons, qsum_nil. ring.
    + intros Hpos Hw. apply Forall_app. split; [assumption|].
      constructor; [assumption|constructor].
Qed.

Lemma merge_from_spec (cs l : list (Q * nat)) :
  NoDup (map snd l) ->
  let r := fold_left merge_step cs l in
  NoDup (map snd r) /\
  (forall x, In x (map snd r) <-> In x (map snd l) \/ In x (map snd cs)) /\
  (qsum (map fst r) == qsum (map fst l) + qsum (map fst cs))%Q /\
  (Forall (fun e => (0 < fst e)%Q) l -> Forall (fun e => (0 < fst e)%Q) cs ->
   Forall (fun e => (0 < fst e)%Q) r).
Proof.
  revert l. induction cs as [|[w b] cs IH]; intros l Hnd; simpl.
  - split; [assumption|]. split; [intros x; tauto|].
    split; [rewrite qsum_nil; ring|]. intros Hl _. assumption.
  - destruct (add_weight_spec l w b Hnd) as (A1 & A2 & A3 & A4).
    destruct (IH (merge_step l (w, b)) A1) as (B1 & B2 & B3 & B4).
    unfold merge_step in *. simpl fst in *. simpl snd in *.
    split; [assumption|]. split; [|split].
    + intros x. rewrite B2, A2. simpl. intuition (subst; auto).
    + rewrite B3, A3, qsum_cons. ring.
    + intros Hl Hcs. inversion Hcs as [|? ? Hw Hrest]; subst.
      apply B4; [|assumption]. apply A4; assumption.
Qed.

(** The merged entry of a vertex: distinct bones, as many as bones assign
    to the vertex, and the total of all weights assigned to it. *)
Lemma merged_spec (cs : list (Q * nat)) :
  NoDup (map snd (merged cs)) /\
  length (merged cs) = length (nodup Nat.eq_dec (map snd cs)) /\
  (qsum (map fst (merged cs)) == qsum (map fst cs))%Q /\
  (Forall (fun e => (0 < fst e)%Q) cs ->
   Forall (fun e => (0 < fst e)%Q) (merged cs)).
Proof.
  destruct (merge_from_spec cs [] (NoDup_nil _)) as (H1 & H2 & H3 & H4).
  fold (merged cs) in *. split; [assumption|]. split; [|split].
  - rewrite <- (length_map snd (merged cs)).
    apply Permutation_length, NoDup_Permutation;
      [assumption|apply NoDup_nodup|].
    intros x. rewrite H2, nodup_In. simpl. tauto.
  - rewrite H3. simpl. rewrite qsum_nil. ring.
  - intros Hcs. apply H4; [constructor|assumption].
Qed.

(** ** Weight compilation: sorting and renormalisation *)

Lemma entry_leb_true (a b : Q * nat) :
  entry_leb a b = true -> (fst a <= fst b)%Q.
Proof.
  unfold entry_leb. destruct (fst a ?= fst b)%Q eqn:E; intros Hb.
  - apply Qeq_alt in E. rewrite E. apply Qle_refl.
  - apply Qlt_alt in E. now apply Qlt_le_weak.
  - discriminate.
Qed.

Lemma entry_leb_false (a b : Q * nat) :
  entry_leb a b = false -> (fst b <= fst a)%Q.
Proof.
  unfold entry_leb. destruct (fst a ?= fst b)%Q eqn:E; intros Hb.
  - apply Qeq_alt in E. rewrite E. apply Qle_refl.
  - discriminate.
  - apply Qgt_alt in E. now apply Qlt_le_weak.
Qed.

Lemma insert_desc_perm (x : Q * nat) (l : list (Q * nat)) :
  Permutation (insert_desc x l) (x :: l).
Proof.
  induction l as [|y l IH]; simpl; [reflexivity|].
  destruct (entry_leb y x); [reflexivity|].
  rewrite IH. apply perm_swap.
Qed.

Lemma sorted_reverse_perm (l : list (Q * nat)) :
  Permutation (sorted_reverse l) l.
Proof.
  induction l as [|x l IH]; simpl; [reflexivity|].
  rewrite insert_desc_perm. now constructor.
Qed.

Lemma insert_desc_sorted (x : Q * nat) (l : list (Q * nat)) :
  entries_desc l -> entries_desc (insert_desc x l).
Proof.
  unfold entries_desc. induction l as [|y l IH]; intros Hs; simpl.
  - constructor; constructor.
  - inversion Hs as [|? ? Hs' Hall]; subst.
    destruct (entry_leb y x) eqn:E.
    + constructor; [assumption|]. constructor.
      * now apply entry_leb_true.
      * eapply Forall_impl; [|exact Hall]. intros z Hz. simpl in Hz.
        apply entry_leb_true in E. eapply Qle_trans; eassumption.
    + constructor; [now apply IH|].
      eapply Permutation_Forall;
        [symmetry; apply insert_desc_perm|].
      constructor; [now apply entry_leb_false|assumption].
Qed.

Lemma sorted_reverse_sorted (l : list (Q * nat)) :
  entries_desc (sorted_reverse l).
Proof.
  induction l as [|x l IH]; simpl; [constructor|].
  now apply insert_desc_sorted.
Qed.

Lemma entries_desc_weights (l : list (Q * nat)) :
  entries_desc l -> descending (map fst l).
Proof.
  unfold entries_desc, descending. induction 1 as [|x l Hs IH Hall]; simpl.
  - constructor.
  - constructor; [assumption|]. apply Forall_map.
    eapply Forall_impl; [|exact Hall]. intros a Ha. exact Ha.
Qed.

Lemma Forall_firstn {A} (P : A -> Prop) (n : nat) (l : list A) :
  Forall P l -> Forall P (firstn n l).
Proof.
  intros H. revert n. induction H as [|x l Hx Hl IH]; intros [|n]; simpl;
    constructor; auto.
Qed.

Lemma descending_firstn (n : nat) (ws : list Q) :
  descending ws -> descending (firstn n ws).
Proof.
  unfold descending. intros Hs. revert n.
  induction Hs as [|x l Hs IH Hall]; intros [|n]; simpl; try constructor.
  - apply IH.
  - apply Forall_firstn. assumption.
Qed.

Lemma descending_scale (k : Q) (ws : list Q) :
  (0 < k)%Q -> descending ws -> descending (map (fun w => w / k)%Q ws).
Proof.
  unfold descending. intros Hk. induction 1 as [|x l Hs IH Hall]; simpl.
  - constructor.
  - constructor; [assumption|]. apply Forall_map.
    eapply Forall_impl; [|exact Hall]. intros y Hy. simpl in *.
    unfold Qdiv. apply Qmult_le_compat_r; [assumption|].
    apply Qlt_le_weak, Qinv_lt_0_compat. assumption.
Qed.

(** Zeros may follow weights that are not negative. *)
Lemma descending_pad (ws : list Q) (n : nat) :
  descending ws -> Forall (fun w => (0 < w)%Q) ws ->
  descending (ws ++ repeat 0%Q n).
Proof.
  unfold descending. intros Hs Hpos.
  induction Hs as [|x l Hs IH Hall]; simpl.
  - induction n as [|n IHn]; simpl; constructor; [assumption|].
    apply Forall_forall. intros y Hy. apply repeat_spec in Hy. subst.
    apply Qle_refl.
  - inversion Hpos as [|? ? Hx Hrest]; subst.
    constructor; [now apply IH|]. apply Forall_app. split; [assumption|].
    apply Forall_forall. intros y Hy. apply repeat_spec in Hy. subst.
    now apply Qlt_le_weak.
Qed.

Lemma qsum_scale (k : Q) (ws : list Q) :
  (qsum (map (fun w => w / k)%Q ws) == qsum ws / k)%Q.
Proof.
  induction ws as [|x ws IH]; simpl.
  - rewrite qsum_nil. unfold Qdiv. ring.
  - rewrite !qsum_cons, IH. unfold Qdiv. ring.
Qed.

Lemma renormalize_weights (l : list (Q * nat)) :
  map fst (renormalize l)
  = map (fun w => w / qsum (map fst l))%Q (map fst l).
Proof.
  unfold renormalize. rewrite !map_map. reflexivity.
Qed.

(** The entry of a vertex after sorting and truncation. *)
Lemma finalize_spec (nWeights : nat) (l : list (Q * nat)) :
  0 < nWeights -> l <> [] -> Forall (fun e => (0 < fst e)%Q) l ->
  let r := finalize nWeights l in
  length r = Nat.min nWeights (length l) /\
  descending (map fst r) /\
  Forall (fun w => (0 < w)%Q) (map fst r) /\
  (nWeights < length l -> (qsum (map fst r) == 1)%Q) /\
  (length l <= nWeights ->
   (qsum (map fst r) == qsum (map fst l))%Q).
Proof.
  intros HK Hne Hpos r. subst r. unfold finalize.
  pose proof (sorted_reverse_perm l) as Hperm.
  pose proof (sorted_reverse_sorted l) as Hsorted.
  assert (Hpos_s : Forall (fun e => (0 < fst e)%Q) (sorted_reverse l))
    by (eapply Permutation_Forall; [symmetry; exact Hperm|assumption]).
  assert (Hlen_s : length (sorted_reverse l) = length l)
    by (now apply Permutation_length).
  destruct (Nat.ltb_spec nWeights (length l)) as [Hlt|Hle].
  - set (kept := firstn nWeights (sorted_reverse l)).
    assert (Hkl : length kept = nWeights)
      by (subst kept; rewrite length_firstn; lia).
    assert (Hkpos : Forall (fun w => (0 < w)%Q) (map fst kept)).
    { apply Forall_map. subst kept. now apply Forall_firstn. }
    assert (Hkne : map fst kept <> []).
    { intros E. apply (f_equal (@length Q)) in E.
      rewrite length_map, Hkl in E. simpl in E. lia. }
    pose proof (qsum_pos _ Hkne Hkpos) as Htot.
    rewrite renormalize_weights.
    split; [unfold renormalize; rewrite length_map; lia|].
    split; [|split; [|split]].
    + apply descending_scale; [assumption|]. subst kept.
      rewrite <- firstn_map. apply descending_firstn.
      now apply entries_desc_weights.
    + apply Forall_map. eapply Forall_impl; [|exact Hkpos].
      intros w Hw. simpl in Hw. unfold Qdiv.
      apply Qmult_lt_0_compat; [assumption|].
      now apply Qinv_lt_0_compat.
    + intros _. rewrite qsum_scale. field. lra.
    + intros Hle. lia.
  - split; [lia|]. split; [|split; [|split]].
    + now apply entries_desc_weights.
    + now apply Forall_map.
    + intros Hlt. lia.
    + intros _. apply qsum_perm. now apply Permutation_map.
Qed.

(** ** Weight compilation: writing the records *)

Lemma replace_nth_length {A} (i : nat) (v : A) (l : list A) :
  length (replace_nth i v l) = length l.
Proof.
  revert i. induction l as [|x l IH]; intros [|i]; simpl; auto.
Qed.

Lemma replace_nth_same {A} (i : nat) (v : A) (l : list A) :
  i < length l -> nth_error (replace_nth i v l) i = Some v.
Proof.
  revert i. induction l as [|x l IH]; intros [|i] Hi; simpl in *; try lia.
  - reflexivity.
  - apply IH. lia.
Qed.

Lemma replace_nth_other {A} (i j : nat) (v : A) (l : list A) :
  i <> j -> nth_error (replace_nth i v l) j = nth_error l j.
Proof.
  revert i j. induction l as [|x l IH]; intros [|i] [|j] Hij; simpl;
    try reflexivity; try lia.
  apply IH. lia.
Qed.

Lemma replace_nth_twice {A} (i : nat) (v w : A) (l : list A) :
  replace_nth i v (replace_nth i w l) = replace_nth i v l.
Proof.
  revert i. induction l as [|x l IH]; intros [|i]; simpl; auto.
  now rewrite IH.
Qed.

Lemma nth_error_length {A} (l : list A) (i : nat) (x : A) :
  nth_error l i = Some x -> i < length l.
Proof. intros E. apply nth_error_Some. congruence. Qed.

Lemma write_fields_from (v : nat) (l : list (Q * nat)) :
  forall (i : nat) (rows : list (list (nat * Q))) (r : list (nat * Q)),
    nth_error rows v = Some r -> i + length l <= length r ->
    foldE (fun rows ie => assign_fields v (fst ie) (fst (snd ie))
                                        (snd (snd ie)) rows)
          (enumerate_from i l) rows
    = Ok (replace_nth v (firstn i r ++ map swap_entry l
                         ++ skipn (i + length l) r) rows).
Proof.
  induction l as [|[w b] l IH]; intros i rows r Hr Hlen; simpl in Hlen.
  - simpl. rewrite Nat.add_0_r, firstn_skipn. f_equal.
    clear Hlen. revert v Hr. induction rows as [|x rows IHr]; intros [|v] Hr;
      simpl in *; try discriminate.
    + now injection Hr as ->.
    + f_equal. now apply IHr.
  - cbn [enumerate_from]. rewrite foldE_cons. cbn [fst snd].
    unfold assign_fields at 1. rewrite Hr, set_nth_spec by lia.
    pose proof (nth_error_length _ _ _ Hr) as Hv.
    change (firstn i r ++ (b, w) :: skipn (S i) r)
      with (firstn i r ++ [(b, w)] ++ skipn (S i) r).
    set (r1 := firstn i r ++ [(b, w)] ++ skipn (S i) r).
    assert (Hl1 : length r1 = length r).
    { subst r1. rewrite !length_app, length_firstn, length_skipn.
      cbn [length]. lia. }
    rewrite (IH (S i) _ r1).
    + rewrite replace_nth_twice. do 2 f_equal. subst r1.
      rewrite splice_twice by (cbn [length]; lia).
      cbn [map length]. replace (S i + length l) with (i + S (length l)) by lia.
      reflexivity.
    + now apply replace_nth_same.
    + rewrite Hl1. lia.
Qed.

Lemma write_vertex_ok (v : nat) (l : list (Q * nat))
      (rows : list (list (nat * Q))) (r : list (nat * Q)) :
  nth_error rows v = Some r -> length l <= length r ->
  write_vertex rows (v, l)
  = Ok (replace_nth v (map swap_entry l ++ skipn (length l) r) rows).
Proof.
  intros Hr Hlen. unfold write_vertex. cbn [fst snd].
  now rewrite (write_fields_from v l 0 rows r Hr Hlen).
Qed.

Lemma write_all_ok (z : list (nat * Q)) (ws : ws_dict) :
  forall rows : list (list (nat * Q)),
    NoDup (map fst ws) ->
    (forall k l, In (k, l) ws -> length l <= length z) ->
    (forall k, In k (map fst ws) -> nth_error rows k = Some z) ->
    exists rows',
      foldE write_vertex ws rows = Ok rows' /\
      length rows' = length rows /\
      (forall k l, In (k, l) ws ->
         nth_error rows' k = Some (map swap_entry l ++ skipn (length l) z)) /\
      (forall k, ~ In k (map fst ws) -> nth_error rows' k = nth_error rows k).
Proof.
  induction ws as [|[v l] ws IH]; intros rows Hnd Hlen Hz.
  - exists rows. simpl. repeat split; auto. intros k l [].
  - inversion Hnd as [|? ? Hnin Hnd']; subst.
    rewrite foldE_cons.
    assert (Hv : nth_error rows v = Some z) by (apply Hz; now left).
    rewrite (write_vertex_ok v l rows z Hv) by (apply (Hlen v); now left).
    set (rows1 := replace_nth v (map swap_entry l ++ skipn (length l) z) rows).
    destruct (IH rows1 Hnd') as (rows' & Hrun & Hl' & Hin' & Hout').
    + intros k l' Hk. apply (Hlen k). now right.
    + intros k Hk. subst rows1. rewrite replace_nth_other.
      * apply Hz. now right.
      * intros ->. contradiction.
    + exists rows'. split; [exact Hrun|]. split; [|split].
      * rewrite Hl'. subst rows1. apply replace_nth_length.
      * intros k l' [E|Hk].
        -- injection E as <- <-. rewrite (Hout' v Hnin). subst rows1.
           apply replace_nth_same. now apply nth_error_length in Hv.
        -- now apply Hin'.
      * intros k Hk. simpl in Hk. rewrite Hout' by tauto.
        subst rows1. apply replace_nth_other. tauto.
Qed.

Lemma write_no_rows (ws : ws_dict) :
  ws <> [] -> (forall k l, In (k, l) ws -> l <> []) ->
  foldE write_vertex ws [] = Raise IndexError.
Proof.
  intros Hne Hall. destruct ws as [|[k l] ws]; [contradiction|].
  rewrite foldE_cons.
  destruct l as [|e l]; [exfalso; apply (Hall k []); [now left|reflexivity]|].
  unfold write_vertex. cbn [fst snd enumerate_from]. rewrite foldE_cons.
  unfold assign_fields. cbn [fst]. now destruct k.
Qed.

Lemma finalize_length (nWeights : nat) (l : list (Q * nat)) :
  length (finalize nWeights l) = Nat.min nWeights (length l).
Proof.
  unfold finalize.
  pose proof (Permutation_length (sorted_reverse_perm l)) as Hl.
  destruct (Nat.ltb_spec nWeights (length l)).
  - unfold renormalize. rewrite length_map, length_firstn. lia.
  - lia.
Qed.

Lemma ws_get_unique (ws : ws_dict) (k : nat) (l : list (Q * nat)) :
  NoDup (map fst ws) -> In (k, l) ws -> ws_get ws k = Some l.
Proof.
  induction ws as [|[k0 l0] ws IH]; intros Hnd Hin; [destruct Hin|].
  inversion Hnd as [|? ? Hnin Hnd']; subst. simpl.
  destruct Hin as [E|Hin].
  - injection E as -> ->. now rewrite Nat.eqb_refl.
  - destruct (Nat.eqb_spec k0 k) as [->|_]; [|now apply IH].
    exfalso. apply Hnin. apply in_map_iff. exists (k, l). now split.
Qed.

(** Every entry of the accumulated dictionary belongs to a vertex the
    mapping assigns something to, and is the merge of what it assigns. *)
Lemma accumulate_entry (names : list string) (m : raw_mapping) (k : nat)
      (l : list (Q * nat)) :
  In (k, l) (accumulate names m) ->
  contributions names m k <> [] /\ l = merged (contributions names m k).
Proof.
  intros Hin.
  pose proof (ws_get_unique _ _ _ (accumulate_NoDup names m) Hin) as Hg.
  rewrite accumulate_get in Hg.
  destruct (contributions names m k) as [|c cs]; [discriminate|].
  injection Hg as <-. split; [discriminate|reflexivity].
Qed.

Lemma merged_nonempty (cs : list (Q * nat)) : cs <> [] -> merged cs <> [].
Proof.
  intros Hne. destruct (merged_spec cs) as (_ & Hlen & _).
  destruct cs as [|c cs]; [contradiction|].
  intros E. rewrite E in Hlen. simpl length in Hlen at 1.
  assert (Hin : In (snd c) (nodup Nat.eq_dec (map snd (c :: cs))))
    by (apply nodup_In; now left).
  destruct (nodup Nat.eq_dec (map snd (c :: cs))); [destruct Hin|discriminate].
Qed.

Lemma finalize_all_in (nWeights : nat) (ws : ws_dict) (k : nat)
      (l : list (Q * nat)) :
  In (k, l) (finalize_all nWeights ws) ->
  exists l0, In (k, l0) ws /\ l = finalize nWeights l0.
Proof.
  unfold finalize_all. intros Hin. apply in_map_iff in Hin.
  destruct Hin as ([k0 l0] & E & Hin). simpl in E. injection E as -> <-.
  exists l0. now split.
Qed.

Lemma finalize_all_keys (nWeights : nat) (ws : ws_dict) :
  map fst (finalize_all nWeights ws) = map fst ws.
Proof. unfold finalize_all. rewrite map_map. reflexivity. Qed.

(** ** Weight compilation: the compiled records *)

Lemma item_contributions_vertex (names : list string) (v : nat)
      (item : string * (list nat * list Q)) (e : Q * nat) :
  In e (item_contributions names v item) ->
  In v (fst (snd item)) /\ In (fst e) (snd (snd item)).
Proof.
  unfold item_contributions. destruct (b_lookup names (fst item)); [|intros []].
  intros Hin. apply in_map_iff in Hin. destruct Hin as ([v' w] & <- & Hf).
  apply filter_In in Hf. destruct Hf as [Hc Hv]. simpl in Hv.
  apply Nat.eqb_eq in Hv. subst v'. simpl.
  split; [eapply in_combine_l|eapply in_combine_r]; eassumption.
Qed.

Lemma contributions_vertex (names : list string) (m : raw_mapping) (v : nat)
      (e : Q * nat) :
  In e (contributions names m v) ->
  In v (vertex_indices m) /\ In (fst e) (raw_weights m).
Proof.
  unfold contributions, vertex_indices, raw_weights. intros Hin.
  apply in_flat_map in Hin. destruct Hin as (item & Hitem & He).
  destruct (item_contributions_vertex names v item e He) as [Hv Hw].
  split; apply in_flat_map; exists item; now split.
Qed.

Lemma skipn_repeat {A} (x : A) (n k : nat) :
  skipn k (repeat x n) = repeat x (n - k).
Proof.
  revert k. induction n as [|n IH]; intros [|k]; simpl; auto.
Qed.

Lemma qsum_repeat_zero (n : nat) : (qsum (repeat 0%Q n) == 0)%Q.
Proof.
  induction n as [|n IH]; simpl; [reflexivity|].
  rewrite qsum_cons, IH. ring.
Qed.

Lemma slots_dtype_for (K : nat) :
  In K [1; 3; 4; 17] -> slots (dtype_for K) = K.
Proof.
  intros [<-|[<-|[<-|[<-|[]]]]]; reflexivity.
Qed.

Lemma zeros_nth (n : nat) (d : layout) (k : nat) :
  k < n -> nth_error (records (zeros n d)) k = Some (zero_record d).
Proof.
  intros Hk. simpl. rewrite nth_error_repeat by assumption. reflexivity.
Qed.

(** C10.  Without an explicit [vertexCount] the count is inferred as the
    largest vertex index plus one only when that index is positive.  When
    every vertex index of the mapping is 0 the inferred count stays 0, the
    allocated array has no records, and as soon as a bone the skeleton knows
    assigns a weight to vertex 0 the compilation ends in [IndexError]
    instead of returning an array of one record. *)
Theorem inferred_vertexCount_zero_raises
        (m : raw_mapping) (names : list string) (nWeights : nat) :
  Forall (fun item => fst (snd item) <> []) m ->
  (let mx := list_max (vertex_indices m) in
   infer_vertexCount m = Ok (if mx =? 0 then 0 else mx + 1)) /\
  (Forall (fun v => v = 0) (vertex_indices m) ->
   infer_vertexCount m = Ok 0 /\
   records (zeros 0 (dtype_for nWeights)) = [] /\
   (0 < nWeights -> contributions names m 0 <> [] ->
    _compileVertexWeights m names None nWeights = Raise IndexError)).
Proof.
  intros Hne. split; [now apply infer_vertexCount_spec|].
  intros Hzero.
  assert (Hinf : infer_vertexCount m = Ok 0).
  { rewrite infer_vertexCount_spec by assumption.
    assert (Hmx : list_max (vertex_indices m) <= 0).
    { apply list_max_le. eapply Forall_impl; [|exact Hzero].
      intros a ->. lia. }
    destruct (Nat.eqb_spec (list_max (vertex_indices m)) 0); [reflexivity|lia]. }
  split; [exact Hinf|]. split; [reflexivity|].
  intros HK Hc. unfold _compileVertexWeights. rewrite Hinf.
  cbn [zeros records repeat].
  rewrite write_no_rows; [reflexivity| |].
  - pose proof (accumulate_get names m 0) as Hg.
    destruct (contributions names m 0) as [|c cs]; [contradiction|].
    apply ws_get_some_in in Hg. intros E.
    apply (in_map (fun kv => (fst kv, finalize nWeights (snd kv)))) in Hg.
    unfold finalize_all in E. rewrite E in Hg. destruct Hg.
  - intros k l Hin.
    destruct (finalize_all_in _ _ _ _ Hin) as (l0 & Hin0 & ->).
    destruct (accumulate_entry _ _ _ _ Hin0) as [Hcs ->].
    pose proof (merged_nonempty _ Hcs) as Hm.
    intros E. apply (f_equal (@length _)) in E.
    rewrite finalize_length in E. simpl in E.
    destruct (merged (contributions names m k)); [contradiction|].
    simpl in E. lia.
Qed.

Lemma inferred_vertexCount_zero_raises_witness :
  let m := [("root"%string, ([0; 0], [(1 # 2)%Q; (1 # 2)%Q]))] in
  (let mx := list_max (vertex_indices m) in
   infer_vertexCount m = Ok (if mx =? 0 then 0 else mx + 1)) /\
  (Forall (fun v => v = 0) (vertex_indices m) ->
   infer_vertexCount m = Ok 0 /\
   records (zeros 0 (dtype_for 4)) = [] /\
   (0 < 4 -> contributions ["root"%string] m 0 <> [] ->
    _compileVertexWeights m ["root"%string] None 4 = Raise IndexError)).
Proof.
  apply (inferred_vertexCount_zero_raises
           [("root"%string, ([0; 0], [(1 # 2)%Q; (1 # 2)%Q]))]
           ["root"%string] 4).
  repeat constructor. simpl. discriminate.
Defined.

Example compile_vertex_zero_only :
  _compileVertexWeights [("root"%string, ([0; 0], [(1 # 2)%Q; (1 # 2)%Q]))]
                        ["root"%string] None 4
  = Raise IndexError.
Proof. vm_compute. reflexivity. Qed.

(** The compilation returns when every vertex index lies inside the array
    and the capacity is one the record layouts provide; the record of a
    vertex then holds its finalized entry followed by zero slots. *)
Lemma compile_records (m : raw_mapping) (names : list string)
      (vertexCount : option nat) (K n : nat) :
  In K [1; 3; 4; 17] ->
  effective_vertexCount m vertexCount = Ok n ->
  Forall (fun i => i < n) (vertex_indices m) ->
  exists rows,
    _compileVertexWeights m names vertexCount K
    = Ok (mkCompiled (dtype_for K) rows) /\
    length rows = n /\
    (forall v, contributions names m v <> [] ->
       let fl := finalize K (merged (contributions names m v)) in
       nth_error rows v
       = Some (map swap_entry fl ++ repeat (0, 0%Q) (K - length fl))) /\
    (forall v, v < n -> contributions names m v = [] ->
       nth_error rows v = Some (repeat (0, 0%Q) K)).
Proof.
  intros HK Heff Hidx. unfold _compileVertexWeights.
  unfold effective_vertexCount in Heff. rewrite Heff.
  pose proof (slots_dtype_for K HK) as Hslots.
  set (d := dtype_for K) in *.
  set (ws := finalize_all K (accumulate names m)).
  assert (Hkeys : forall k, In k (map fst ws) ->
                            contributions names m k <> [] /\ k < n).
  { intros k Hk. subst ws. rewrite finalize_all_keys in Hk.
    destruct (ws_get_in _ _ Hk) as [l Hl]. apply ws_get_some_in in Hl.
    destruct (accumulate_entry _ _ _ _ Hl) as [Hcs _]. split; [assumption|].
    destruct (contributions names m k) as [|c cs] eqn:E; [contradiction|].
    assert (Hin : In c (contributions names m k)) by (rewrite E; now left).
    apply contributions_vertex in Hin. destruct Hin as [Hv _].
    rewrite Forall_forall in Hidx. now apply Hidx. }
  destruct (write_all_ok (zero_record d) ws (records (zeros n d)))
    as (rows & Hrun & Hlen & Hin & Hout).
  - subst ws. rewrite finalize_all_keys. apply accumulate_NoDup.
  - intros k l Hkl. subst ws.
    destruct (finalize_all_in _ _ _ _ Hkl) as (l0 & _ & ->).
    rewrite finalize_length. unfold zero_record.
    rewrite repeat_length, Hslots. lia.
  - intros k Hk. apply zeros_nth. now apply Hkeys.
  - rewrite Hrun. exists rows. split; [reflexivity|].
    split; [rewrite Hlen; simpl; apply repeat_length|]. split.
    + intros v Hv.
      set (fl := finalize K (merged (contributions names m v))).
      assert (Hws : In (v, fl) ws).
      { subst ws fl. unfold finalize_all. apply in_map_iff.
        exists (v, merged (contributions names m v)). split; [reflexivity|].
        apply ws_get_some_in. rewrite accumulate_get.
        destruct (contributions names m v); [contradiction|reflexivity]. }
      rewrite (Hin v fl Hws). unfold zero_record.
      now rewrite skipn_repeat, Hslots.
    + intros v Hv Hnone. rewrite Hout.
      * rewrite zeros_nth by assumption. unfold zero_record.
        now rewrite Hslots.
      * intros Hk. apply Hkeys in Hk. tauto.
Qed.

(** C3 (amended).  With positive raw weights, a capacity among 1, 3, 4 and
    17 and every vertex index inside the array, the compilation returns,
    and the record of a vertex that a known bone assigns a weight to holds
    its weights in descending order.  They sum to 1 when the vertex has more
    entries than the capacity; otherwise they sum to the total of the raw
    weights assigned to the vertex. *)
Theorem compiled_weights_sorted_and_summed
        (m : raw_mapping) (names : list string) (vertexCount : option nat)
        (K n v : nat) :
  In K [1; 3; 4; 17] ->
  effective_vertexCount m vertexCount = Ok n ->
  Forall (fun i => i < n) (vertex_indices m) ->
  Forall (fun w => (0 < w)%Q) (raw_weights m) ->
  contributions names m v <> [] ->
  exists c r,
    _compileVertexWeights m names vertexCount K = Ok c /\
    length (records c) = n /\
    nth_error (records c) v = Some r /\
    length r = K /\
    descending (map snd r) /\
    (K < entry_count names m v -> (qsum (map snd r) == 1)%Q) /\
    (entry_count names m v <= K ->
     (qsum (map snd r) == qsum (map fst (contributions names m v)))%Q).
Proof.
  intros HK Heff Hidx Hpos Hv.
  destruct (compile_records m names vertexCount K n HK Heff Hidx)
    as (rows & Hrun & Hlen & Hin & _).
  specialize (Hin v Hv). cbv zeta in Hin.
  set (cs := contributions names m v) in *.
  destruct (merged_spec cs) as (_ & Hcount & Hsum & Hmpos).
  assert (Hcpos : Forall (fun e => (0 < fst e)%Q) cs).
  { apply Forall_forall. intros e He. subst cs.
    apply contributions_vertex in He. destruct He as [_ Hw].
    rewrite Forall_forall in Hpos. now apply Hpos. }
  assert (HK0 : 0 < K) by (destruct HK as [<-|[<-|[<-|[<-|[]]]]]; lia).
  destruct (finalize_spec K (merged cs) HK0 (merged_nonempty cs Hv)
                          (Hmpos Hcpos))
    as (Hfl & Hdesc & Hfpos & Hone & Hraw).
  set (fl := finalize K (merged cs)) in *.
  assert (Hw : map snd (map swap_entry fl ++ repeat (0, 0%Q) (K - length fl))
               = map fst fl ++ repeat 0%Q (K - length fl)).
  { rewrite map_app, map_map. f_equal.
    clear. induction (K - length fl) as [|k IH]; simpl; [reflexivity|].
    now rewrite IH. }
  eexists _, _. split; [exact Hrun|]. simpl records.
  split; [exact Hlen|]. split; [exact Hin|].
  split; [rewrite length_app, length_map, repeat_length; lia|].
  rewrite Hw. unfold entry_count. fold cs. rewrite <- Hcount.
  split; [now apply descending_pad|]. split.
  - intros Hlt. rewrite qsum_app, qsum_repeat_zero, (Hone Hlt). ring.
  - intros Hle. rewrite qsum_app, qsum_repeat_zero, (Hraw Hle), Hsum. ring.
Qed.

Lemma compiled_weights_sorted_and_summed_witness :
  let m := [("arm"%string, ([1; 1], [(1 # 2)%Q; (1 # 4)%Q]));
            ("leg"%string, ([1; 0], [(1 # 3)%Q; (1 # 4)%Q]))] in
  let names := ["arm"%string; "leg"%string] in
  exists c r,
    _compileVertexWeights m names None 1 = Ok c /\
    length (records c) = 2 /\
    nth_error (records c) 1 = Some r /\
    length r = 1 /\
    descending (map snd r) /\
    (1 < entry_count names m 1 -> (qsum (map snd r) == 1)%Q) /\
    (entry_count names m 1 <= 1 ->
     (qsum (map snd r) == qsum (map fst (contributions names m 1)))%Q).
Proof.
  apply (compiled_weights_sorted_and_summed
           [("arm"%string, ([1; 1], [(1 # 2)%Q; (1 # 4)%Q]));
            ("leg"%string, ([1; 0], [(1 # 3)%Q; (1 # 4)%Q]))]
           ["arm"%string; "leg"%string] None 1 2 1).
  - simpl. left. reflexivity.
  - reflexivity.
  - simpl. repeat constructor.
  - simpl. repeat constructor.
  - vm_compute. discriminate.
Defined.

(** C3 (counterexample).  One bone assigns the weight 1/2 to vertex 1 and
    nothing else does; with capacity 4 the entry is not truncated, hence not
    renormalised, and the compiled weights of vertex 1 sum to 1/2. *)
Lemma compiled_weights_not_normalized :
  let m := [("arm"%string, ([1], [(1 # 2)%Q]))] in
  contributions ["arm"%string] m 1 <> [] /\
  _compileVertexWeights m ["arm"%string] (Some 2) 4
  = Ok (mkCompiled L4 [[(0, 0%Q); (0, 0%Q); (0, 0%Q); (0, 0%Q)];
                       [(0, (1 # 2)%Q); (0, 0%Q); (0, 0%Q); (0, 0%Q)]]) /\
  ~ (qsum (map snd [(0, (1 # 2)%Q); (0, 0%Q); (0, 0%Q); (0, 0%Q)]) == 1)%Q.
Proof.
  split; [vm_compute; discriminate|].
  split; [vm_compute; reflexivity|].
  vm_compute. discriminate.
Qed.

(** ** Skinning with an identity pose *)

Lemma row_eq_refl (a : list Q) : row_eq a a.
Proof. induction a; constructor; [reflexivity|assumption]. Qed.

Lemma row_eq_trans (a b c : list Q) : row_eq a b -> row_eq b c -> row_eq a c.
Proof.
  intros Hab. revert c. induction Hab as [|x y a b Hxy Hab IH]; intros c Hbc;
    inversion Hbc; subst; constructor.
  - now rewrite Hxy.
  - now apply IH.
Qed.

Lemma grid_eq_refl (a : list (list Q)) : grid_eq a a.
Proof. induction a; constructor; [apply row_eq_refl|assumption]. Qed.

Lemma grid_eq_trans (a b c : list (list Q)) :
  grid_eq a b -> grid_eq b c -> grid_eq a c.
Proof.
  intros Hab. revert c. induction Hab as [|x y a b Hxy Hab IH]; intros c Hbc;
    inversion Hbc; subst; constructor.
  - eapply row_eq_trans; eassumption.
  - now apply IH.
Qed.

Lemma row_add_compat (a a' b b' : list Q) :
  row_eq a a' -> row_eq b b' -> row_eq (row_add a b) (row_add a' b').
Proof.
  intros Ha. revert b b'. induction Ha as [|x x' a a' Hx Ha IH];
    intros b b' Hb; [constructor|].
  inversion Hb as [|y y' l l' Hy Hl]; subst; [constructor|].
  unfold row_add. simpl. constructor.
  - now rewrite Hx, Hy.
  - now apply IH.
Qed.

Lemma grid_add_compat (a a' b b' : list (list Q)) :
  grid_eq a a' -> grid_eq b b' -> grid_eq (grid_add a b) (grid_add a' b').
Proof.
  intros Ha. revert b b'. induction Ha as [|x x' a a' Hx Ha IH];
    intros b b' Hb; [constructor|].
  inversion Hb as [|y y' l l' Hy Hl]; subst; [constructor|].
  unfold grid_add. simpl. constructor.
  - now apply row_add_compat.
  - now apply IH.
Qed.

Lemma row_scale_add (x y : Q) (r : list Q) :
  row_eq (row_add (map (fun e => x * e)%Q r) (map (fun e => y * e)%Q r))
         (map (fun e => (x + y) * e)%Q r).
Proof.
  induction r as [|e r IH]; [constructor|].
  unfold row_add. simpl. constructor; [ring|exact IH].
Qed.

Lemma grid_scale_add (x y : Q) (g : list (list Q)) :
  grid_eq (grid_add (grid_scale x g) (grid_scale y g)) (grid_scale (x + y) g).
Proof.
  induction g as [|r g IH]; [constructor|].
  unfold grid_add, grid_scale. simpl. constructor;
    [apply row_scale_add|exact IH].
Qed.

Lemma grid_scale_compat (x y : Q) (g : list (list Q)) :
  (x == y)%Q -> grid_eq (grid_scale x g) (grid_scale y g).
Proof.
  intros Hxy. induction g as [|r g IH]; [constructor|].
  unfold grid_scale. simpl. constructor; [|exact IH].
  induction r as [|e r IHr]; constructor; [now rewrite Hxy|exact IHr].
Qed.

(** The weighted sum of equal matrices is the matrix scaled by the sum of
    the weights. *)
Lemma accum_same_matrix (g : list (list Q)) (ws : list Q)
      (acc : list (list Q)) (a : Q) :
  grid_eq acc (grid_scale a g) ->
  grid_eq (fold_left grid_add (map (fun w => grid_scale w g) ws) acc)
          (grid_scale (a + qsum ws) g).
Proof.
  revert acc a. induction ws as [|w ws IH]; intros acc a Hacc; simpl.
  - eapply grid_eq_trans; [exact Hacc|].
    apply grid_scale_compat. rewrite qsum_nil. ring.
  - eapply grid_eq_trans.
    + apply (IH _ (a + w)%Q).
      eapply grid_eq_trans; [|apply grid_scale_add].
      apply grid_add_compat; [exact Hacc|apply grid_eq_refl].
    + apply grid_scale_compat. rewrite qsum_cons. ring.
Qed.

Lemma skin_terms_identity (c : nat) (P : list Mat) (r : list (nat * Q)) :
  Forall (fun m => m = mat_identity) P ->
  Forall (fun slot => fst slot < length P) r ->
  mapE (skin_term c P) r
  = Ok (map (fun w => grid_scale w (sub3 c mat_identity)) (map snd r)).
Proof.
  intros HP. induction 1 as [|[b w] r Hb Hr IH]; [reflexivity|].
  rewrite mapE_cons, IH. unfold skin_term. simpl fst in *. simpl snd.
  destruct (nth_error P b) as [m|] eqn:E.
  - rewrite Forall_forall in HP. rewrite (HP m (nth_error_In _ _ E)).
    reflexivity.
  - apply nth_error_None in E. lia.
Qed.

Lemma accum_vertex_identity (c k : nat) (P : list Mat) (r : list (nat * Q)) :
  Forall (fun m => m = mat_identity) P ->
  Forall (fun slot => fst slot < length P) r ->
  length r = k -> 0 < k ->
  (qsum (map snd r) == 1)%Q ->
  exists a, accum_vertex c k P r = Ok a /\
            grid_eq a (grid_scale 1 (sub3 c mat_identity)).
Proof.
  intros HP Hidx Hlen Hk Hsum. unfold accum_vertex.
  rewrite firstn_all2 by lia. rewrite skin_terms_identity by assumption.
  destruct r as [|[b w] r]; [simpl in Hlen; lia|].
  set (G := sub3 c mat_identity).
  change (map (fun w0 => grid_scale w0 G) (map snd ((b, w) :: r)))
    with (grid_scale w G :: map (fun w0 => grid_scale w0 G) (map snd r)).
  eexists. split; [reflexivity|].
  eapply grid_eq_trans.
  - apply (accum_same_matrix G (map snd r) _ w). apply grid_eq_refl.
  - apply grid_scale_compat.
    change (map snd ((b, w) :: r)) with (w :: map snd r) in Hsum.
    rewrite qsum_cons in Hsum. exact Hsum.
Qed.

Ltac invert_rows :=
  repeat match goal with
         | H : grid_eq _ _ |- _ => unfold grid_eq in H
         | H : row_eq _ _ |- _ => unfold row_eq in H
         | H : Forall2 _ _ (_ :: _) |- _ => inversion H; subst; clear H
         | H : Forall2 _ _ [] |- _ => inversion H; subst; clear H
         end.

Lemma einsum_identity (c : nat) (a : list (list Q)) (v : list Q) :
  c = 3 \/ c = 4 -> length v = c ->
  grid_eq a (grid_scale 1 (sub3 c mat_identity)) ->
  exists res, einsum_vertex c (a, v) = Ok res /\ row_eq res (firstn 3 v).
Proof.
  intros [-> | ->] Hlen Ha.
  - destruct v as [|x [|y [|z [|? ?]]]]; try discriminate.
    cbv [grid_scale sub3 mat_identity mat_rows vec_list map firstn
         r0 r1 r2 r3 v0 v1 v2 v3] in Ha.
    invert_rows.
    eexists. split; [reflexivity|].
    unfold row_eq, dot, qsum. simpl.
    repeat constructor;
      repeat match goal with H : (_ == _)%Q |- _ => rewrite H; clear H end;
      ring.
  - destruct v as [|x [|y [|z [|w [|? ?]]]]]; try discriminate.
    cbv [grid_scale sub3 mat_identity mat_rows vec_list map firstn
         r0 r1 r2 r3 v0 v1 v2 v3] in Ha.
    invert_rows.
    eexists. split; [reflexivity|].
    unfold row_eq, dot, qsum. simpl.
    repeat constructor;
      repeat match goal with H : (_ == _)%Q |- _ => rewrite H; clear H end;
      ring.
Qed.

Lemma mapE_Forall2 {A B} (f : A -> exc B) (R : A -> B -> Prop) (l : list A) :
  Forall (fun x => exists y, f x = Ok y /\ R x y) l ->
  exists ys, mapE f l = Ok ys /\ Forall2 R l ys.
Proof.
  induction 1 as [|x l (y & Hy & HR) _ (ys & Hys & HF)].
  - exists []. split; [reflexivity|constructor].
  - exists (y :: ys). rewrite mapE_cons, Hy, Hys.
    split; [reflexivity|now constructor].
Qed.

(** C2.  With a pose buffer of identity matrices, bone indices inside the
    buffer and weights that sum to 1 for every vertex, [skinMesh] returns,
    for coordinates of 3 or 4 components, the first three components of
    every vertex (in exact arithmetic). *)
Theorem skinMesh_identity_pose
        (coords : coord_array) (W : compiled) (P : list Mat) :
  ncols coords = 3 \/ ncols coords = 4 ->
  Forall (fun row => length row = ncols coords) (crows coords) ->
  length (records W) = length (crows coords) ->
  Forall (fun r => length r = slots (dtype W) /\
                   Forall (fun slot => fst slot < length P) r /\
                   (qsum (map snd r) == 1)%Q) (records W) ->
  Forall (fun m => m = mat_identity) P ->
  exists res,
    skinMesh coords W P = Ok res /\
    grid_eq res (map (firstn 3) (crows coords)).
Proof.
  intros Hc Hrows Hlen Hrec HP. unfold skinMesh.
  set (c := if ncols coords =? 4 then 4 else 3).
  assert (Hcc : c = ncols coords)
    by (subst c; destruct Hc as [-> | ->]; reflexivity).
  set (k := if dtype_len (dtype W) =? 4 * 2 then 4
            else if dtype_len (dtype W) =? 2 then 1
            else if dtype_len (dtype W) =? 17 * 2 then 17 else 3).
  assert (Hk : k = slots (dtype W)) by (subst k; destruct (dtype W); reflexivity).
  assert (Hk0 : 0 < k) by (rewrite Hk; destruct (dtype W); simpl; lia).
  destruct (mapE_Forall2 (accum_vertex c k P)
              (fun _ a => grid_eq a (grid_scale 1 (sub3 c mat_identity)))
              (records W)) as (accum & Hacc & Hall).
  { eapply Forall_impl; [|exact Hrec]. intros r (Hl & Hi & Hs).
    apply accum_vertex_identity; auto. congruence. }
  rewrite Hacc.
  assert (Hal : length accum = length (crows coords))
    by (rewrite <- (Forall2_length Hall); exact Hlen).
  assert (Hw : columns_fit c (ncols coords) = true)
    by (rewrite <- Hcc; unfold columns_fit;
        rewrite Nat.min_id, Nat.eqb_refl; reflexivity).
  rewrite Hw, Hal, Nat.eqb_refl.
  assert (G : forall acc rows,
             Forall (fun a => grid_eq a (grid_scale 1 (sub3 c mat_identity))) acc ->
             Forall (fun row => length row = c) rows ->
             length acc = length rows ->
             exists res, mapE (einsum_vertex c) (combine acc rows) = Ok res /\
                         grid_eq res (map (firstn 3) rows)).
  { induction acc as [|a acc IH]; intros rows Ha Hr Hl;
      destruct rows as [|row rows]; try discriminate.
    - exists []. split; [reflexivity|constructor].
    - inversion Ha; subst. inversion Hr; subst.
      destruct (einsum_identity c a row) as (res & Hres & Heq); auto;
        [rewrite Hcc; exact Hc|].
      destruct (IH rows) as (rest & Hrest & Hreq); auto.
      exists (res :: rest). cbn [combine]. rewrite mapE_cons, Hres, Hrest.
      split; [reflexivity|]. simpl. constructor; assumption. }
  apply G.
  - clear -Hall. induction Hall; constructor; assumption.
  - rewrite Hcc. exact Hrows.
  - exact Hal.
Qed.

Lemma skinMesh_identity_pose_witness :
  exists res,
    skinMesh coords_2 weights_2 rest_pose_2 = Ok res /\
    grid_eq res (map (firstn 3) (crows coords_2)).
Proof.
  apply (skinMesh_identity_pose coords_2 weights_2 rest_pose_2).
  - right. reflexivity.
  - repeat constructor.
  - reflexivity.
  - repeat constructor; simpl; lia.
  - repeat constructor.
Defined.

(** With a pose that is not the identity the same call moves the vertex:
    the identity is what makes the coordinates come back unchanged. *)
Example skinMesh_translated :
  skinMesh (mkCoords 4 [[1%Q; 2%Q; 3%Q; 1%Q]]) (mkCompiled L1 [[(0, 1%Q)]])
           [diag 2]
  = Ok [[7%Q; 10%Q; 13%Q]].
Proof. vm_compute. reflexivity. Qed.

(** ** Periodicity for times that are not negative *)

Lemma period_shift (t : AnimationTrack) (time : Q) :
  (0 < frameRate t)%Q ->
  (frameRate t * (time + inject_Z (Z.of_nat (nFrames t)) / frameRate t)
   == frameRate t * time + inject_Z (Z.of_nat (nFrames t)))%Q.
Proof.
  intros Hr. field. intros E. rewrite E in Hr. now apply (Qlt_irrefl 0).
Qed.

Lemma getFrameIndexAtTime_periodic_nonneg (t : AnimationTrack) (time : Q) :
  loop t = true -> nFrames t <> 0 -> (0 < frameRate t)%Q -> (0 <= time)%Q ->
  let period := (inject_Z (Z.of_nat (nFrames t)) / frameRate t)%Q in
  exists frameIdx f1 f2,
    getFrameIndexAtTime t time = Ok (frameIdx, f1) /\
    getFrameIndexAtTime t (time + period) = Ok (frameIdx, f2) /\
    (f1 == f2)%Q.
Proof.
  intros Hloop Hn Hr Ht period.
  assert (Hraw : (0 <= frameRate t * time)%Q)
    by (apply Qmult_le_0_compat; [now apply Qlt_le_weak|assumption]).
  pose proof (period_shift t time Hr) as Hshift. fold period in Hshift.
  assert (Hraw' : (0 <= frameRate t * (time + period))%Q).
  { rewrite Hshift.
    assert ((0 <= inject_Z (Z.of_nat (nFrames t))))%Q
      by (change 0%Q with (inject_Z 0); rewrite <- Zle_Qle; lia).
    lra. }
  unfold getFrameIndexAtTime.
  rewrite (modf_nonneg _ Hraw), (modf_nonneg _ Hraw'), Hloop.
  destruct (Nat.eqb_spec (nFrames t) 0); [contradiction|].
  assert (Hfl : Qfloor (frameRate t * (time + period))
                = (Qfloor (frameRate t * time) + Z.of_nat (nFrames t))%Z)
    by (rewrite Hshift; apply Qfloor_plus_Z).
  rewrite Hfl.
  replace ((Qfloor (frameRate t * time) + Z.of_nat (nFrames t))
             mod Z.of_nat (nFrames t))%Z
    with (Qfloor (frameRate t * time) mod Z.of_nat (nFrames t))%Z.
  - eexists _, _, _. split; [reflexivity|]. split; [reflexivity|].
    rewrite Hshift, inject_Z_plus. ring.
  - replace (Qfloor (frameRate t * time) + Z.of_nat (nFrames t))%Z
      with (Qfloor (frameRate t * time) + 1 * Z.of_nat (nFrames t))%Z by lia.
    now rewrite Z_mod_plus_full.
Qed.

Lemma mat_eq_refl (m : Mat) : mat_eq m m.
Proof. repeat split; reflexivity. Qed.

Lemma array_eq_refl (a : list Mat) : array_eq a a.
Proof. induction a; constructor; [apply mat_eq_refl|assumption]. Qed.

Lemma mat_add_compat (a a' b b' : Mat) :
  mat_eq a a' -> mat_eq b b' -> mat_eq (mat_add a b) (mat_add a' b').
Proof.
  unfold mat_eq, vec_eq, mat_add, mat_map2, vec_map2. simpl.
  intros (H0 & H1 & H2 & H3) (G0 & G1 & G2 & G3).
  repeat match goal with
         | H : _ /\ _ |- _ => destruct H
         end.
  repeat split; apply Qplus_comp; assumption.
Qed.

Lemma mat_scale_compat (x y : Q) (m : Mat) :
  (x == y)%Q -> mat_eq (mat_scale x m) (mat_scale y m).
Proof.
  intros Hxy. unfold mat_eq, vec_eq, mat_scale, mat_map, vec_map. simpl.
  repeat split; now rewrite Hxy.
Qed.

Lemma array_scale_compat (x y : Q) (a : list Mat) :
  (x == y)%Q -> array_eq (map (mat_scale x) a) (map (mat_scale y) a).
Proof.
  intros Hxy. induction a as [|m a IH]; constructor;
    [now apply mat_scale_compat|exact IH].
Qed.

Lemma array_map_add_l (m m' : Mat) (b b' : list Mat) :
  mat_eq m m' -> array_eq b b' ->
  array_eq (map (mat_add m) b) (map (mat_add m') b').
Proof.
  intros Hm Hb. induction Hb; simpl; constructor;
    [now apply mat_add_compat|assumption].
Qed.

Lemma array_map_add_r (m m' : Mat) (a a' : list Mat) :
  mat_eq m m' -> array_eq a a' ->
  array_eq (map (fun x => mat_add x m) a) (map (fun x => mat_add x m') a').
Proof.
  intros Hm Ha. induction Ha; simpl; constructor;
    [now apply mat_add_compat|assumption].
Qed.

Lemma array_zip_add (a a' b b' : list Mat) :
  array_eq a a' -> array_eq b b' ->
  array_eq (map (fun p => mat_add (fst p) (snd p)) (combine a b))
           (map (fun p => mat_add (fst p) (snd p)) (combine a' b')).
Proof.
  intros Ha. revert b b'. induction Ha; intros b b' Hb; [constructor|].
  destruct Hb; [constructor|].
  simpl. constructor; [now apply mat_add_compat|now apply IHHa].
Qed.

Lemma array_add_compat (a a' b b' : list Mat) :
  array_eq a a' -> array_eq b b' ->
  match array_add a b, array_add a' b' with
  | Ok r, Ok r' => array_eq r r'
  | Raise e, Raise e' => e = e'
  | _, _ => False
  end.
Proof.
  intros Ha Hb. unfold array_add.
  rewrite <- (Forall2_length Ha), <- (Forall2_length Hb).
  destruct (length a =? length b); [now apply array_zip_add|].
  destruct Ha as [|m m' a a' Hm Ha].
  - destruct Hb as [|n n' b b' Hn Hb]; [reflexivity|].
    destruct Hb; [constructor|reflexivity].
  - destruct Ha as [|m1 m1' a a' Hm1 Ha].
    + exact (array_map_add_l m m' b b' Hm Hb).
    + destruct Hb as [|n n' b b' Hn Hb]; [reflexivity|].
      destruct Hb; [|reflexivity].
      apply (array_map_add_r n n' (m :: m1 :: a) (m' :: m1' :: a'));
        [assumption|].
      constructor; [assumption|constructor; assumption].
Qed.

Lemma Qeq_bool_compat (x y : Q) : (x == y)%Q -> Qeq_bool x 0 = Qeq_bool y 0.
Proof.
  intros Hxy. destruct (Qeq_bool x 0) eqn:Ex, (Qeq_bool y 0) eqn:Ey;
    try reflexivity.
  - apply Qeq_bool_iff in Ex. rewrite Hxy in Ex. apply Qeq_bool_iff in Ex.
    congruence.
  - apply Qeq_bool_iff in Ey. rewrite <- Hxy in Ey. apply Qeq_bool_iff in Ey.
    congruence.
Qed.

(** A looping track repeats after [nFrames/frameRate] seconds at every time
    that is not negative, whatever its interpolation. *)
Lemma sampleAtTime_periodic_any_interpolation (t : AnimationTrack) (time : Q) :
  loop t = true -> nFrames t <> 0 -> (0 < frameRate t)%Q -> (0 <= time)%Q ->
  sample_eq
    (sampleAtTime t (time + inject_Z (Z.of_nat (nFrames t)) / frameRate t))
    (sampleAtTime t time).
Proof.
  intros Hloop Hn Hr Ht.
  destruct (getFrameIndexAtTime_periodic_nonneg t time Hloop Hn Hr Ht)
    as (fi & f1 & f2 & H1 & H2 & Hf).
  unfold sampleAtTime, getAtTime. rewrite H1, H2.
  rewrite (Qeq_bool_compat f2 f1) by (symmetry; exact Hf).
  destruct (Qeq_bool f1 0 || (interpolationType t =? 0)%Z).
  - simpl. apply array_eq_refl.
  - destruct (interpolationType t =? 1)%Z; [|exact I].
    destruct (Nat.eqb_spec (nFrames t) 0); [contradiction|].
    set (a := Py.slice (data t) _ _). set (b := Py.slice (data t) _ _).
    pose proof (array_add_compat
                  (map (mat_scale (1 - f2)) a) (map (mat_scale (1 - f1)) a)
                  (map (mat_scale f2) b) (map (mat_scale f1) b)) as Hc.
    destruct (array_add (map (mat_scale (1 - f2)) a) (map (mat_scale f2) b)),
             (array_add (map (mat_scale (1 - f1)) a) (map (mat_scale f1) b));
      simpl; apply Hc; apply array_scale_compat;
      try (symmetry; exact Hf); rewrite Hf; reflexivity.
Qed.

(** A looping track without interpolation repeats after [nFrames/frameRate]
    seconds at every time that is not negative. *)
Lemma sampleAtTime_periodic_nonneg (t : AnimationTrack) (time : Q) :
  loop t = true -> nFrames t <> 0 -> (0 < frameRate t)%Q -> (0 <= time)%Q ->
  interpolationType t = 0%Z ->
  sampleAtTime t (time + inject_Z (Z.of_nat (nFrames t)) / frameRate t)
  = sampleAtTime t time.
Proof.
  intros Hloop Hn Hr Ht Hi.
  destruct (getFrameIndexAtTime_periodic_nonneg t time Hloop Hn Hr Ht)
    as (fi & f1 & f2 & H1 & H2 & _).
  unfold sampleAtTime, getAtTime. rewrite H1, H2, Hi.
  change (0 =? 0)%Z with true. now rewrite !orb_true_r.
Qed.

(** * Further properties of the code *)

(** ** Construction *)

(** X1.  The constructor raises [ZeroDivisionError] for a frame count of 0
    and the pose-data [RuntimeError] when the number of matrices is not a
    multiple of the frame count; otherwise it returns a track that holds the
    data it was given, with [nBones = len(poseData)/nFrames], looping, not
    baked, without interpolation, and satisfying the invariant the other
    methods rely on. *)
Theorem init_outcomes nm (poseData : list Mat) (nframes : nat) (framerate : Q) :
  (nframes = 0 -> init nm poseData nframes framerate = Raise ZeroDivisionError)
  /\
  (nframes <> 0 -> length poseData mod nframes <> 0 ->
   init nm poseData nframes framerate = Raise (RuntimeError PoseDataLength))
  /\
  (nframes <> 0 -> length poseData mod nframes = 0 ->
   exists t,
     init nm poseData nframes framerate = Ok t /\
     track_ok t /\
     nFrames t = nframes /\
     nBones t = length poseData / nframes /\
     _data t = poseData /\ data t = poseData /\
     frameRate t = framerate /\
     loop t = true /\ isBaked t = false /\ interpolationType t = 0%Z).
Proof.
  unfold init. split; [|split].
  - intros ->. reflexivity.
  - intros Hn Hmod. destruct (Nat.eqb_spec nframes 0); [contradiction|].
    destruct (Nat.eqb_spec (length poseData / nframes * nframes)
                           (length poseData)) as [E|_]; [|reflexivity].
    exfalso. apply Hmod. rewrite <- E. apply Nat.Div0.mod_mul.
  - intros Hn Hmod. destruct (Nat.eqb_spec nframes 0); [contradiction|].
    pose proof (Nat.div_mod_eq (length poseData) nframes) as E.
    rewrite Hmod, Nat.add_0_r in E.
    destruct (Nat.eqb_spec (length poseData / nframes * nframes)
                           (length poseData)) as [_|Hne]; [|lia].
    simpl. eexists. split; [reflexivity|].
    unfold track_ok. simpl. repeat split; auto; try lia. discriminate.
Qed.

(** ** Sampling *)

(** Which frame a time selects is decided by the product [frameRate*time].
    The statements below put their conditions on this product, not on a
    time given as a quotient: they use no cancellation such as
    [frameRate*(k/frameRate) = k], which holds for rationals and can fail
    for the rounded quotient the program would be handed. *)

Lemma trunc_of_integer (x : Q) (k : Z) :
  (0 <= k)%Z -> (x == inject_Z k)%Q -> Py.trunc x = k.
Proof.
  intros Hk Hx. rewrite trunc_nonneg_floor.
  - rewrite Hx. apply Qfloor_Z.
  - rewrite Hx. change 0%Q with (inject_Z 0). now rewrite <- Zle_Qle.
Qed.

Lemma frame_bounds_eq (t : AnimationTrack) (k : Z) :
  data_slice t (k * Z.of_nat (nBones t))
             (k * Z.of_nat (nBones t) + Z.of_nat (nBones t))
  = getAtFramePos t k.
Proof.
  unfold getAtFramePos. f_equal. ring.
Qed.

Lemma getAtTime_whole_product (t : AnimationTrack) (time : Q) (k : nat) :
  (frameRate t * time == inject_Z (Z.of_nat k))%Q -> k < nFrames t ->
  getAtTime t time = Ok (Some (getAtFramePos t (Z.of_nat k))).
Proof.
  intros Hraw Hk.
  assert (Htr : Py.trunc (frameRate t * time) = Z.of_nat k)
    by (apply trunc_of_integer; [lia|exact Hraw]).
  assert (Hfr : Qeq_bool (frameRate t * time - inject_Z (Z.of_nat k)) 0
                = true).
  { apply Qeq_bool_iff. rewrite Hraw. ring. }
  unfold getAtTime, getFrameIndexAtTime, Py.modf. rewrite Htr.
  destruct (loop t).
  - destruct (Nat.eqb_spec (nFrames t) 0); [lia|].
    rewrite Z.mod_small by lia. rewrite Hfr. simpl orb.
    now rewrite frame_bounds_eq.
  - destruct (Z.leb_spec (Z.of_nat (nFrames t)) (Z.of_nat k)); [lia|].
    rewrite Hfr. simpl orb. now rewrite frame_bounds_eq.
Qed.

(** X3.  A time at which the product [frameRate*time] is the whole number
    [k] of a stored frame yields that frame without interpolation,
    whatever the interpolation type and whether the track loops or not:
    [getAtTime] returns the same view of the buffer as [getAtFramePos(k)].
    The condition is on the product the method computes; a time obtained
    as a rounded quotient [k/frameRate] need not satisfy it. *)
Theorem getAtTime_at_frame_time (t : AnimationTrack) (time : Q) (k : nat) :
  (frameRate t * time == inject_Z (Z.of_nat k))%Q -> k < nFrames t ->
  getAtTime t time = Ok (Some (getAtFramePos t (Z.of_nat k))).
Proof.
  exact (getAtTime_whole_product t time k).
Qed.

Lemma getAtTime_at_frame_time_witness :
  getAtTime track_1x2 1 = Ok (Some (getAtFramePos track_1x2 (Z.of_nat 1))).
Proof.
  apply (getAtTime_at_frame_time track_1x2 1 1).
  - reflexivity.
  - simpl. lia.
Defined.

(** X4.  A track that does not loop stays on its last frame: at every time
    for which the product [frameRate*time] is at least [nFrames],
    [getAtTime] returns the view [getAtFramePos(nFrames-1)], for every
    interpolation type. *)
Theorem getAtTime_past_end_not_looping (t : AnimationTrack) (time : Q) :
  loop t = false ->
  (inject_Z (Z.of_nat (nFrames t)) <= frameRate t * time)%Q ->
  getAtTime t time
  = Ok (Some (getAtFramePos t (Z.of_nat (nFrames t) - 1))).
Proof.
  intros Hloop Hraw.
  assert (H0 : (0 <= frameRate t * time)%Q).
  { eapply Qle_trans; [|exact Hraw].
    change 0%Q with (inject_Z 0). rewrite <- Zle_Qle. lia. }
  assert (Htr : (Z.of_nat (nFrames t) <= Py.trunc (frameRate t * time))%Z).
  { rewrite trunc_nonneg_floor by assumption.
    rewrite <- (Qfloor_Z (Z.of_nat (nFrames t))).
    now apply Qfloor_resp_le. }
  unfold getAtTime, getFrameIndexAtTime, Py.modf. rewrite Hloop.
  destruct (Z.leb_spec (Z.of_nat (nFrames t)) (Py.trunc (frameRate t * time)));
    [|lia].
  simpl orb. cbv iota. now rewrite frame_bounds_eq.
Qed.

Lemma getAtTime_past_end_not_looping_witness :
  getAtTime track_once (5 # 2)
  = Ok (Some (getAtFramePos track_once (Z.of_nat (nFrames track_once) - 1))).
Proof.
  apply (getAtTime_past_end_not_looping track_once (5 # 2)).
  - reflexivity.
  - unfold Qle. simpl. lia.
Defined.

(** X2.  For a time that is not negative [getFrameIndexAtTime] returns:
    a fraction in [0, 1); for a looping track the frame
    [floor(frameRate*time) mod nFrames] and the fractional part of
    [frameRate*time]; for a track that does not loop the last frame with
    fraction 0 from the end of the play time on, and before it the frame
    [floor(frameRate*time)] with the fractional part. *)
Theorem getFrameIndexAtTime_at_nonneg_time (t : AnimationTrack) (time : Q) :
  nFrames t <> 0 -> (0 <= frameRate t * time)%Q ->
  let raw := (frameRate t * time)%Q in
  exists frameIdx fraction,
    getFrameIndexAtTime t time = Ok (frameIdx, fraction) /\
    (0 <= fraction)%Q /\ (fraction < 1)%Q /\
    (loop t = true ->
       frameIdx = (Qfloor raw mod Z.of_nat (nFrames t))%Z /\
       fraction = (raw - inject_Z (Qfloor raw))%Q) /\
    (loop t = false -> (Z.of_nat (nFrames t) <= Qfloor raw)%Z ->
       frameIdx = (Z.of_nat (nFrames t) - 1)%Z /\ fraction = 0%Q) /\
    (loop t = false -> (Qfloor raw < Z.of_nat (nFrames t))%Z ->
       frameIdx = Qfloor raw /\
       fraction = (raw - inject_Z (Qfloor raw))%Q).
Proof. exact (getFrameIndexAtTime_nonneg t time). Qed.

Lemma getFrameIndexAtTime_at_nonneg_time_witness :
  let t := track_1x4 in
  let raw := (frameRate t * (7 # 60))%Q in
  exists frameIdx fraction,
    getFrameIndexAtTime t (7 # 60) = Ok (frameIdx, fraction) /\
    (0 <= fraction)%Q /\ (fraction < 1)%Q /\
    (loop t = true ->
       frameIdx = (Qfloor raw mod Z.of_nat (nFrames t))%Z /\
       fraction = (raw - inject_Z (Qfloor raw))%Q) /\
    (loop t = false -> (Z.of_nat (nFrames t) <= Qfloor raw)%Z ->
       frameIdx = (Z.of_nat (nFrames t) - 1)%Z /\ fraction = 0%Q) /\
    (loop t = false -> (Qfloor raw < Z.of_nat (nFrames t))%Z ->
       frameIdx = Qfloor raw /\
       fraction = (raw - inject_Z (Qfloor raw))%Q).
Proof.
  apply (getFrameIndexAtTime_at_nonneg_time track_1x4 (7 # 60)).
  - simpl. lia.
  - unfold Qle. simpl. lia.
Defined.

(** ** sparsify *)

(** X6.  [sparsify] never changes the track, and it returns normally only
    when no frame would be dropped: the new rate is not above the old one,
    is not zero, and the quotient [frameRate/newFrameRate] truncates to 0
    or less.  In the remaining cases it raises. *)
Theorem sparsify_unchanged_and_returns_iff (newFrameRate : Q)
        (t : AnimationTrack) :
  snd (sparsify newFrameRate t) = t /\
  (fst (sparsify newFrameRate t) = Ok tt <->
   (newFrameRate <= frameRate t)%Q /\ ~ (newFrameRate == 0)%Q /\
   (Py.trunc (frameRate t / newFrameRate) <= 0)%Z).
Proof.
  split; [apply sparsify_state|].
  unfold sparsify, bind, get, raise, ret, liftE, assign_data.
  destruct (Qle_bool newFrameRate (frameRate t)) eqn:Ele; simpl negb.
  - apply Qle_bool_iff in Ele.
    destruct (Qeq_bool newFrameRate 0) eqn:Ez.
    + apply Qeq_bool_iff in Ez. simpl. split; [discriminate|tauto].
    + assert (Hnz : ~ (newFrameRate == 0)%Q).
      { intros E. apply Qeq_bool_iff in E. congruence. }
      destruct (Z.leb_spec (Py.trunc (frameRate t / newFrameRate)) 0).
      * simpl. tauto.
      * destruct (nBones t =? 0); [simpl; split; [discriminate|lia]|].
        destruct (fancy_index _ _); simpl; (split; [discriminate|lia]).
  - simpl. split; [discriminate|]. intros (Hle & _).
    apply Qle_bool_iff in Hle. congruence.
Qed.

(** X7.  The selection loop of [sparsify], on the [nBones*nFrames] indices
    of a buffer: it selects, in order, all bone indices of exactly the
    frames whose number is a multiple of [dropFrames], that is
    [ceil(nFrames/dropFrames)] frames beginning with frame 0. *)
Theorem sparsify_selection (nb nf d : nat) :
  nb <> 0 -> d <> 0 ->
  sparsify_indxs (nb * nf) nb (Z.of_nat d)
  = flat_map (fun f => seq (f * nb) nb) (kept_frames nf (Z.of_nat d)) /\
  (forall f, In f (kept_frames nf (Z.of_nat d)) <-> f < nf /\ f mod d = 0) /\
  length (kept_frames nf (Z.of_nat d)) = (nf + d - 1) / d /\
  length (sparsify_indxs (nb * nf) nb (Z.of_nat d)) = nb * ((nf + d - 1) / d).
Proof.
  intros Hnb Hd.
  pose proof (sparsify_indxs_spec nb nf (Z.of_nat d) Hnb ltac:(lia)) as Hsel.
  pose proof (kept_frames_length nf d Hd) as Hlen.
  split; [exact Hsel|]. split; [|split; [exact Hlen|]].
  - intros f. unfold kept_frames. rewrite filter_In, in_seq.
    rewrite Z.eqb_eq, <- Nat2Z.inj_mod.
    split; intros [H1 H2]; (split; lia).
  - rewrite Hsel, <- Hlen. clear.
    generalize (kept_frames nf (Z.of_nat d)) as l.
    induction l as [|f l IH]; simpl; [lia|].
    rewrite length_app, length_seq, IH. lia.
Qed.

Lemma sparsify_selection_witness :
  sparsify_indxs (2 * 5) 2 (Z.of_nat 2)
  = flat_map (fun f => seq (f * 2) 2) (kept_frames 5 (Z.of_nat 2)) /\
  (forall f, In f (kept_frames 5 (Z.of_nat 2)) <-> f < 5 /\ f mod 2 = 0) /\
  length (kept_frames 5 (Z.of_nat 2)) = (5 + 2 - 1) / 2 /\
  length (sparsify_indxs (2 * 5) 2 (Z.of_nat 2)) = 2 * ((5 + 2 - 1) / 2).
Proof.
  apply (sparsify_selection 2 5 2); discriminate.
Defined.

(** ** Baked data *)

(** X8.  After a [bake] that returns, the track is baked and its [data]
    property serves a buffer of [dataLen] matrices while the primary buffer
    is the one it was; the invariant of the constructor still holds.
    [resetBaked] then makes [data] serve the primary buffer again, and gives
    back exactly the track from before the bake when that one was not
    baked. *)
Theorem bake_then_resetBaked
        {Sk} `{SkeletonLaws Sk} (t : AnimationTrack) (sk : Sk) :
  track_ok t -> accepts_full_poses Sk -> boneCount sk = nBones t ->
  let t' := fst (snd (bake (t, sk))) in
  isBaked t' = true /\
  length (data t') = dataLen t /\
  _data t' = _data t /\
  track_ok t' /\
  data (resetBaked t') = _data t /\
  (isBaked t = false -> resetBaked t' = t).
Proof.
  intros Hok Hacc Hcnt t'.
  destruct (bake_run t sk Hok Hacc Hcnt) as (sk' & Hrun & _).
  subst t'. rewrite Hrun. cbn [fst snd].
  set (bk := flat_map _ _).
  assert (Hlen : length bk = dataLen t).
  { subst bk. rewrite flat_skin_length, pose_states_length, length_map,
      length_seq. destruct Hok as (_ & Hd & _). lia. }
  destruct Hok as (Hn & Hd & Hl & Hb).
  split; [reflexivity|]. split; [exact Hlen|]. split; [reflexivity|].
  split; [|split].
  - unfold track_ok. simpl. repeat split; auto. intros b [= <-]. exact Hlen.
  - reflexivity.
  - unfold isBaked. destruct t as [? ? ? ? ? ? ? ? [b|] ?]; simpl;
      [discriminate|reflexivity].
Qed.

Lemma bake_then_resetBaked_witness :
  let t' := fst (snd (bake (track_2x2, rest_skeleton_2))) in
  isBaked t' = true /\
  length (data t') = dataLen track_2x2 /\
  _data t' = _data track_2x2 /\
  track_ok t' /\
  data (resetBaked t') = _data track_2x2 /\
  (isBaked track_2x2 = false -> resetBaked t' = track_2x2).
Proof.
  apply (bake_then_resetBaked track_2x2 rest_skeleton_2).
  - repeat split; try reflexivity; discriminate.
  - intros p s Hlen. simpl in *. rewrite Hlen, Nat.eqb_refl. reflexivity.
  - reflexivity.
Defined.

(** The pose [bake] sets for frame [f] is the [nBones] matrices that
    start at index [f] of the primary buffer.  That is the slice of frame
    [f] (indices [f*nBones] onwards) for frame 0 and for every frame of a
    track of at most one bone. *)
Theorem bake_slice_frame (t : AnimationTrack) (f : nat) :
  track_ok t -> f < nFrames t ->
  bake_slice t f = firstn (nBones t) (skipn f (_data t)) /\
  (f = 0 \/ nBones t <= 1 -> bake_slice t f = frame_slice t f).
Proof.
  intros Hok Hf. pose proof Hok as (Hn & Hd & Hl & _).
  assert (Hs : bake_slice t f = firstn (nBones t) (skipn f (_data t))).
  { unfold bake_slice, Py.slice, Py.slice_bounds, Py.window, Py.norm_index.
    cbn [fst snd].
    destruct (Z.ltb_spec (Z.of_nat f) 0); [lia|].
    destruct (Z.ltb_spec (Z.of_nat (f + nBones t)) 0); [lia|].
    rewrite Hl, Hd.
    destruct (nBones t) as [|nb] eqn:Enb.
    - simpl. rewrite Nat.add_0_r, Z.sub_diag. reflexivity.
    - rewrite !Z.min_l by nia. f_equal; [lia|]. f_equal. lia. }
  split; [exact Hs|]. intros Hcase. rewrite Hs. unfold frame_slice.
  destruct Hcase as [-> | Hnb]; [reflexivity|].
  destruct (nBones t) as [|[|nb]]; [reflexivity| |lia].
  now rewrite Nat.mul_1_r.
Qed.

Lemma bake_slice_frame_witness :
  bake_slice track_1x4 2 = firstn (nBones track_1x4) (skipn 2 (_data track_1x4))
  /\ (2 = 0 \/ nBones track_1x4 <= 1 ->
      bake_slice track_1x4 2 = frame_slice track_1x4 2).
Proof.
  apply (bake_slice_frame track_1x4 2).
  - repeat split; try reflexivity; discriminate.
  - simpl. lia.
Defined.

(** ** Weight compilation: names, merging, truncation *)

Lemma accumulate_resolving (names : list string) (m : raw_mapping)
      (ws : ws_dict) :
  fold_left (ws_bone names) (filter (resolves names) m) ws
  = fold_left (ws_bone names) m ws.
Proof.
  revert ws. induction m as [|item m IH]; intros ws; simpl; [reflexivity|].
  destruct (resolves names item) eqn:E; simpl; [apply IH|].
  rewrite IH. f_equal. unfold ws_bone. unfold resolves in E.
  destruct (b_lookup names (fst item)); [discriminate|reflexivity].
Qed.

(** X9.  With an explicit vertex count, items whose bone name the skeleton
    does not know have no effect on the compiled result: compiling the
    mapping gives what compiling it without those items gives, an exception
    included. *)
Theorem compile_skips_unknown_bones
        (m : raw_mapping) (names : list string) (n nWeights : nat) :
  _compileVertexWeights m names (Some n) nWeights
  = _compileVertexWeights (filter (resolves names) m) names (Some n) nWeights.
Proof.
  unfold _compileVertexWeights, accumulate.
  now rewrite accumulate_resolving.
Qed.

(** The dictionary of bone names: a name resolves to the last bone that
    carries it, and fails to resolve exactly when no bone carries it. *)
Lemma b_lookup_from_spec (names : list string) (i : nat) (bname : string) :
  match b_lookup_from names i bname with
  | Some j => i <= j /\ nth_error names (j - i) = Some bname /\
              forall k, j - i < k -> nth_error names k <> Some bname
  | None => ~ In bname names
  end.
Proof.
  revert i. induction names as [|n names IH]; intros i; simpl.
  - intros [].
  - specialize (IH (S i)).
    destruct (b_lookup_from names (S i) bname) as [j|].
    + destruct IH as (Hij & Hnth & Hlast). split; [lia|].
      replace (j - i) with (S (j - S i)) by lia. split; [exact Hnth|].
      intros k Hk. destruct k as [|k]; [lia|]. simpl. apply Hlast. lia.
    + destruct (String.eqb_spec n bname) as [->|Hne].
      * split; [lia|]. rewrite Nat.sub_diag. split; [reflexivity|].
        intros k Hk. destruct k as [|k]; [lia|]. simpl.
        intros E. apply IH. eapply nth_error_In; eassumption.
      * intros [E|Hin]; [contradiction|]. now apply IH.
Qed.

Lemma bone_total_nil (x : nat) : bone_total [] x = 0%Q.
Proof. reflexivity. Qed.

Lemma bone_total_app (l1 l2 : list (Q * nat)) (x : nat) :
  (bone_total (l1 ++ l2) x == bone_total l1 x + bone_total l2 x)%Q.
Proof.
  unfold bone_total. now rewrite filter_app, map_app, qsum_app.
Qed.

Lemma bone_total_cons (e : Q * nat) (l : list (Q * nat)) (x : nat) :
  (bone_total (e :: l) x
   == (if snd e =? x then fst e else 0) + bone_total l x)%Q.
Proof.
  unfold bone_total. simpl. destruct (snd e =? x); simpl.
  - apply qsum_cons.
  - ring.
Qed.

Lemma add_weight_bone_total (l : list (Q * nat)) (w : Q) (b x : nat) :
  (bone_total (add_weight l w b) x
   == bone_total l x + (if b =? x then w else 0))%Q.
Proof.
  unfold add_weight. destruct (find_bone l b) as [d|] eqn:Ef.
  - destruct (find_bone_some l b d Ef) as [Hd Hs].
    rewrite replace_nth_spec by assumption.
    pose proof (nth_split_at d (0%Q, 0) l Hd) as Hl.
    remember (firstn d l) as pre eqn:Epre.
    remember (skipn (S d) l) as post eqn:Epost. clear Epre Epost.
    destruct (nth d l (0%Q, 0)) as [w0 b0] eqn:En. simpl in Hs. subst b0.
    simpl fst. rewrite Hl.
    rewrite !bone_total_app, !bone_total_cons. simpl fst. simpl snd.
    destruct (b =? x); ring.
  - rewrite bone_total_app, bone_total_cons, bone_total_nil.
    simpl fst. simpl snd. destruct (b =? x); ring.
Qed.

Lemma merge_from_bone_total (cs l : list (Q * nat)) (x : nat) :
  (bone_total (fold_left merge_step cs l) x
   == bone_total l x + bone_total cs x)%Q.
Proof.
  revert l. induction cs as [|[w b] cs IH]; intros l.
  - simpl. rewrite bone_total_nil. ring.
  - cbn [fold_left]. rewrite IH. unfold merge_step. simpl fst. simpl snd.
    rewrite add_weight_bone_total, bone_total_cons. simpl fst. simpl snd.
    ring.
Qed.

Lemma merged_bone_total (cs : list (Q * nat)) (x : nat) :
  (bone_total (merged cs) x == bone_total cs x)%Q.
Proof.
  unfold merged. rewrite merge_from_bone_total, bone_total_nil. ring.
Qed.

Lemma bone_total_unique (l : list (Q * nat)) (w : Q) (b : nat) :
  NoDup (map snd l) -> In (w, b) l -> (bone_total l b == w)%Q.
Proof.
  induction l as [|[w0 b0] l IH]; intros Hnd Hin; [destruct Hin|].
  simpl in Hnd. inversion Hnd as [|? ? Hnin Hnd']; subst.
  rewrite bone_total_cons. simpl fst. simpl snd.
  destruct Hin as [E|Hin].
  - injection E as -> ->. rewrite Nat.eqb_refl.
    assert (Hz : bone_total l b = 0%Q).
    { unfold bone_total.
      replace (filter (fun e => snd e =? b) l) with (@nil (Q * nat));
        [reflexivity|].
      symmetry. clear -Hnin. induction l as [|[w1 b1] l IHl]; [reflexivity|].
      simpl in *. destruct (Nat.eqb_spec b1 b) as [->|]; [tauto|].
      apply IHl. tauto. }
    rewrite Hz. ring.
  - destruct (Nat.eqb_spec b0 b) as [->|_].
    + exfalso. apply Hnin. apply in_map_iff. exists (w, b). now split.
    + rewrite (IH Hnd' Hin). ring.
Qed.

(** X10.  Duplicate assignments are merged.  When a vertex has no more
    entries than the capacity, its compiled record consists of one slot per
    bone that assigns to the vertex, each holding the sum of all weights
    that bone assigns to it, followed by zero slots. *)
Theorem compile_merges_duplicates
        (m : raw_mapping) (names : list string) (vertexCount : option nat)
        (K n v : nat) :
  In K [1; 3; 4; 17] ->
  effective_vertexCount m vertexCount = Ok n ->
  Forall (fun i => i < n) (vertex_indices m) ->
  contributions names m v <> [] ->
  entry_count names m v <= K ->
  exists c fl,
    _compileVertexWeights m names vertexCount K = Ok c /\
    nth_error (records c) v
    = Some (map swap_entry fl ++ repeat (0, 0%Q) (K - length fl)) /\
    length fl = entry_count names m v /\
    NoDup (map snd fl) /\
    (forall b, In b (map snd fl)
               <-> In b (map snd (contributions names m v))) /\
    (forall w b, In (w, b) fl ->
                 (w == bone_total (contributions names m v) b)%Q).
Proof.
  intros HK Heff Hidx Hv Hcount.
  destruct (compile_records m names vertexCount K n HK Heff Hidx)
    as (rows & Hrun & _ & Hin & _).
  specialize (Hin v Hv). cbv zeta in Hin.
  set (cs := contributions names m v) in *.
  destruct (merged_spec cs) as (Hnd & Hlen & _).
  destruct (merge_from_spec cs [] (NoDup_nil _)) as (_ & Hbones & _).
  fold (merged cs) in Hbones.
  unfold entry_count in *. fold cs in Hcount |- *. rewrite <- Hlen in *.
  assert (Hfin : finalize K (merged cs) = sorted_reverse (merged cs)).
  { unfold finalize. destruct (Nat.ltb_spec K (length (merged cs))); [lia|].
    reflexivity. }
  rewrite Hfin in Hin.
  pose proof (sorted_reverse_perm (merged cs)) as Hperm.
  exists (mkCompiled (dtype_for K) rows), (sorted_reverse (merged cs)).
  split; [exact Hrun|]. split; [exact Hin|].
  split; [now apply Permutation_length|]. split; [|split].
  - eapply Permutation_NoDup; [|exact Hnd].
    apply Permutation_map. now symmetry.
  - intros b.
    assert (Hp : Permutation (map snd (sorted_reverse (merged cs)))
                             (map snd (merged cs)))
      by now apply Permutation_map.
    split; intros Hb.
    + eapply Permutation_in in Hb; [|exact Hp].
      apply Hbones in Hb. simpl in Hb. tauto.
    + eapply Permutation_in; [symmetry; exact Hp|].
      apply Hbones. now right.
  - intros w b Hwb. eapply Permutation_in in Hwb; [|exact Hperm].
    rewrite <- merged_bone_total. symmetry.
    now apply bone_total_unique.
Qed.

Lemma compile_merges_duplicates_witness :
  let m := [("arm"%string, ([1; 1], [(1 # 2)%Q; (1 # 4)%Q]));
            ("leg"%string, ([1; 0], [(1 # 3)%Q; (1 # 4)%Q]))] in
  let names := ["arm"%string; "leg"%string] in
  exists c fl,
    _compileVertexWeights m names None 4 = Ok c /\
    nth_error (records c) 1
    = Some (map swap_entry fl ++ repeat (0, 0%Q) (4 - length fl)) /\
    length fl = entry_count names m 1 /\
    NoDup (map snd fl) /\
    (forall b, In b (map snd fl)
               <-> In b (map snd (contributions names m 1))) /\
    (forall w b, In (w, b) fl ->
                 (w == bone_total (contributions names m 1) b)%Q).
Proof.
  apply (compile_merges_duplicates
           [("arm"%string, ([1; 1], [(1 # 2)%Q; (1 # 4)%Q]));
            ("leg"%string, ([1; 0], [(1 # 3)%Q; (1 # 4)%Q]))]
           ["arm"%string; "leg"%string] None 4 2 1).
  - simpl. tauto.
  - reflexivity.
  - simpl. repeat constructor.
  - vm_compute. discriminate.
  - vm_compute. lia.
Defined.

(** X11.  A bone name resolves to the last bone of the skeleton that carries
    it, and fails to resolve exactly when no bone carries it. *)
Theorem b_lookup_last (names : list string) (bname : string) :
  (b_lookup names bname = None <-> ~ In bname names) /\
  (forall j, b_lookup names bname = Some j <->
             nth_error names j = Some bname /\
             forall k, j < k -> nth_error names k <> Some bname).
Proof.
  pose proof (b_lookup_from_spec names 0 bname) as Hs.
  unfold b_lookup. destruct (b_lookup_from names 0 bname) as [j0|].
  - destruct Hs as (_ & Hnth & Hlast). rewrite Nat.sub_0_r in *.
    split.
    + split; [discriminate|]. intros Hnin. exfalso. apply Hnin.
      eapply nth_error_In; eassumption.
    + intros j. split.
      * intros [= <-]. split; [exact Hnth|].
        intros k Hk. apply Hlast. lia.
      * intros [Hj Hjlast]. f_equal.
        destruct (Nat.lt_trichotomy j0 j) as [Hlt|[->|Hgt]];
          [|reflexivity|].
        -- exfalso. apply (Hlast j); [lia|exact Hj].
        -- exfalso. apply (Hjlast j0); assumption.
  - split; [tauto|]. intros j. split; [discriminate|].
    intros [Hj _]. exfalso. apply Hs. eapply nth_error_In; eassumption.
Qed.

Lemma in_skipn_in {A} (l : list A) (k : nat) (x : A) :
  In x (skipn k l) -> In x l.
Proof.
  revert k. induction l as [|y l IH]; intros [|k] Hx; simpl in *; auto.
  right. eapply IH. exact Hx.
Qed.

Lemma sorted_prefix_dominates (l : list (Q * nat)) (k : nat) :
  entries_desc l ->
  forall a b, In a (firstn k l) -> In b (skipn k l) -> (fst b <= fst a)%Q.
Proof.
  unfold entries_desc. intros Hs. revert k.
  induction Hs as [|x l Hs IH Hall]; intros k a b Ha Hb.
  - destruct k; destruct Ha.
  - destruct k as [|k]; [destruct Ha|]. simpl in Ha, Hb.
    destruct Ha as [<-|Ha].
    + rewrite Forall_forall in Hall. apply Hall.
      eapply in_skipn_in. exact Hb.
    + eapply IH; eassumption.
Qed.

(** X12.  Truncation keeps the largest weights.  When a vertex has more
    entries than the capacity [K] and the raw weights assigned to it are
    positive, its merged entries split into [K] kept and the remaining
    dropped ones such that no dropped weight exceeds a kept one, the kept
    weights have a positive sum, and the compiled record consists of exactly
    the kept entries, in descending order, each weight divided by the sum of
    the kept weights. *)
Theorem compile_truncates_to_largest
        (m : raw_mapping) (names : list string) (vertexCount : option nat)
        (K n v : nat) :
  In K [1; 3; 4; 17] ->
  effective_vertexCount m vertexCount = Ok n ->
  Forall (fun i => i < n) (vertex_indices m) ->
  Forall (fun e => (0 < fst e)%Q) (contributions names m v) ->
  K < entry_count names m v ->
  exists c kept dropped,
    _compileVertexWeights m names vertexCount K = Ok c /\
    Permutation (kept ++ dropped) (merged (contributions names m v)) /\
    length kept = K /\
    (forall a b, In a kept -> In b dropped -> (fst b <= fst a)%Q) /\
    descending (map fst kept) /\
    (0 < qsum (map fst kept))%Q /\
    nth_error (records c) v
    = Some (map (fun e => (snd e, (fst e / qsum (map fst kept))%Q)) kept).
Proof.
  intros HK Heff Hidx Hpos Hcount.
  assert (Hv : contributions names m v <> []).
  { intros E. unfold entry_count in Hcount. rewrite E in Hcount.
    simpl in Hcount. lia. }
  destruct (compile_records m names vertexCount K n HK Heff Hidx)
    as (rows & Hrun & _ & Hin & _).
  specialize (Hin v Hv). cbv zeta in Hin.
  set (cs := contributions names m v) in *.
  destruct (merged_spec cs) as (_ & Hlen & _ & Hmpos).
  specialize (Hmpos Hpos).
  unfold entry_count in Hcount. fold cs in Hcount. rewrite <- Hlen in Hcount.
  pose proof (sorted_reverse_perm (merged cs)) as Hperm.
  pose proof (sorted_reverse_sorted (merged cs)) as Hsorted.
  pose proof (Permutation_length Hperm) as Hsl.
  assert (Hspos : Forall (fun e => (0 < fst e)%Q) (sorted_reverse (merged cs)))
    by (eapply Permutation_Forall; [symmetry; exact Hperm|assumption]).
  set (sl := sorted_reverse (merged cs)) in *.
  assert (Hfin : finalize K (merged cs) = renormalize (firstn K sl)).
  { unfold finalize. destruct (Nat.ltb_spec K (length (merged cs))); [|lia].
    reflexivity. }
  rewrite Hfin in Hin.
  assert (Hkl : length (firstn K sl) = K) by (rewrite length_firstn; lia).
  assert (HK0 : 0 < K) by (destruct HK as [<-|[<-|[<-|[<-|[]]]]]; lia).
  exists (mkCompiled (dtype_for K) rows), (firstn K sl), (skipn K sl).
  split; [exact Hrun|]. split; [now rewrite firstn_skipn|].
  split; [exact Hkl|]. split; [now apply sorted_prefix_dominates|].
  split; [|split].
  - rewrite <- firstn_map. apply descending_firstn.
    now apply entries_desc_weights.
  - apply qsum_pos.
    + intros E. apply (f_equal (@length Q)) in E.
      rewrite length_map, Hkl in E. simpl in E. lia.
    + apply Forall_map. now apply Forall_firstn.
  - simpl records. rewrite Hin. unfold renormalize.
    rewrite length_map, Hkl, Nat.sub_diag. simpl repeat.
    rewrite app_nil_r, map_map. reflexivity.
Qed.

Lemma compile_truncates_to_largest_witness :
  let m := [("arm"%string, ([1; 1], [(1 # 2)%Q; (1 # 4)%Q]));
            ("leg"%string, ([1; 0], [(1 # 3)%Q; (1 # 4)%Q]))] in
  let names := ["arm"%string; "leg"%string] in
  exists c kept dropped,
    _compileVertexWeights m names None 1 = Ok c /\
    Permutation (kept ++ dropped) (merged (contributions names m 1)) /\
    length kept = 1 /\
    (forall a b, In a kept -> In b dropped -> (fst b <= fst a)%Q) /\
    descending (map fst kept) /\
    (0 < qsum (map fst kept))%Q /\
    nth_error (records c) 1
    = Some (map (fun e => (snd e, (fst e / qsum (map fst kept))%Q)) kept).
Proof.
  apply (compile_truncates_to_largest
           [("arm"%string, ([1; 1], [(1 # 2)%Q; (1 # 4)%Q]));
            ("leg"%string, ([1; 0], [(1 # 3)%Q; (1 # 4)%Q]))]
           ["arm"%string; "leg"%string] None 1 2 1).
  - simpl. tauto.
  - reflexivity.
  - simpl. repeat constructor.
  - vm_compute. repeat constructor.
  - vm_compute. lia.
Defined.

(** ** Weight compilation: the array *)

(** X13.  When every vertex index lies inside the array and the capacity is
    1, 3, 4 or 17, the compilation returns an array of the layout of that
    capacity with one record per vertex, every record of exactly [K] slots;
    a vertex to which no known bone assigns a weight has the all-zero
    record. *)
Theorem compile_shape
        (m : raw_mapping) (names : list string) (vertexCount : option nat)
        (K n : nat) :
  In K [1; 3; 4; 17] ->
  effective_vertexCount m vertexCount = Ok n ->
  Forall (fun i => i < n) (vertex_indices m) ->
  exists c,
    _compileVertexWeights m names vertexCount K = Ok c /\
    dtype c = dtype_for K /\ slots (dtype c) = K /\
    length (records c) = n /\
    Forall (fun r => length r = K) (records c) /\
    (forall v, v < n -> contributions names m v = [] ->
               nth_error (records c) v = Some (repeat (0, 0%Q) K)).
Proof.
  intros HK Heff Hidx.
  destruct (compile_records m names vertexCount K n HK Heff Hidx)
    as (rows & Hrun & Hlen & Hin & Hout).
  exists (mkCompiled (dtype_for K) rows). simpl.
  split; [exact Hrun|]. split; [reflexivity|].
  split; [now apply slots_dtype_for|]. split; [exact Hlen|].
  split; [|exact Hout].
  apply Forall_forall. intros r Hr.
  destruct (In_nth_error _ _ Hr) as [v Hv].
  pose proof (nth_error_length _ _ _ Hv) as Hvn. rewrite Hlen in Hvn.
  destruct (contributions names m v) as [|c0 cs] eqn:E.
  - rewrite (Hout v Hvn E) in Hv. injection Hv as <-. apply repeat_length.
  - assert (Hne : contributions names m v <> []) by (rewrite E; discriminate).
    specialize (Hin v Hne). cbv zeta in Hin. rewrite Hin in Hv.
    injection Hv as <-.
    rewrite length_app, length_map, repeat_length, finalize_length. lia.
Qed.

Lemma compile_shape_witness :
  let m := [("arm"%string, ([2], [(1 # 2)%Q]))] in
  exists c,
    _compileVertexWeights m ["arm"%string] None 3 = Ok c /\
    dtype c = dtype_for 3 /\ slots (dtype c) = 3 /\
    length (records c) = 3 /\
    Forall (fun r => length r = 3) (records c) /\
    (forall v, v < 3 -> contributions ["arm"%string] m v = [] ->
               nth_error (records c) v = Some (repeat (0, 0%Q) 3)).
Proof.
  apply (compile_shape [("arm"%string, ([2], [(1 # 2)%Q]))]
                       ["arm"%string] None 3 3).
  - simpl. tauto.
  - reflexivity.
  - simpl. repeat constructor.
Defined.

Lemma replace_nth_Forall {A} (P : A -> Prop) (i : nat) (v : A) (l : list A) :
  Forall P l -> P v -> Forall P (replace_nth i v l).
Proof.
  intros Hl Hv. revert i. induction Hl as [|x l Hx Hl IH]; intros [|i]; simpl;
    constructor; auto.
Qed.

Lemma write_vertex_out_of_range (rows : list (list (nat * Q))) (v : nat)
      (l : list (Q * nat)) :
  length rows <= v -> l <> [] -> write_vertex rows (v, l) = Raise IndexError.
Proof.
  intros Hv Hl. destruct l as [|e l]; [contradiction|].
  unfold write_vertex. cbn [fst snd enumerate_from]. rewrite foldE_cons.
  unfold assign_fields. cbn [fst].
  destruct (nth_error rows v) eqn:E; [|reflexivity].
  apply nth_error_length in E. lia.
Qed.

Lemma write_vertex_in_range (K : nat) (rows : list (list (nat * Q)))
      (v : nat) (l : list (Q * nat)) :
  Forall (fun r => length r = K) rows -> v < length rows -> length l <= K ->
  exists rows',
    write_vertex rows (v, l) = Ok rows' /\
    length rows' = length rows /\
    Forall (fun r => length r = K) rows'.
Proof.
  intros Hrows Hv Hl.
  destruct (nth_error rows v) as [r|] eqn:E;
    [|apply nth_error_None in E; lia].
  assert (Hr : length r = K).
  { rewrite Forall_forall in Hrows. apply Hrows.
    eapply nth_error_In; eassumption. }
  rewrite (write_vertex_ok v l rows r E) by lia.
  eexists. split; [reflexivity|]. split; [apply replace_nth_length|].
  apply replace_nth_Forall; [assumption|].
  rewrite length_app, length_map, length_skipn. lia.
Qed.

Lemma write_all_out_of_range (K : nat) (ws : ws_dict) :
  forall rows : list (list (nat * Q)),
    Forall (fun r => length r = K) rows ->
    (forall k l, In (k, l) ws -> l <> [] /\ length l <= K) ->
    (exists k, In k (map fst ws) /\ length rows <= k) ->
    foldE write_vertex ws rows = Raise IndexError.
Proof.
  induction ws as [|[v l] ws IH]; intros rows Hrows Hall (k & Hk & Hout).
  - destruct Hk.
  - rewrite foldE_cons.
    destruct (Hall v l (or_introl eq_refl)) as [Hne Hlen].
    destruct (Nat.lt_ge_cases v (length rows)) as [Hv|Hv].
    + destruct (write_vertex_in_range K rows v l Hrows Hv Hlen)
        as (rows' & -> & Hl' & Hrows').
      apply IH; [assumption| |].
      * intros k' l' Hin. apply (Hall k' l'). now right.
      * exists k. rewrite Hl'. split; [|assumption].
        simpl in Hk. destruct Hk as [<-|Hk]; [lia|assumption].
    + now rewrite write_vertex_out_of_range.
Qed.

(** X14.  A vertex index outside the array is an [IndexError]: when a known
    bone assigns a weight to a vertex whose index is not below the vertex
    count the compiler works with, the compilation raises [IndexError]. *)
Theorem compile_vertex_out_of_range
        (m : raw_mapping) (names : list string) (vertexCount : option nat)
        (K n v : nat) :
  In K [1; 3; 4; 17] ->
  effective_vertexCount m vertexCount = Ok n ->
  n <= v -> contributions names m v <> [] ->
  _compileVertexWeights m names vertexCount K = Raise IndexError.
Proof.
  intros HK Heff Hv Hc. unfold _compileVertexWeights.
  unfold effective_vertexCount in Heff. rewrite Heff.
  pose proof (slots_dtype_for K HK) as Hslots.
  assert (HK0 : 0 < K) by (destruct HK as [<-|[<-|[<-|[<-|[]]]]]; lia).
  rewrite (write_all_out_of_range K); [reflexivity| | |].
  - simpl. apply Forall_forall. intros r Hr. apply repeat_spec in Hr.
    subst r. unfold zero_record. now rewrite repeat_length.
  - intros k l Hin.
    destruct (finalize_all_in _ _ _ _ Hin) as (l0 & Hin0 & ->).
    destruct (accumulate_entry _ _ _ _ Hin0) as [Hcs ->].
    pose proof (merged_nonempty _ Hcs) as Hm.
    pose proof (finalize_length K (merged (contributions names m k))) as Hl.
    split; [|lia]. intros E. rewrite E in Hl. simpl in Hl.
    destruct (merged (contributions names m k)); [contradiction|].
    simpl in Hl. lia.
  - exists v. rewrite finalize_all_keys. simpl. rewrite repeat_length.
    split; [|exact Hv].
    pose proof (accumulate_get names m v) as Hg.
    destruct (contributions names m v) as [|c0 cs]; [contradiction|].
    apply ws_get_some_in in Hg.
    apply in_map_iff. eexists. split; [|exact Hg]. reflexivity.
Qed.

Lemma compile_vertex_out_of_range_witness :
  _compileVertexWeights [("arm"%string, ([5], [(1 # 2)%Q]))]
                        ["arm"%string] (Some 3) 4
  = Raise IndexError.
Proof.
  apply (compile_vertex_out_of_range
           [("arm"%string, ([5], [(1 # 2)%Q]))] ["arm"%string] (Some 3)
           4 3 5).
  - simpl. tauto.
  - reflexivity.
  - lia.
  - vm_compute. discriminate.
Defined.

(** ** VertexBoneWeights *)

Lemma assign_fields_length (v i : nat) (w : Q) (b : nat)
      (rows rows' : list (list (nat * Q))) :
  assign_fields v i w b rows = Ok rows' -> length rows' = length rows.
Proof.
  unfold assign_fields. destruct (nth_error rows v); [|discriminate].
  destruct (Py.set_nth i (b, w) l); [|discriminate].
  intros [= <-]. apply replace_nth_length.
Qed.

Lemma foldE_length {A B} (f : list A -> B -> exc (list A)) (l : list B) :
  (forall a x a', f a x = Ok a' -> length a' = length a) ->
  forall a a', foldE f l a = Ok a' -> length a' = length a.
Proof.
  intros Hf. induction l as [|x l IH]; intros a a'.
  - intros [= <-]. reflexivity.
  - rewrite foldE_cons. destruct (f a x) as [a1|e] eqn:E; [|discriminate].
    intros Hrest. rewrite (IH _ _ Hrest). eapply Hf; eassumption.
Qed.

Lemma write_all_length (ws : ws_dict) (rows rows' : list (list (nat * Q))) :
  foldE write_vertex ws rows = Ok rows' -> length rows' = length rows.
Proof.
  apply foldE_length. intros a [v l] a'. unfold write_vertex.
  apply foldE_length. intros r ie r'. apply assign_fields_length.
Qed.

(** The compiled array has as many records as the vertex count the compiler
    worked with, and compiling again with that count gives the same
    array. *)
Lemma compile_again (m : raw_mapping) (names : list string)
      (vertexCount : option nat) (K : nat) (c : compiled) :
  _compileVertexWeights m names vertexCount K = Ok c ->
  effective_vertexCount m vertexCount = Ok (length (records c)) /\
  _compileVertexWeights m names (Some (length (records c))) K = Ok c.
Proof.
  unfold _compileVertexWeights, effective_vertexCount.
  destruct (match vertexCount with
            | Some n => Ok n
            | None => infer_vertexCount m
            end) as [n|e] eqn:En; [|discriminate].
  destruct (foldE write_vertex _ _) as [rows|e] eqn:Ew; [|discriminate].
  intros [= <-]. cbn [records].
  pose proof (write_all_length _ _ _ Ew) as Hl.
  assert (Hn : length rows = n) by (rewrite Hl; simpl; apply repeat_length).
  rewrite Hn. split; [reflexivity|].
  now rewrite Ew.
Qed.

Lemma compileData_eq (names : list string) (nWeights : option nat)
      (w : VertexBoneWeights.t) :
  VertexBoneWeights.compileData names nWeights w
  = let w1 := match nWeights with
              | Some k => VertexBoneWeights.set_nWeights k w
              | None => w
              end in
    match _compileVertexWeights (VertexBoneWeights._data w1) names
            (VertexBoneWeights._vertexCount w1)
            (VertexBoneWeights._nWeights w1) with
    | Ok c => (Ok tt,
               VertexBoneWeights.set_vertexCount
                 (Some (length (records c)))
                 (VertexBoneWeights.set_compiled (Some c) w1))
    | Raise e => (Raise e, w1)
    end.
Proof. destruct nWeights; reflexivity. Qed.

(** X15.  [compileData] caches its result.  When it returns, the object is
    compiled, its vertex count is the length of the compiled array, and
    compiling again, directly or after [clearCompiled], returns and leaves
    exactly the same object.  When it raises, the cached array and the
    vertex count are the ones from before the call. *)
Theorem compileData_caches (names : list string) (nWeights : option nat)
        (w : VertexBoneWeights.t) :
  let r := VertexBoneWeights.compileData names nWeights w in
  (fst r = Ok tt ->
   VertexBoneWeights.isCompiled (snd r) = true /\
   (exists c, VertexBoneWeights._compiled (snd r) = Some c /\
              VertexBoneWeights._vertexCount (snd r)
              = Some (length (records c))) /\
   VertexBoneWeights.compileData names None (snd r) = (Ok tt, snd r) /\
   VertexBoneWeights.compileData names None
     (VertexBoneWeights.clearCompiled (snd r)) = (Ok tt, snd r)) /\
  (fst r <> Ok tt ->
   VertexBoneWeights._compiled (snd r) = VertexBoneWeights._compiled w /\
   VertexBoneWeights._vertexCount (snd r)
   = VertexBoneWeights._vertexCount w /\
   VertexBoneWeights._data (snd r) = VertexBoneWeights._data w).
Proof.
  intros r. subst r. rewrite compileData_eq. cbv zeta.
  set (w1 := match nWeights with
             | Some k => VertexBoneWeights.set_nWeights k w
             | None => w
             end).
  assert (Hsame : VertexBoneWeights._compiled w1
                  = VertexBoneWeights._compiled w /\
                  VertexBoneWeights._vertexCount w1
                  = VertexBoneWeights._vertexCount w /\
                  VertexBoneWeights._data w1 = VertexBoneWeights._data w)
    by (subst w1; destruct nWeights; repeat split).
  destruct (_compileVertexWeights (VertexBoneWeights._data w1) names
              (VertexBoneWeights._vertexCount w1)
              (VertexBoneWeights._nWeights w1)) as [c|e] eqn:Ec.
  - split; [|intros Hne; now contradiction Hne].
    intros _. cbn [fst snd].
    destruct (compile_again _ _ _ _ _ Ec) as [_ Hagain].
    split; [reflexivity|]. split; [eexists; split; reflexivity|].
    split; rewrite compileData_eq;
      cbn [VertexBoneWeights._data VertexBoneWeights._vertexCount
           VertexBoneWeights._nWeights VertexBoneWeights._compiled
           VertexBoneWeights.set_vertexCount VertexBoneWeights.set_compiled
           VertexBoneWeights.clearCompiled];
      rewrite Hagain; reflexivity.
  - split; [discriminate|]. intros _. exact Hsame.
Qed.

(** ** Skinning: errors, shape, translation *)

Lemma mapE_ext {A B} (f g : A -> exc B) (l : list A) :
  (forall x, In x l -> f x = g x) -> mapE f l = mapE g l.
Proof.
  induction l as [|x l IH]; intros Hfg; [reflexivity|].
  rewrite !mapE_cons, Hfg by now left.
  rewrite IH; [reflexivity|]. intros y Hy. apply Hfg. now right.
Qed.

Lemma mapE_ok_iff {A B} (f : A -> exc B) (l : list A) (ys : list B) :
  mapE f l = Ok ys <-> Forall2 (fun x y => f x = Ok y) l ys.
Proof.
  revert ys. induction l as [|x l IH]; intros ys.
  - split.
    + intros [= <-]. constructor.
    + intros H. inversion H. reflexivity.
  - rewrite mapE_cons. split.
    + destruct (f x) as [y|e] eqn:Ex; [|discriminate].
      destruct (mapE f l) as [r|e] eqn:Er; [|discriminate].
      intros [= <-]. constructor; [assumption|]. now apply IH.
    + intros H. inversion H as [|? y ? r Hy Hr]; subst.
      rewrite Hy. apply IH in Hr. now rewrite Hr.
Qed.

Lemma sub3_zero_translation (m : Mat) :
  sub3 3 (zero_translation m) = sub3 3 m.
Proof. reflexivity. Qed.

(** X16.  Coordinates without a fourth component are not affected by the
    translation of the pose: for an array that is not 4 columns wide,
    [skinMesh] gives the same result, an exception included, when the
    translation column of every pose matrix is zeroed. *)
Theorem skinMesh_directions_ignore_translation
        (coords : coord_array) (W : compiled) (P : list Mat) :
  ncols coords <> 4 ->
  skinMesh coords W (map zero_translation P) = skinMesh coords W P.
Proof.
  intros Hc. unfold skinMesh.
  destruct (Nat.eqb_spec (ncols coords) 4) as [|_]; [contradiction|].
  set (k := if dtype_len (dtype W) =? 4 * 2 then 4
            else if dtype_len (dtype W) =? 2 then 1
            else if dtype_len (dtype W) =? 17 * 2 then 17 else 3).
  assert (Hacc : forall r, accum_vertex 3 k (map zero_translation P) r
                           = accum_vertex 3 k P r).
  { intros r. unfold accum_vertex.
    rewrite (mapE_ext (skin_term 3 (map zero_translation P)) (skin_term 3 P));
      [reflexivity|].
    intros slot _. unfold skin_term. rewrite nth_error_map.
    destruct (nth_error P (fst slot)); cbn [option_map]; [|reflexivity].
    now rewrite sub3_zero_translation. }
  rewrite (mapE_ext _ (accum_vertex 3 k P)) by (intros; apply Hacc).
  reflexivity.
Qed.

Lemma skinMesh_directions_ignore_translation_witness :
  skinMesh (mkCoords 3 [[1%Q; 2%Q; 3%Q]]) (mkCompiled L1 [[(0, 1%Q)]])
           (map zero_translation [diag 2])
  = skinMesh (mkCoords 3 [[1%Q; 2%Q; 3%Q]]) (mkCompiled L1 [[(0, 1%Q)]])
             [diag 2].
Proof.
  apply (skinMesh_directions_ignore_translation
           (mkCoords 3 [[1%Q; 2%Q; 3%Q]]) (mkCompiled L1 [[(0, 1%Q)]])
           [diag 2]).
  simpl. discriminate.
Defined.

Lemma grid_add_rows (a b : list (list Q)) :
  length a = 3 -> length b = 3 -> length (grid_add a b) = 3.
Proof.
  intros Ha Hb. unfold grid_add. rewrite length_map, length_combine. lia.
Qed.

Lemma skin_term_rows (c : nat) (P : list Mat) (slot : nat * Q)
      (g : list (list Q)) :
  skin_term c P slot = Ok g -> length g = 3 /\ fst slot < length P.
Proof.
  unfold skin_term. destruct (nth_error P (fst slot)) as [m|] eqn:E;
    [|discriminate].
  intros [= <-]. split.
  - reflexivity.
  - now apply nth_error_length in E.
Qed.

Lemma accum_vertex_ok (c k : nat) (P : list Mat) (r : list (nat * Q))
      (a : list (list Q)) :
  length r = k ->
  accum_vertex c k P r = Ok a ->
  length a = 3 /\ Forall (fun slot => fst slot < length P) r.
Proof.
  intros Hk. unfold accum_vertex. rewrite firstn_all2 by lia.
  destruct (mapE (skin_term c P) r) as [ts|e] eqn:E; [|discriminate].
  apply mapE_ok_iff in E.
  assert (Hin : Forall (fun slot => fst slot < length P) r).
  { clear -E. induction E as [|x y l l' Hxy _ IH]; constructor; [|exact IH].
    now apply skin_term_rows in Hxy. }
  assert (Hrows : Forall (fun g => length g = 3) ts).
  { clear -E. induction E as [|x y l l' Hxy _ IH]; constructor; [|exact IH].
    now apply skin_term_rows in Hxy. }
  destruct ts as [|t ts]; [discriminate|]. intros [= <-].
  split; [|exact Hin].
  inversion Hrows as [|? ? Ht Hts]; subst. clear -Ht Hts.
  revert t Ht. induction Hts as [|g ts Hg _ IH]; intros t Ht; simpl;
    [exact Ht|].
  apply IH. now apply grid_add_rows.
Qed.

Lemma accum_vertex_in_range (c k : nat) (P : list Mat) (r : list (nat * Q)) :
  length r = k -> 0 < k ->
  Forall (fun slot => fst slot < length P) r ->
  exists a, accum_vertex c k P r = Ok a.
Proof.
  intros Hk Hk0 Hin. unfold accum_vertex. rewrite firstn_all2 by lia.
  assert (E : exists ts, mapE (skin_term c P) r = Ok ts /\
                         length ts = length r).
  { clear -Hin. induction Hin as [|slot r Hs _ (ts & Hts & Hl)].
    - exists []. split; reflexivity.
    - rewrite mapE_cons. unfold skin_term at 1.
      destruct (nth_error P (fst slot)) as [m|] eqn:E;
        [|apply nth_error_None in E; lia].
      rewrite Hts. eexists. split; [reflexivity|]. simpl. now rewrite Hl. }
  destruct E as (ts & -> & Hl).
  destruct ts as [|t ts]; [simpl in Hl; lia|]. eexists. reflexivity.
Qed.

Lemma columns_fit_spec (n : nat) :
  columns_fit (if n =? 4 then 4 else 3) n = true <-> 3 <= n \/ n = 1.
Proof.
  unfold columns_fit. rewrite orb_true_iff, !Nat.eqb_eq.
  destruct (Nat.eqb_spec n 4); lia.
Qed.

Lemma einsum_vertex_fits (c : nat) (a : list (list Q)) (row : list Q) :
  columns_fit c (length row) = true ->
  exists r, einsum_vertex c (a, row) = Ok r /\ length r = length a.
Proof.
  unfold columns_fit, einsum_vertex.
  rewrite orb_true_iff, !Nat.eqb_eq, length_firstn. intros Hfit.
  destruct (Nat.eqb_spec (Nat.min c (length row)) c) as [E|E].
  - eexists. split; [reflexivity|apply length_map].
  - destruct Hfit as [Hfit|Hfit]; [contradiction|].
    assert (Hl : length row = 1) by lia.
    destruct row as [|x [|y row]]; try discriminate.
    eexists. split; [reflexivity|apply length_map].
Qed.

Lemma mapE_all_ok {A B} (f : A -> exc B) (Q1 : B -> Prop) (l : list A) :
  (forall x, In x l -> exists y, f x = Ok y /\ Q1 y) ->
  exists ys, mapE f l = Ok ys /\ length ys = length l /\ Forall Q1 ys.
Proof.
  induction l as [|x l IH]; intros Hall.
  - exists []. repeat split. constructor.
  - destruct (Hall x (or_introl eq_refl)) as (y & Hy & HQ).
    destruct IH as (ys & Hys & Hl & HF).
    { intros z Hz. apply Hall. now right. }
    exists (y :: ys). rewrite mapE_cons, Hy, Hys.
    split; [reflexivity|]. split; [simpl; now rewrite Hl|].
    now constructor.
Qed.

(** The [einsum] of [skinMesh] on arrays whose columns fit: it returns
    exactly when the numbers of matrices and of vertices agree or one of
    them is 1. *)
Lemma einsum_stage (c : nat) (accum : list (list (list Q)))
      (rows : list (list Q)) :
  Forall (fun a => length a = 3) accum ->
  Forall (fun row => columns_fit c (length row) = true) rows ->
  let r := if length accum =? length rows
           then mapE (einsum_vertex c) (combine accum rows)
           else match accum, rows with
                | [a], rows => mapE (fun v => einsum_vertex c (a, v)) rows
                | accs, [v] => mapE (fun a => einsum_vertex c (a, v)) accs
                | _, _ => Raise ValueError
                end in
  ((exists res, r = Ok res) <->
   length accum = length rows \/ length accum = 1 \/ length rows = 1) /\
  (forall res, r = Ok res ->
     Forall (fun row => length row = 3) res /\
     (length accum = length rows -> length res = length rows) /\
     (length accum = 1 -> length res = length rows) /\
     (length rows = 1 -> length res = length accum)).
Proof.
  intros Ha Hr r.
  assert (Hzip : exists ys, mapE (einsum_vertex c) (combine accum rows) = Ok ys
                            /\ length ys = length (combine accum rows)
                            /\ Forall (fun row => length row = 3) ys).
  { apply mapE_all_ok. intros [a v] Hin.
    pose proof (in_combine_l _ _ _ _ Hin) as Hia.
    pose proof (in_combine_r _ _ _ _ Hin) as Hiv.
    rewrite Forall_forall in Ha, Hr.
    destruct (einsum_vertex_fits c a v (Hr v Hiv)) as (y & Hy & Hl).
    exists y. split; [exact Hy|]. rewrite Hl. now apply Ha. }
  assert (Hone : forall a, length a = 3 ->
             exists ys, mapE (fun v => einsum_vertex c (a, v)) rows = Ok ys
                        /\ length ys = length rows
                        /\ Forall (fun row => length row = 3) ys).
  { intros a Hla. apply mapE_all_ok. intros v Hiv.
    rewrite Forall_forall in Hr.
    destruct (einsum_vertex_fits c a v (Hr v Hiv)) as (y & Hy & Hl).
    exists y. split; [exact Hy|]. now rewrite Hl. }
  assert (Hvert : forall v, columns_fit c (length v) = true ->
             exists ys, mapE (fun a => einsum_vertex c (a, v)) accum = Ok ys
                        /\ length ys = length accum
                        /\ Forall (fun row => length row = 3) ys).
  { intros v Hv. apply mapE_all_ok. intros a Hia.
    rewrite Forall_forall in Ha.
    destruct (einsum_vertex_fits c a v Hv) as (y & Hy & Hl).
    exists y. split; [exact Hy|]. rewrite Hl. now apply Ha. }
  subst r. destruct (Nat.eqb_spec (length accum) (length rows)) as [El|El].
  - destruct Hzip as (ys & Hys & Hl & HF). rewrite Hys.
    rewrite length_combine, El, Nat.min_id in Hl.
    split; [split; [tauto|intros _; eauto]|].
    intros res [= <-]. split; [exact HF|]. repeat split; lia.
  - destruct accum as [|a [|a' accum]].
    + (* no matrix *)
      destruct rows as [|v [|v' rows]]; [simpl in El; lia| |].
      * inversion Hr as [|? ? Hv _]; subst.
        destruct (Hvert v Hv) as (ys & Hys & Hl & HF). rewrite Hys.
        split; [split; [intros _; right; right; reflexivity|eauto]|].
        intros res [= <-]. split; [exact HF|]. simpl in *. repeat split; lia.
      * split; [split; [intros [res [=]]|simpl; lia]|discriminate].
    + (* a single matrix *)
      inversion Ha as [|? ? Hla _]; subst.
      destruct (Hone a Hla) as (ys & Hys & Hl & HF). rewrite Hys.
      split; [split; [intros _; right; left; reflexivity|eauto]|].
      intros res [= <-]. split; [exact HF|]. simpl in *. repeat split; lia.
    + (* several matrices *)
      destruct rows as [|v [|v' rows]].
      * split; [split; [intros [res [=]]|simpl; lia]|discriminate].
      * inversion Hr as [|? ? Hv _]; subst.
        destruct (Hvert v Hv) as (ys & Hys & Hl & HF). rewrite Hys.
        split; [split; [intros _; right; right; reflexivity|eauto]|].
        intros res [= <-]. split; [exact HF|]. simpl in *. repeat split; lia.
      * split; [split; [intros [res [=]]|simpl in *; lia]|discriminate].
Qed.

(** X17.  [skinMesh] on compiled records of the width of their layout and
    a coordinate array returns exactly when every bone index lies inside
    the pose buffer, the numbers of records and of vertices agree or one of
    them is 1 (a single record or a single vertex is broadcast), and the
    array has at least 3 columns or a single one (which is broadcast).
    What it returns has rows of 3 components: one per vertex when there is
    one record per vertex or a single record, one per record when there is
    a single vertex. *)
Theorem skinMesh_returns_iff
        (coords : coord_array) (W : compiled) (P : list Mat) :
  Forall (fun r => length r = slots (dtype W)) (records W) ->
  Forall (fun row => length row = ncols coords) (crows coords) ->
  ((exists res, skinMesh coords W P = Ok res) <->
   Forall (Forall (fun slot => fst slot < length P)) (records W) /\
   (length (records W) = length (crows coords) \/
    length (records W) = 1 \/ length (crows coords) = 1) /\
   (3 <= ncols coords \/ ncols coords = 1)) /\
  (forall res, skinMesh coords W P = Ok res ->
     Forall (fun row => length row = 3) res /\
     (length (records W) = length (crows coords) ->
      length res = length (crows coords)) /\
     (length (records W) = 1 -> length res = length (crows coords)) /\
     (length (crows coords) = 1 -> length res = length (records W))).
Proof.
  intros Hwf Hrows. unfold skinMesh.
  set (c := if ncols coords =? 4 then 4 else 3).
  set (k := if dtype_len (dtype W) =? 4 * 2 then 4
            else if dtype_len (dtype W) =? 2 then 1
            else if dtype_len (dtype W) =? 17 * 2 then 17 else 3).
  assert (Hk : k = slots (dtype W)) by (subst k; destruct (dtype W); reflexivity).
  assert (Hk0 : 0 < k) by (rewrite Hk; destruct (dtype W); simpl; lia).
  pose proof (columns_fit_spec (ncols coords)) as Hcf. fold c in Hcf.
  destruct (mapE (accum_vertex c k P) (records W)) as [accum|e] eqn:Eacc.
  - apply mapE_ok_iff in Eacc.
    assert (Hal : length accum = length (records W))
      by (symmetry; eapply Forall2_length; eassumption).
    assert (Hin : Forall (Forall (fun slot => fst slot < length P))
                         (records W)).
    { clear -Eacc Hwf Hk. induction Eacc as [|r a l l' Hra _ IH];
        constructor.
      - inversion Hwf; subst. eapply accum_vertex_ok; [|exact Hra]. congruence.
      - apply IH. now inversion Hwf. }
    assert (Hrows3 : Forall (fun a => length a = 3) accum).
    { clear -Eacc Hwf Hk. induction Eacc as [|r a l l' Hra _ IH];
        constructor.
      - inversion Hwf; subst. eapply accum_vertex_ok; [|exact Hra]. congruence.
      - apply IH. now inversion Hwf. }
    destruct (columns_fit c (ncols coords)) eqn:Ecf.
    + assert (Hfit : Forall (fun row => columns_fit c (length row) = true)
                            (crows coords)).
      { eapply Forall_impl; [|exact Hrows]. intros row Hl. cbv beta in Hl.
        now rewrite Hl. }
      destruct (einsum_stage c accum (crows coords) Hrows3 Hfit) as [G1 G2].
      cbv zeta in G1, G2. rewrite <- Hal.
      split.
      * rewrite G1. split; [|tauto].
        intros Hshape. split; [exact Hin|]. split; [exact Hshape|].
        now apply Hcf.
      * exact G2.
    + split; [|discriminate]. split; [intros [res [=]]|].
      intros (_ & _ & Hc). apply Hcf in Hc. discriminate.
  - split; [|discriminate]. split; [intros [res Hres]; discriminate|].
    intros (Hin & _ & _). exfalso.
    assert (Hex : exists accum, mapE (accum_vertex c k P) (records W)
                                = Ok accum).
    { clear Eacc. induction Hwf as [|r l Hr _ IH]; [eexists; reflexivity|].
      inversion Hin as [|? ? Hinr Hinl]; subst.
      destruct (IH Hinl) as [acc Hacc].
      destruct (accum_vertex_in_range c k P r) as [a Ha]; auto; [congruence|].
      rewrite mapE_cons, Ha, Hacc. eexists; reflexivity. }
    destruct Hex as [accum Hacc]. congruence.
Qed.

Lemma skinMesh_returns_iff_witness :
  let coords := mkCoords 4 [[1; 2; 3; 1]%Q; [4; 5; 6; 1]%Q] in
  let W := mkCompiled L1 [[(0, 1%Q)]] in
  let P := [diag 1] in
  ((exists res, skinMesh coords W P = Ok res) <->
   Forall (Forall (fun slot => fst slot < length P)) (records W) /\
   (length (records W) = length (crows coords) \/
    length (records W) = 1 \/ length (crows coords) = 1) /\
   (3 <= ncols coords \/ ncols coords = 1)) /\
  (forall res, skinMesh coords W P = Ok res ->
     Forall (fun row => length row = 3) res /\
     (length (records W) = length (crows coords) ->
      length res = length (crows coords)) /\
     (length (records W) = 1 -> length res = length (crows coords)) /\
     (length (crows coords) = 1 -> length res = length (records W))).
Proof.
  apply (skinMesh_returns_iff
           (mkCoords 4 [[1; 2; 3; 1]%Q; [4; 5; 6; 1]%Q])
           (mkCompiled L1 [[(0, 1%Q)]]) [diag 1]).
  - repeat constructor.
  - repeat constructor.
Defined.

(** One record and two vertices: the record is broadcast, and both
    vertices are moved by its matrix.  Two records and one vertex: the
    vertex is broadcast, with one row per record. *)
Example skinMesh_broadcasts :
  skinMesh (mkCoords 4 [[1; 2; 3; 1]%Q; [4; 5; 6; 1]%Q])
           (mkCompiled L1 [[(0, 1%Q)]]) [diag 1]
  = Ok [[6; 8; 10]%Q; [9; 11; 13]%Q] /\
  skinMesh (mkCoords 3 [[1; 2; 3]%Q])
           (mkCompiled L1 [[(0, 1%Q)]; [(0, 2%Q)]]) [diag 1]
  = Ok [[1; 2; 3]%Q; [2; 4; 6]%Q] /\
  skinMesh (mkCoords 3 [[1; 2; 3]%Q; [4; 5; 6]%Q; [7; 8; 9]%Q])
           (mkCompiled L1 [[(0, 1%Q)]; [(0, 2%Q)]]) [diag 1]
  = Raise ValueError.
Proof. repeat split; vm_compute; reflexivity. Qed.

(** ** Skinning: a pose shared by all bones *)

Lemma skin_terms_uniform (c : nat) (M : Mat) (P : list Mat)
      (r : list (nat * Q)) :
  Forall (fun m => m = M) P ->
  Forall (fun slot => fst slot < length P) r ->
  mapE (skin_term c P) r
  = Ok (map (fun w => grid_scale w (sub3 c M)) (map snd r)).
Proof.
  intros HP. induction 1 as [|[b w] r Hb Hr IH]; [reflexivity|].
  rewrite mapE_cons, IH. unfold skin_term. simpl fst in *. simpl snd.
  destruct (nth_error P b) as [m|] eqn:E.
  - rewrite Forall_forall in HP. rewrite (HP m (nth_error_In _ _ E)).
    reflexivity.
  - apply nth_error_None in E. lia.
Qed.

Lemma accum_vertex_uniform (c k : nat) (M : Mat) (P : list Mat)
      (r : list (nat * Q)) :
  Forall (fun m => m = M) P ->
  Forall (fun slot => fst slot < length P) r ->
  length r = k -> 0 < k ->
  (qsum (map snd r) == 1)%Q ->
  exists a, accum_vertex c k P r = Ok a /\
            grid_eq a (grid_scale 1 (sub3 c M)).
Proof.
  intros HP Hidx Hlen Hk Hsum. unfold accum_vertex.
  rewrite firstn_all2 by lia. rewrite (skin_terms_uniform c M) by assumption.
  destruct r as [|[b w] r]; [simpl in Hlen; lia|].
  set (G := sub3 c M).
  change (map (fun w0 => grid_scale w0 G) (map snd ((b, w) :: r)))
    with (grid_scale w G :: map (fun w0 => grid_scale w0 G) (map snd r)).
  eexists. split; [reflexivity|].
  eapply grid_eq_trans.
  - apply (accum_same_matrix G (map snd r) _ w). apply grid_eq_refl.
  - apply grid_scale_compat.
    change (map snd ((b, w) :: r)) with (w :: map snd r) in Hsum.
    rewrite qsum_cons in Hsum. exact Hsum.
Qed.

Lemma dot_compat (a a' v : list Q) :
  row_eq a a' -> (dot a v == dot a' v)%Q.
Proof.
  unfold dot. intros Ha. revert v.
  induction Ha as [|x x' a a' Hx Ha IH]; intros v; [reflexivity|].
  destruct v as [|y v]; [reflexivity|]. simpl.
  rewrite !qsum_cons, IH, Hx. reflexivity.
Qed.

Lemma row_scale_one (r : list Q) : row_eq (map (fun x => 1 * x)%Q r) r.
Proof.
  induction r as [|x r IH]; constructor; [ring|exact IH].
Qed.

Lemma transform_compat (c : nat) (M : Mat) (a : list (list Q)) (v : list Q) :
  grid_eq a (grid_scale 1 (sub3 c M)) ->
  row_eq (map (fun arow => dot arow (firstn c v)) a) (transform c M v).
Proof.
  unfold transform, grid_scale. generalize (sub3 c M) as g. intros g Ha.
  remember (map (map (fun x => (1 * x)%Q)) g) as g1 eqn:Eg.
  revert g Eg. induction Ha as [|r r1 a g1 Hr Ha IH]; intros g Eg.
  - destruct g; [constructor|discriminate].
  - destruct g as [|r0 g]; [discriminate|]. injection Eg as -> ->.
    simpl. constructor; [|now apply IH].
    apply dot_compat. eapply row_eq_trans; [exact Hr|apply row_scale_one].
Qed.

(** When every bone has the pose [M] and the weights of every vertex sum
    to 1, each vertex is transformed by [M]. *)
Lemma skin_uniform_pose (coords : coord_array) (W : compiled) (P : list Mat)
      (M : Mat) :
  ncols coords = 3 \/ ncols coords = 4 ->
  Forall (fun row => length row = ncols coords) (crows coords) ->
  length (records W) = length (crows coords) ->
  Forall (fun r => length r = slots (dtype W) /\
                   Forall (fun slot => fst slot < length P) r /\
                   (qsum (map snd r) == 1)%Q) (records W) ->
  Forall (fun m => m = M) P ->
  exists res,
    skinMesh coords W P = Ok res /\
    grid_eq res (map (transform (used_cols coords) M) (crows coords)).
Proof.
  intros Hc Hrows Hlen Hrec HP. unfold skinMesh, used_cols.
  set (c := if ncols coords =? 4 then 4 else 3).
  assert (Hcc : c = ncols coords)
    by (subst c; destruct Hc as [-> | ->]; reflexivity).
  set (k := if dtype_len (dtype W) =? 4 * 2 then 4
            else if dtype_len (dtype W) =? 2 then 1
            else if dtype_len (dtype W) =? 17 * 2 then 17 else 3).
  assert (Hk : k = slots (dtype W)) by (subst k; destruct (dtype W); reflexivity).
  assert (Hk0 : 0 < k) by (rewrite Hk; destruct (dtype W); simpl; lia).
  destruct (mapE_Forall2 (accum_vertex c k P)
              (fun _ a => grid_eq a (grid_scale 1 (sub3 c M)))
              (records W)) as (accum & Hacc & Hall).
  { eapply Forall_impl; [|exact Hrec]. intros r (Hl & Hi & Hs).
    apply (accum_vertex_uniform c k M); auto. congruence. }
  rewrite Hacc.
  assert (Hal : length accum = length (crows coords))
    by (rewrite <- (Forall2_length Hall); exact Hlen).
  assert (Hw : columns_fit c (ncols coords) = true)
    by (rewrite <- Hcc; unfold columns_fit;
        rewrite Nat.min_id, Nat.eqb_refl; reflexivity).
  rewrite Hw, Hal, Nat.eqb_refl.
  assert (Hacc' : Forall (fun a => grid_eq a (grid_scale 1 (sub3 c M))) accum)
    by (clear -Hall; induction Hall; constructor; assumption).
  assert (Hrows' : Forall (fun row => length row = c) (crows coords))
    by (rewrite Hcc; exact Hrows).
  clear -Hacc' Hrows' Hal. revert Hacc' Hrows' Hal.
  generalize (crows coords) as rows. intros rows. revert rows.
  induction accum as [|a acc IH]; intros rows Ha Hr Hl;
    destruct rows as [|row rows]; try discriminate.
  - exists []. split; [reflexivity|constructor].
  - inversion Ha; subst. inversion Hr; subst.
    destruct (IH rows) as (rest & Hrest & Hreq); auto.
    cbn [combine]. rewrite mapE_cons. unfold einsum_vertex at 1.
    assert (Hf : length (firstn c row) = c)
      by (rewrite length_firstn; lia).
    rewrite Hf, Nat.eqb_refl, Hrest.
    eexists. split; [reflexivity|]. cbn [map]. constructor; [|exact Hreq].
    now apply transform_compat.
Qed.

(** X18.  A pose shared by all bones moves the mesh rigidly: when every
    matrix of the pose buffer is [M] and the weights of every vertex sum to
    1, [skinMesh] returns for every vertex the product of [M[:3,:c]] with the
    vertex (in exact arithmetic), however the weights are spread over the
    bones. *)
Theorem skinMesh_uniform_pose
        (coords : coord_array) (W : compiled) (P : list Mat) (M : Mat) :
  ncols coords = 3 \/ ncols coords = 4 ->
  Forall (fun row => length row = ncols coords) (crows coords) ->
  length (records W) = length (crows coords) ->
  Forall (fun r => length r = slots (dtype W) /\
                   Forall (fun slot => fst slot < length P) r /\
                   (qsum (map snd r) == 1)%Q) (records W) ->
  Forall (fun m => m = M) P ->
  exists res,
    skinMesh coords W P = Ok res /\
    grid_eq res (map (transform (used_cols coords) M) (crows coords)).
Proof. exact (skin_uniform_pose coords W P M). Qed.

Lemma skinMesh_uniform_pose_witness :
  exists res,
    skinMesh coords_2 weights_2 [diag 2; diag 2] = Ok res /\
    grid_eq res (map (transform (used_cols coords_2) (diag 2))
                     (crows coords_2)).
Proof.
  apply (skinMesh_uniform_pose coords_2 weights_2 [diag 2; diag 2] (diag 2)).
  - right. reflexivity.
  - repeat constructor.
  - reflexivity.
  - repeat constructor; simpl; lia.
  - repeat constructor.
Defined.

(** ** Empty tracks and poses *)

Lemma firstn_repeat_le {A} (x : A) (n k : nat) :
  k <= n -> firstn k (repeat x n) = repeat x k.
Proof.
  revert n. induction k as [|k IH]; intros n Hk; [reflexivity|].
  destruct n as [|n]; [lia|]. simpl. f_equal. apply IH. lia.
Qed.

Lemma frame_contents (t : AnimationTrack) (k : nat) :
  track_ok t -> k < nFrames t ->
  contents t (getAtFramePos t (Z.of_nat k))
  = firstn (nBones t) (skipn (k * nBones t) (data t)).
Proof.
  intros Hok Hk. pose proof (data_length t Hok) as Hl.
  unfold getAtFramePos, data_slice, contents. fold (data t).
  unfold Py.slice_bounds, Py.window, Py.norm_index. cbn [fst snd].
  rewrite Hl.
  destruct (Z.ltb_spec (Z.of_nat k * Z.of_nat (nBones t)) 0); [nia|].
  destruct (Z.ltb_spec ((Z.of_nat k + 1) * Z.of_nat (nBones t)) 0); [nia|].
  rewrite !Z.min_l by nia. f_equal; [nia|]. f_equal. nia.
Qed.

(** X19.  [emptyTrack(nFrames, nBones)] is valid pose data for a track of
    [nFrames] frames: the constructor accepts it, derives [nBones] bones
    from it, and every frame of the track consists of [nBones] identity
    matrices. *)
Theorem emptyTrack_frames nm (nframes nbones : nat) (framerate : Q) :
  nframes <> 0 ->
  exists t,
    init nm (emptyTrack nframes nbones) nframes framerate = Ok t /\
    track_ok t /\ nFrames t = nframes /\ nBones t = nbones /\
    (forall k, k < nframes ->
       contents t (getAtFramePos t (Z.of_nat k))
       = repeat mat_identity nbones).
Proof.
  intros Hn.
  destruct (init_outcomes nm (emptyTrack nframes nbones) nframes framerate)
    as (_ & _ & Hinit).
  assert (Hlen : length (emptyTrack nframes nbones) = nframes * nbones)
    by (unfold emptyTrack; apply repeat_length).
  assert (Hmod : length (emptyTrack nframes nbones) mod nframes = 0)
    by (rewrite Hlen, Nat.mul_comm; now apply Nat.Div0.mod_mul).
  destruct (Hinit Hn Hmod) as (t & Ht & Hok & Hnf & Hnb & Hd & Hdata & _).
  rewrite Hlen, Nat.mul_comm, Nat.div_mul in Hnb by assumption.
  exists t. split; [exact Ht|]. split; [exact Hok|]. split; [exact Hnf|].
  split; [exact Hnb|].
  intros k Hk. rewrite frame_contents by (try assumption; lia).
  rewrite Hdata, Hnb. unfold emptyTrack.
  rewrite skipn_repeat, firstn_repeat_le; [reflexivity|]. nia.
Qed.

Lemma emptyTrack_frames_witness :
  exists t,
    init "rest" (emptyTrack 3 2) 3 24 = Ok t /\
    track_ok t /\ nFrames t = 3 /\ nBones t = 2 /\
    (forall k, k < 3 ->
       contents t (getAtFramePos t (Z.of_nat k)) = repeat mat_identity 2).
Proof.
  apply (emptyTrack_frames "rest" 3 2 24). discriminate.
Defined.

Lemma transform_identity (c : nat) (v : list Q) :
  c = 3 \/ c = 4 -> length v = c ->
  row_eq (transform c mat_identity v) (firstn 3 v).
Proof.
  intros [-> | ->] Hlen.
  - destruct v as [|x [|y [|z [|? ?]]]]; try discriminate.
    unfold transform, dot, qsum. simpl. repeat constructor; ring.
  - destruct v as [|x [|y [|z [|w [|? ?]]]]]; try discriminate.
    unfold transform, dot, qsum. simpl. repeat constructor; ring.
Qed.

(** X20.  Skinning with a frame of an empty track leaves the mesh at rest:
    for a track built from [emptyTrack(nFrames, nBones)], coordinates of 3
    or 4 components and records whose bone indices are below [nBones] and
    whose weights sum to 1, [skinMesh] with the matrices of any frame
    returns the first three components of every vertex (in exact
    arithmetic). *)
Theorem skinMesh_empty_track
        nm (nframes nbones k : nat) (framerate : Q) (t : AnimationTrack)
        (coords : coord_array) (W : compiled) :
  init nm (emptyTrack nframes nbones) nframes framerate = Ok t ->
  k < nframes ->
  ncols coords = 3 \/ ncols coords = 4 ->
  Forall (fun row => length row = ncols coords) (crows coords) ->
  length (records W) = length (crows coords) ->
  Forall (fun r => length r = slots (dtype W) /\
                   Forall (fun slot => fst slot < nbones) r /\
                   (qsum (map snd r) == 1)%Q) (records W) ->
  exists res,
    skinMesh coords W (contents t (getAtFramePos t (Z.of_nat k))) = Ok res /\
    grid_eq res (map (firstn 3) (crows coords)).
Proof.
  intros Hinit Hk Hc Hrows Hlen Hrec.
  assert (Hn : nframes <> 0) by lia.
  destruct (emptyTrack_frames nm nframes nbones framerate Hn)
    as (t' & Ht' & _ & _ & _ & Hframes).
  rewrite Hinit in Ht'. injection Ht' as <-.
  rewrite (Hframes k Hk).
  destruct (skin_uniform_pose coords W (repeat mat_identity nbones)
                              mat_identity Hc Hrows Hlen)
    as (res & Hres & Heq).
  - eapply Forall_impl; [|exact Hrec]. intros r (H1 & H2 & H3).
    rewrite repeat_length. auto.
  - apply Forall_forall. intros m Hm. now apply repeat_spec in Hm.
  - exists res. split; [exact Hres|].
    eapply grid_eq_trans; [exact Heq|].
    assert (Hcu : used_cols coords = ncols coords)
      by (unfold used_cols; destruct Hc as [-> | ->]; reflexivity).
    clear -Hrows Hc Hcu. induction Hrows as [|row rows Hr _ IH];
      [constructor|].
    simpl. constructor; [|exact IH].
    apply transform_identity; [rewrite Hcu; exact Hc|congruence].
Qed.

Lemma skinMesh_empty_track_witness :
  exists res,
    skinMesh coords_2 weights_2
             (contents track_rest (getAtFramePos track_rest (Z.of_nat 1)))
    = Ok res /\
    grid_eq res (map (firstn 3) (crows coords_2)).
Proof.
  apply (skinMesh_empty_track "rest" 3 2 1 24 track_rest coords_2 weights_2).
  - reflexivity.
  - lia.
  - right. reflexivity.
  - repeat constructor.
  - reflexivity.
  - repeat constructor; simpl; lia.
Defined.

(** X21.  A pose is a single frame that does not depend on the time: the
    constructor of [Pose] accepts any list of matrices, giving one frame of
    [len(poseData)] bones whose [getData()] is that list; sampling it at any
    time, negative ones included, returns the same list; [sparsify] on it
    raises [NotImplementedError] and leaves it as it is. *)
Theorem Pose_is_time_independent nm (poseData : list Mat) :
  exists p,
    Pose_init nm poseData = Ok p /\
    nFrames p = 1 /\ nBones p = length poseData /\
    contents p (Pose_getData p) = poseData /\
    (forall time, sampleAtTime p time = Ok (Some poseData)) /\
    (forall r, Pose_sparsify r p = (Raise NotImplementedError, p)).
Proof.
  unfold Pose_init.
  destruct (init_outcomes nm poseData 1 1) as (_ & _ & Hinit).
  destruct (Hinit ltac:(discriminate) (Nat.mod_1_r _))
    as (p & Hp & Hok & Hnf & Hnb & Hd & Hdata & _ & Hloop & _ & Hi).
  rewrite Nat.div_1_r in Hnb.
  assert (Hget : contents p (Pose_getData p) = poseData).
  { unfold Pose_getData. change 0%Z with (Z.of_nat 0).
    rewrite (frame_contents p 0 Hok) by lia.
    rewrite Hdata, Hnb. simpl skipn. apply firstn_all. }
  exists p. split; [exact Hp|]. split; [exact Hnf|]. split; [exact Hnb|].
  split; [exact Hget|]. split; [|reflexivity].
  intros time. unfold sampleAtTime, getAtTime, getFrameIndexAtTime.
  destruct (Py.modf (frameRate p * time)) as [fraction frameIdx].
  rewrite Hloop, Hnf, Hi. change (1 =? 0) with false. cbv iota.
  change (Z.of_nat 1) with 1%Z. rewrite Z.mod_1_r.
  change (0 =? 0)%Z with true. rewrite orb_true_r.
  rewrite frame_bounds_eq. fold (Pose_getData p). now rewrite Hget.
Qed.

(** ** The animation registry of [AnimatedMesh] *)

Lemma dict_get_set {V} (d : AM.dict V) (k k' : string) (v : V) :
  AM.dict_get (AM.dict_set d k v) k'
  = if String.eqb k k' then Some v else AM.dict_get d k'.
Proof.
  induction d as [|[k0 v0] d IH]; simpl.
  - reflexivity.
  - destruct (String.eqb_spec k0 k) as [-> | Hne]; simpl.
    + destruct (String.eqb k k'); reflexivity.
    + rewrite IH. destruct (String.eqb_spec k0 k') as [-> | Hne'].
      * destruct (String.eqb_spec k k'); [congruence|reflexivity].
      * reflexivity.
Qed.

Lemma dict_get_keys {V} (d : AM.dict V) (k : string) :
  existsb (String.eqb k) (map fst d)
  = match AM.dict_get d k with Some _ => true | None => false end.
Proof.
  induction d as [|[k0 v0] d IH]; simpl; [reflexivity|].
  rewrite String.eqb_sym.
  destruct (String.eqb k0 k); simpl; [reflexivity|exact IH].
Qed.

Lemma dict_get_in {V} (d : AM.dict V) (k : string) :
  In k (map fst d) -> exists v, AM.dict_get d k = Some v.
Proof.
  induction d as [|[k0 v0] d IH]; simpl; [tauto|].
  intros [-> | Hin].
  - rewrite String.eqb_refl. eauto.
  - destruct (String.eqb k0 k); eauto.
Qed.

Lemma dict_get_not_in {V} (d : AM.dict V) (k : string) :
  ~ In k (map fst d) -> AM.dict_get d k = None.
Proof.
  induction d as [|[k0 v0] d IH]; simpl; [reflexivity|].
  intros Hn. destruct (String.eqb_spec k0 k); [tauto|]. apply IH. tauto.
Qed.

Lemma dict_del_absent {V} (d : AM.dict V) (k : string) :
  AM.dict_get d k = None -> AM.dict_del d k = None.
Proof.
  induction d as [|[k0 v0] d IH]; simpl; [reflexivity|].
  destruct (String.eqb k0 k); [discriminate|].
  intros Hg. now rewrite IH.
Qed.

Lemma dict_del_present {V} (d : AM.dict V) (k : string) (v : V) :
  NoDup (map fst d) -> AM.dict_get d k = Some v ->
  exists d', AM.dict_del d k = Some d' /\
             NoDup (map fst d') /\
             forall k', AM.dict_get d' k'
                        = if String.eqb k k' then None else AM.dict_get d k'.
Proof.
  induction d as [|[k0 v0] d IH]; simpl; [discriminate|].
  intros Hnd Hg. inversion Hnd as [|? ? Hnotin Hnd']; subst.
  destruct (String.eqb_spec k0 k) as [-> | Hne].
  - exists d. split; [reflexivity|]. split; [assumption|].
    intros k'. destruct (String.eqb_spec k k') as [<- | _]; [|reflexivity].
    now apply dict_get_not_in.
  - destruct (IH Hnd' Hg) as (d' & Hd & Hnd'' & Hget).
    exists ((k0, v0) :: d'). rewrite Hd. split; [reflexivity|]. split.
    + simpl. constructor; [|assumption].
      intros Hin. apply dict_get_in in Hin. destruct Hin as [w Hw].
      rewrite Hget in Hw. destruct (String.eqb k k0); [discriminate|].
      apply Hnotin. clear - Hw.
      induction d as [|[k1 v1] d IH]; simpl in *; [discriminate|].
      destruct (String.eqb_spec k1 k0); [now left|right; now apply IH].
    + intros k'. simpl. rewrite Hget.
      destruct (String.eqb_spec k0 k') as [-> | _]; [|reflexivity].
      destruct (String.eqb_spec k k'); [congruence|reflexivity].
Qed.

Lemma dict_set_keys_NoDup {V} (d : AM.dict V) (k : string) (v : V) :
  NoDup (map fst d) -> NoDup (map fst (AM.dict_set d k v)).
Proof.
  induction d as [|[k0 v0] d IH]; simpl; intros Hnd.
  - constructor; [intros []|constructor].
  - inversion Hnd as [|? ? Hnotin Hnd']; subst.
    destruct (String.eqb_spec k0 k) as [-> | Hne]; simpl.
    + now constructor.
    + constructor; [|now apply IH].
      intros Hin. apply dict_get_in in Hin. destruct Hin as [w Hw].
      rewrite dict_get_set in Hw.
      destruct (String.eqb_spec k k0); [congruence|].
      apply Hnotin. clear - Hw.
      induction d as [|[k1 v1] d IH]; simpl in *; [discriminate|].
      destruct (String.eqb_spec k1 k0); [now left|right; now apply IH].
Qed.

(** X22.  [addAnimation] registers a track under its own name:
    afterwards [getAnimation] of that name returns this very track (an
    earlier track of the same name is replaced), every other name resolves
    as before, and the names stay distinct. *)
Theorem addAnimation_then_getAnimation {S} (s : AM.state S) (anim : nat)
        (nm : string) :
  AM.getAnimation nm (AM.addAnimation anim s)
  = (if String.eqb (name (AM.track_of s anim)) nm then AM.Return anim
     else AM.getAnimation nm s)
  /\ AM.hasAnimation (name (AM.track_of s anim)) (AM.addAnimation anim s)
     = true
  /\ (NoDup (AM.getAnimations s) ->
      NoDup (AM.getAnimations (AM.addAnimation anim s))).
Proof.
  split; [|split].
  - unfold AM.getAnimation, AM.addAnimation. cbn [AM.__animations AM.set_animations].
    rewrite dict_get_set.
    destruct (String.eqb (name (AM.track_of s anim)) nm); reflexivity.
  - unfold AM.hasAnimation, AM.getAnimations, AM.addAnimation.
    cbn [AM.__animations AM.set_animations].
    rewrite dict_get_keys, dict_get_set, String.eqb_refl. reflexivity.
  - unfold AM.getAnimations, AM.addAnimation.
    cbn [AM.__animations AM.set_animations]. apply dict_set_keys_NoDup.
Qed.

(** X23.  [removeAnimation(name)]: a name that is not registered raises
    [KeyError] and changes nothing; a registered name is removed, the
    other names resolve as before, and the active animation is dropped
    exactly when its name is the removed one (also when the track that was
    registered under this name is another one). *)
Theorem removeAnimation_outcomes {S} (s : AM.state S) (nm : string) :
  NoDup (AM.getAnimations s) ->
  (AM.hasAnimation nm s = false ->
   AM.removeAnimation nm s = (AM.Throw AM.KeyError, s)) /\
  (AM.hasAnimation nm s = true ->
   exists d,
     AM.removeAnimation nm s
     = (AM.Return tt,
        AM.set_currentAnim
          (match AM.__currentAnim s with
           | Some a => if String.eqb (name (AM.track_of s a)) nm then None
                       else Some a
           | None => None
           end) (AM.set_animations d s)) /\
     NoDup (map fst d) /\
     forall other, AM.dict_get d other
                   = if String.eqb nm other then None
                     else AM.dict_get (AM.__animations s) other).
Proof.
  intros Hnd. unfold AM.hasAnimation, AM.getAnimations in *.
  rewrite dict_get_keys. split.
  - intros Hh. destruct (AM.dict_get (AM.__animations s) nm) eqn:Hg;
      [discriminate|].
    unfold AM.removeAnimation, AM.rbind, AM.rget.
    now rewrite (dict_del_absent _ _ Hg).
  - intros Hh. destruct (AM.dict_get (AM.__animations s) nm) as [v|] eqn:Hg;
      [|discriminate].
    destruct (dict_del_present _ _ _ Hnd Hg) as (d & Hd & Hnd' & Hget).
    exists d. split; [|split; assumption].
    unfold AM.removeAnimation, AM.rbind, AM.rget. rewrite Hd.
    unfold AM.rmodify, AM.rret.
    destruct (AM.__currentAnim s) as [a|] eqn:Hc.
    + destruct (String.eqb (name (AM.track_of s a)) nm); [reflexivity|].
      f_equal. destruct s; simpl in *. now subst.
    + f_equal. destruct s; simpl in *. now subst.
Qed.

Lemma removeAnimation_outcomes_witness :
  let s := AM.mkState (S := unit) [track_once_looping; track_once] [] None
                      [] [] [] true
                      [("loop"%string, 0); ("once"%string, 1)] (Some 0)
                      0%Q false false in
  exists d,
    AM.removeAnimation "loop"%string s
    = (AM.Return tt, AM.set_currentAnim None (AM.set_animations d s)) /\
    NoDup (map fst d) /\
    forall other, AM.dict_get d other
                  = if String.eqb "loop" other then None
                    else AM.dict_get (AM.__animations s) other.
Proof.
  intros s.
  assert (Hnd : NoDup (AM.getAnimations s)).
  { repeat constructor; simpl; intuition discriminate. }
  exact (proj2 (removeAnimation_outcomes s "loop"%string Hnd) eq_refl).
Defined.

Lemma nth_replace_nth {A} (a : nat) (v : A) (l : list A) (i : nat) (d : A) :
  nth i (replace_nth a v l) d
  = if (i =? a) && (a <? length l) then v else nth i l d.
Proof.
  revert a i. induction l as [|x l IH]; intros a i.
  - replace (a <? length (@nil A)) with false
      by (symmetry; apply Nat.ltb_ge; simpl; lia).
    rewrite andb_false_r. now destruct a.
  - destruct a as [|a], i as [|i]; simpl; try reflexivity.
    rewrite IH. reflexivity.
Qed.

Lemma track_of_resetBaked_at {S} (s : AM.state S) (a i : nat) :
  AM.track_of (AM.resetBaked_at a s) i
  = if i =? a then resetBaked (AM.track_of s i) else AM.track_of s i.
Proof.
  unfold AM.resetBaked_at, AM.track_of. cbn [AM.tracks AM.set_tracks].
  rewrite nth_replace_nth.
  destruct (Nat.eqb_spec i a) as [-> | Hne]; [|reflexivity].
  destruct (Nat.ltb_spec a (length (AM.tracks s))); [reflexivity|].
  simpl. rewrite nth_overflow by assumption. reflexivity.
Qed.

(** The ids the names of [l] stand for. *)
Lemma resetBaked_loop {S} (l : list string) :
  forall s : AM.state S,
    (forall k, In k l -> In k (AM.getAnimations s)) ->
    exists s',
      AM.rfor l
        (fun anim_name =>
           AM.rbind AM.rget
             (fun s1 => match AM.getAnimation anim_name s1 with
                        | AM.Return a => AM.rmodify (AM.resetBaked_at a)
                        | AM.Throw e => AM.throw e
                        end)) s
      = (AM.Return tt, s') /\
      AM.set_tracks [] s' = AM.set_tracks [] s /\
      forall i,
        AM.track_of s' i
        = if existsb (fun k => match AM.dict_get (AM.__animations s) k with
                               | Some a => a =? i
                               | None => false
                               end) l
          then resetBaked (AM.track_of s i) else AM.track_of s i.
Proof.
  induction l as [|k l IH]; intros s Hin.
  - exists s. repeat split.
  - assert (Hk : In k (AM.getAnimations s)) by (apply Hin; now left).
    apply dict_get_in in Hk. destruct Hk as [a Ha].
    destruct (IH (AM.resetBaked_at a s)) as (s' & Hrun & Hsame & Htr).
    { intros k' Hk'. apply Hin. now right. }
    exists s'. split; [|split].
    + cbn [AM.rfor]. unfold AM.rbind at 1. unfold AM.rbind at 1.
      unfold AM.rget at 1. unfold AM.getAnimation at 1. rewrite Ha.
      unfold AM.rmodify at 1. exact Hrun.
    + rewrite Hsame. reflexivity.
    + intros i. rewrite Htr. cbn [existsb]. rewrite Ha.
      change (AM.__animations (AM.resetBaked_at a s))
        with (AM.__animations s).
      rewrite track_of_resetBaked_at. rewrite (Nat.eqb_sym a i).
      destruct (i =? a); simpl;
        destruct (existsb _ l); reflexivity.
Qed.

(** X24.  [resetBakedAnimations] never fails and drops the baked buffer
    of every registered track, so that each of them serves its primary
    buffer again; a track that is not registered (such as an active
    animation whose name was registered again with another track) keeps its
    baked buffer, and nothing but the tracks changes. *)
Theorem resetBakedAnimations_resets_registered {S} (s : AM.state S) :
  exists s',
    AM.resetBakedAnimations s = (AM.Return tt, s') /\
    (forall nm a, AM.getAnimation nm s = AM.Return a ->
                  AM.track_of s' a = resetBaked (AM.track_of s a) /\
                  data (AM.track_of s' a) = _data (AM.track_of s a)) /\
    (forall i, (forall nm, AM.getAnimation nm s <> AM.Return i) ->
               AM.track_of s' i = AM.track_of s i) /\
    AM.set_tracks (AM.tracks s) s' = s.
Proof.
  destruct (resetBaked_loop (AM.getAnimations s) s (fun k H => H))
    as (s' & Hrun & Hsame & Htr).
  exists s'. split; [exact Hrun|]. split; [|split].
  - intros nm a Hget. unfold AM.getAnimation in Hget.
    destruct (AM.dict_get (AM.__animations s) nm) as [a'|] eqn:Hd;
      [|discriminate].
    injection Hget as ->.
    assert (Ha : AM.track_of s' a = resetBaked (AM.track_of s a)).
    { rewrite Htr.
      destruct (existsb _ (AM.getAnimations s)) eqn:He; [reflexivity|].
      exfalso. rewrite <- not_true_iff_false in He. apply He.
      apply existsb_exists. exists nm. split.
      - unfold AM.getAnimations.
        assert (Hk : existsb (String.eqb nm) (map fst (AM.__animations s))
                     = true) by (rewrite dict_get_keys, Hd; reflexivity).
        apply existsb_exists in Hk. destruct Hk as (x & Hx & Heq).
        apply String.eqb_eq in Heq. now subst.
      - rewrite Hd. apply Nat.eqb_refl. }
    split; [exact Ha|]. rewrite Ha. reflexivity.
  - intros i Hno. rewrite Htr.
    destruct (existsb _ (AM.getAnimations s)) eqn:He; [|reflexivity].
    exfalso. apply existsb_exists in He. destruct He as (k & _ & Hk).
    apply (Hno k). unfold AM.getAnimation.
    destruct (AM.dict_get (AM.__animations s) k) as [a|]; [|discriminate].
    apply Nat.eqb_eq in Hk. now subst.
  - destruct s, s'. unfold AM.set_tracks in *. simpl in *.
    injection Hsame as -> -> -> -> -> -> -> -> -> -> ->. reflexivity.
Qed.

(** ** Play time and pose state of [AnimatedMesh] *)

Lemma track_getPoseState_eq (t : AnimationTrack) (time : Q) (ip : bool) :
  track_getPoseState t time ip
  = (match getAtTime t time with
     | Raise e => Raise e
     | Ok None => if ip then Raise AttributeError else Ok None
     | Ok (Some a) =>
       if ip then Ok (Some (Owned (map zero_translation (contents t a))))
       else Ok (Some a)
     end, t).
Proof.
  unfold track_getPoseState, getPoseState, bind, get, liftE, ret, put, raise.
  cbn [currentAnim playTime inPlace].
  destruct (getAtTime t time) as [[a|]|e]; destruct ip; reflexivity.
Qed.

Lemma replace_nth_nth {A} (i : nat) (l : list A) (d : A) :
  replace_nth i (nth i l d) l = l.
Proof.
  revert i. induction l as [|x l IH]; intros [|i]; simpl; try reflexivity.
  now rewrite IH.
Qed.

Lemma set_tracks_same {S} (s : AM.state S) (a : nat) :
  AM.set_tracks (replace_nth a (AM.track_of s a) (AM.tracks s)) s = s.
Proof.
  unfold AM.track_of. rewrite replace_nth_nth. now destruct s.
Qed.

(** X25.  [setToTime(time, update=False)] followed by [getPoseState()]
    yields a stored frame whenever the product [frameRate*time] is the
    whole number [k] of a frame of the active animation: the pose state is
    the view [getAtFramePos(k)] of the served buffer, or, when animating in
    place, a copy of it with the translations zeroed.  Neither call changes
    a track. *)
Theorem setToTime_then_getPoseState {S} `{RiggedSkeleton S}
        (s : AM.state S) (a : nat) (time : Q) (k : nat) :
  AM.__currentAnim s = Some a ->
  (frameRate (AM.track_of s a) * time == inject_Z (Z.of_nat k))%Q ->
  k < nFrames (AM.track_of s a) ->
  let t := AM.track_of s a in
  let s1 := AM.set_playTime time s in
  AM.setToTime time false s = (AM.Return tt, s1) /\
  AM.getPoseState s1
  = (AM.Return
       (Some (if AM.__inPlace s
              then Owned (map zero_translation
                              (contents t (getAtFramePos t (Z.of_nat k))))
              else getAtFramePos t (Z.of_nat k))),
     s1).
Proof.
  intros Hcur Hraw Hk t s1.
  split; [reflexivity|].
  unfold AM.getPoseState.
  change (AM.__currentAnim s1) with (AM.__currentAnim s). rewrite Hcur.
  change (AM.track_of s1 a) with t.
  change (AM.__inPlace s1) with (AM.__inPlace s).
  change (AM.__playTime s1) with time.
  rewrite track_getPoseState_eq.
  rewrite (getAtTime_whole_product t time k Hraw Hk).
  change t with (AM.track_of s1 a) at 3 4.
  assert (Hs : AM.set_tracks
                 (replace_nth a (AM.track_of s1 a) (AM.tracks s1)) s1
               = s1) by apply set_tracks_same.
  destruct (AM.__inPlace s).
  - change (AM.track_of s1 a) with t in *. simpl AM.of_exc.
    now rewrite Hs.
  - change (AM.track_of s1 a) with t in *. simpl AM.of_exc.
    now rewrite Hs.
Qed.

Lemma setToTime_then_getPoseState_witness :
  let s := AM.set_tracks [track_1x2] player_rest in
  let s1 := AM.set_playTime 1 s in
  AM.setToTime 1 false s = (AM.Return tt, s1) /\
  AM.getPoseState s1
  = (AM.Return (Some (getAtFramePos track_1x2 (Z.of_nat 1))), s1).
Proof.
  apply (setToTime_then_getPoseState
           (AM.set_tracks [track_1x2] player_rest) 0 1 1).
  - reflexivity.
  - reflexivity.
  - simpl. lia.
Defined.

(** ** Bound meshes *)

Lemma rows3_firstn (o : list (list Q)) :
  Forall (fun r => 3 <= length r) o ->
  Mesh.rows3 (map (firstn 3) o) = Some (xyz o).
Proof.
  induction 1 as [|r o Hr _ IH]; [reflexivity|].
  cbn [map Mesh.rows3 xyz]. fold (xyz o). rewrite IH.
  destruct r as [|x [|y [|z r]]]; simpl in Hr; try lia. reflexivity.
Qed.

Lemma firstn3_idem (o : list (list Q)) :
  map (firstn 3) (map (firstn 3) o) = map (firstn 3) o.
Proof.
  rewrite map_map. apply map_ext. intros r.
  now rewrite firstn_firstn.
Qed.

Lemma xyz_length (o : list (list Q)) : length (xyz o) = length o.
Proof. apply length_map. Qed.

Lemma xyz_firstn (o : list (list Q)) :
  Forall (fun r => 3 <= length r) o ->
  map Mesh.row_list (xyz o) = map (firstn 3) o.
Proof.
  induction 1 as [|r o Hr _ IH]; [reflexivity|].
  cbn [map xyz]. fold (xyz o). rewrite IH. f_equal.
  destruct r as [|x [|y [|z r]]]; simpl in Hr; try lia. reflexivity.
Qed.

Lemma xyz_rest_snapshot (m : Mesh.t) : xyz (AM.rest_snapshot m) = Mesh.coord m.
Proof.
  unfold xyz, AM.rest_snapshot. rewrite map_map.
  rewrite <- (map_id (Mesh.coord m)) at 2. apply map_ext.
  intros [[x y] z]. reflexivity.
Qed.

Lemma rest_snapshot_fits (m : Mesh.t) : snapshot_fits m (AM.rest_snapshot m).
Proof.
  split.
  - apply length_map.
  - unfold AM.rest_snapshot. apply Forall_forall. intros r Hr.
    apply in_map_iff in Hr. destruct Hr as (v & <- & _). simpl. lia.
Qed.

(** The mesh [mesh] with the coordinates of the snapshot [o]. *)
Lemma updateMeshVerts_fits {S} (s : AM.state S) (mesh : nat)
      (o : list (list Q)) :
  snapshot_fits (AM.mesh_of s mesh) o ->
  AM._updateMeshVerts mesh o s
  = (AM.Return tt,
     AM.set_world
       (replace_nth mesh
          (Mesh.mk (Mesh.name (AM.mesh_of s mesh)) (xyz o)
                   (Mesh.visibility (AM.mesh_of s mesh)))
          (AM.world s)) s).
Proof.
  intros [Hlen Hrows]. unfold AM._updateMeshVerts, Mesh.changeCoords.
  rewrite (rows3_firstn o Hrows), xyz_length, Hlen, Nat.eqb_refl.
  reflexivity.
Qed.

Lemma mesh_of_set_world {S} (s : AM.state S) (mesh i : nat) (m : Mesh.t) :
  mesh < length (AM.world s) ->
  AM.mesh_of (AM.set_world (replace_nth mesh m (AM.world s)) s) i
  = if i =? mesh then m else AM.mesh_of s i.
Proof.
  intros Hm. unfold AM.mesh_of. cbn [AM.world AM.set_world].
  rewrite nth_replace_nth.
  destruct (Nat.ltb_spec mesh (length (AM.world s))); [|lia].
  now rewrite andb_true_r.
Qed.

Lemma enumerate_from_snd {A} (l : list A) (k : nat) :
  map snd (enumerate_from k l) = l.
Proof.
  revert k. induction l as [|x l IH]; intros k; simpl; [reflexivity|].
  now rewrite IH.
Qed.

Lemma enumerate_from_in {A} (l : list A) (k idx : nat) (x : A) :
  In (idx, x) (enumerate_from k l)
  <-> k <= idx /\ nth_error l (idx - k) = Some x.
Proof.
  revert k. induction l as [|y l IH]; intros k; simpl.
  - split; [tauto|]. intros [_ H]. destruct (idx - k); discriminate.
  - rewrite IH. split.
    + intros [[= <- <-] | [Hk Hn]].
      * split; [lia|]. now rewrite Nat.sub_diag.
      * split; [lia|]. replace (idx - k) with (S (idx - S k)) by lia.
        exact Hn.
    + intros [Hk Hn]. destruct (Nat.eq_dec idx k) as [-> | Hne].
      * left. rewrite Nat.sub_diag in Hn. simpl in Hn. congruence.
      * right. split; [lia|].
        replace (idx - k) with (S (idx - S k)) in Hn by lia. exact Hn.
Qed.

Lemma set_world_world {S} (s : AM.state S) : AM.set_world (AM.world s) s = s.
Proof. now destruct s. Qed.

Lemma rest_loop {S} (items : list (nat * nat)) :
  forall s : AM.state S,
    NoDup (map snd items) ->
    (forall idx mesh, In (idx, mesh) items ->
       exists o, nth_error (AM.__originalMeshCoords s) idx = Some o /\
                 mesh < length (AM.world s) /\
                 snapshot_fits (AM.mesh_of s mesh) o) ->
    exists w',
      AM.rfor items AM.rest_mesh s = (AM.Return tt, AM.set_world w' s) /\
      length w' = length (AM.world s) /\
      (forall i, ~ In i (map snd items) ->
                 nth i w' AM.null_mesh = AM.mesh_of s i) /\
      (forall idx mesh o,
          In (idx, mesh) items ->
          nth_error (AM.__originalMeshCoords s) idx = Some o ->
          nth mesh w' AM.null_mesh
          = Mesh.mk (Mesh.name (AM.mesh_of s mesh)) (xyz o)
                    (Mesh.visibility (AM.mesh_of s mesh))).
Proof.
  induction items as [|[idx mesh] items IH]; intros s Hnd Hall.
  - exists (AM.world s). rewrite set_world_world.
    repeat split; try reflexivity. intros idx mesh o [].
  - cbn [map snd] in Hnd. inversion Hnd as [|? ? Hnotin Hnd']; subst.
    destruct (Hall idx mesh (or_introl eq_refl)) as (o & Ho & Hm & Hfit).
    set (m' := Mesh.mk (Mesh.name (AM.mesh_of s mesh)) (xyz o)
                       (Mesh.visibility (AM.mesh_of s mesh))).
    set (s1 := AM.set_world (replace_nth mesh m' (AM.world s)) s).
    assert (Hother : forall i, i <> mesh -> AM.mesh_of s1 i = AM.mesh_of s i).
    { intros i Hi. unfold s1. rewrite mesh_of_set_world by assumption.
      destruct (Nat.eqb_spec i mesh); [contradiction|reflexivity]. }
    assert (Hself : AM.mesh_of s1 mesh = m').
    { unfold s1. rewrite mesh_of_set_world by assumption.
      now rewrite Nat.eqb_refl. }
    assert (Hlen1 : length (AM.world s1) = length (AM.world s)).
    { unfold s1. cbn [AM.world AM.set_world]. apply replace_nth_length. }
    destruct (IH s1 Hnd') as (w' & Hrun & Hlen & Hout & Hin).
    { intros idx' mesh' Hin'.
      destruct (Hall idx' mesh' (or_intror Hin')) as (o' & Ho' & Hm' & Hfit').
      exists o'. split; [exact Ho'|]. split; [now rewrite Hlen1|].
      rewrite Hother; [exact Hfit'|].
      intros ->. apply Hnotin. apply in_map_iff. now exists (idx', mesh). }
    exists w'. split; [|split; [|split]].
    + cbn [AM.rfor]. unfold AM.rbind at 1. unfold AM.rest_mesh at 1.
      unfold AM.rbind at 1. unfold AM.rget at 1. unfold AM.rbind at 1.
      unfold AM.index at 1. rewrite Ho. unfold AM.rret at 1.
      rewrite (updateMeshVerts_fits s mesh o Hfit). fold m'. fold s1.
      rewrite Hrun. reflexivity.
    + now rewrite Hlen.
    + intros i Hi. cbn [map snd] in Hi.
      rewrite Hout by (intros H'; apply Hi; now right).
      apply Hother. intros ->. apply Hi. now left.
    + intros idx' mesh' o' [[= <- <-] | Hin'] Ho'.
      * rewrite Hout by assumption. rewrite Hself.
        rewrite Ho in Ho'. injection Ho' as <-. reflexivity.
      * assert (Hne : mesh' <> mesh).
        { intros ->. apply Hnotin. apply in_map_iff. now exists (idx', mesh). }
        rewrite (Hin idx' mesh' o' Hin' Ho'). now rewrite Hother.
Qed.

Lemma bound_ok_ids {S} (s : AM.state S) : bound_ok s -> NoDup (AM.__meshes s).
Proof.
  intros [Hnd _]. unfold AM.getBoundMeshes in Hnd.
  now apply NoDup_map_inv in Hnd.
Qed.

(** X26.  Posing in rest: when the object is not posed (posing is switched
    off, or there is no active animation or no skeleton), [_pose] puts
    every bound mesh, visible or not, on the rest coordinates of its
    snapshot and the skeleton, if there is one, in its rest pose; it does
    not fail, and nothing else changes: no other mesh, no track, no
    snapshot. *)
Theorem pose_in_rest_restores_coordinates {S} `{RiggedSkeleton S}
        (s : AM.state S) :
  AM.isPosed s = false -> bound_ok s ->
  exists s',
    AM._pose s = (AM.Return tt, s') /\
    (forall idx mesh o,
        nth_error (AM.__meshes s) idx = Some mesh ->
        nth_error (AM.__originalMeshCoords s) idx = Some o ->
        AM.mesh_of s' mesh
        = Mesh.mk (Mesh.name (AM.mesh_of s mesh)) (xyz o)
                  (Mesh.visibility (AM.mesh_of s mesh))) /\
    (forall i, ~ In i (AM.__meshes s) -> AM.mesh_of s' i = AM.mesh_of s i) /\
    s' = AM.set_world (AM.world s')
           (AM.set_skeleton (option_map setToRestPose (AM.__skeleton s)) s).
Proof.
  intros Hposed Hok.
  set (s0 := AM.set_skeleton (option_map setToRestPose (AM.__skeleton s)) s).
  pose proof (bound_ok_ids s Hok) as Hnd.
  destruct Hok as (_ & Hlo & _ & Hfit).
  destruct (rest_loop (enumerate_from 0 (AM.__meshes s)) s0)
    as (w' & Hrun & Hlen & Hout & Hin).
  { now rewrite enumerate_from_snd. }
  { intros idx mesh Hi. apply enumerate_from_in in Hi.
    destruct Hi as [_ Hi]. rewrite Nat.sub_0_r in Hi.
    assert (Hlt : idx < length (AM.__originalMeshCoords s)).
    { rewrite Hlo. apply nth_error_Some. congruence. }
    apply nth_error_Some in Hlt.
    destruct (nth_error (AM.__originalMeshCoords s) idx) as [o|] eqn:Ho;
      [|congruence].
    exists o. split; [exact Ho|]. exact (Hfit idx mesh o Hi Ho). }
  exists (AM.set_world w' s0). split; [|split; [|split]].
  - unfold AM._pose. unfold AM.rbind at 1. unfold AM.rget at 1.
    rewrite Hposed. unfold AM.rbind at 1.
    assert (Hstep : (match AM.getSkeleton s with
                     | Some skel =>
                       AM.rmodify
                         (AM.set_skeleton (Some (setToRestPose skel)))
                     | None => AM.rret tt
                     end) s = (AM.Return tt, s0)).
    { unfold s0, AM.getSkeleton. destruct (AM.__skeleton s) eqn:Hs.
      - reflexivity.
      - unfold AM.rret. f_equal. destruct s; simpl in *. now subst. }
    rewrite Hstep. unfold AM.rbind at 1. unfold AM.rget at 1.
    exact Hrun.
  - intros idx mesh o Hm Ho.
    change (AM.mesh_of (AM.set_world w' s0) mesh)
      with (nth mesh w' AM.null_mesh).
    apply (Hin idx mesh o); [|exact Ho].
    apply enumerate_from_in. split; [lia|]. now rewrite Nat.sub_0_r.
  - intros i Hi.
    change (AM.mesh_of (AM.set_world w' s0) i) with (nth i w' AM.null_mesh).
    rewrite Hout; [reflexivity|]. now rewrite enumerate_from_snd.
  - reflexivity.
Qed.

Lemma pose_in_rest_restores_coordinates_witness :
  exists s',
    AM._pose player_rest = (AM.Return tt, s') /\
    AM.mesh_of s' 0 = triangle.
Proof.
  assert (Hok : bound_ok player_rest).
  { split; [|split; [reflexivity|split; [reflexivity|]]].
    - repeat constructor. intros [].
    - intros [|idx] mesh o Hm Ho; simpl in Hm, Ho.
      + injection Hm as <-. injection Ho as <-. split; [simpl; lia|].
        split; [reflexivity|]. repeat constructor; simpl; lia.
      + destruct idx; discriminate. }
  destruct (pose_in_rest_restores_coordinates player_rest eq_refl Hok)
    as (s' & Hrun & Hin & _).
  exists s'. split; [exact Hrun|].
  exact (Hin 0 0 (AM.rest_snapshot triangle) eq_refl eq_refl).
Defined.

Lemma first_named_absent {S} (s : AM.state S) (nm : string) (ms : list nat)
      (k : nat) :
  ~ In nm (map (fun m => Mesh.name (AM.mesh_of s m)) ms) ->
  AM.first_named s nm (enumerate_from k ms) = None.
Proof.
  revert k. induction ms as [|m ms IH]; intros k Hn; simpl; [reflexivity|].
  simpl in Hn. destruct (String.eqb_spec (Mesh.name (AM.mesh_of s m)) nm).
  - tauto.
  - apply IH. tauto.
Qed.

Lemma first_named_found {Sk} (s : AM.state Sk) (nm : string) (ms : list nat) :
  forall (k idx mesh : nat),
    NoDup (map (fun m => Mesh.name (AM.mesh_of s m)) ms) ->
    nth_error ms idx = Some mesh ->
    Mesh.name (AM.mesh_of s mesh) = nm ->
    AM.first_named s nm (enumerate_from k ms) = Some (k + idx).
Proof.
  induction ms as [|m ms IH]; intros k idx mesh Hnd Hn Hname.
  - destruct idx; discriminate.
  - simpl in Hnd. inversion Hnd as [|? ? Hnotin Hnd']; subst.
    destruct idx as [|idx]; simpl in Hn.
    + injection Hn as ->. simpl. rewrite String.eqb_refl. f_equal. lia.
    + simpl.
      destruct (String.eqb_spec (Mesh.name (AM.mesh_of s m))
                                (Mesh.name (AM.mesh_of s mesh))) as [E|_].
      * exfalso. apply Hnotin. rewrite E. apply in_map_iff.
        exists mesh. split; [reflexivity|]. eapply nth_error_In; eauto.
      * rewrite (IH (S k) idx mesh Hnd' Hn eq_refl). f_equal. lia.
Qed.

Lemma del_at_length {A} (i : nat) (l : list A) :
  i < length l -> length (AM.del_at i l) = length l - 1.
Proof.
  intros Hi. unfold AM.del_at.
  rewrite length_app, length_firstn, length_skipn. lia.
Qed.

Lemma del_at_nth_error {A} (i j : nat) (l : list A) :
  i < length l ->
  nth_error (AM.del_at i l) j
  = nth_error l (if j <? i then j else j + 1).
Proof.
  intros Hi. unfold AM.del_at.
  destruct (Nat.ltb_spec j i) as [Hlt | Hge].
  - rewrite nth_error_app1 by (rewrite length_firstn; lia).
    now rewrite nth_error_firstn, (proj2 (Nat.ltb_lt j i) Hlt).
  - rewrite nth_error_app2 by (rewrite length_firstn; lia).
    rewrite length_firstn, nth_error_skipn. f_equal. lia.
Qed.

Lemma del_at_map {A B} (f : A -> B) (i : nat) (l : list A) :
  map f (AM.del_at i l) = AM.del_at i (map f l).
Proof.
  unfold AM.del_at. now rewrite map_app, firstn_map, skipn_map.
Qed.

Lemma del_at_in {A} (i : nat) (l : list A) (x : A) :
  In x (AM.del_at i l) -> In x l.
Proof.
  unfold AM.del_at. intros Hin. apply in_app_or in Hin.
  destruct Hin as [Hin | Hin].
  - rewrite <- (firstn_skipn i l). apply in_or_app. now left.
  - rewrite <- (firstn_skipn (i + 1) l). apply in_or_app. now right.
Qed.

Lemma del_at_NoDup {A} (i : nat) (l : list A) (x : A) :
  NoDup l -> nth_error l i = Some x ->
  NoDup (AM.del_at i l) /\ ~ In x (AM.del_at i l).
Proof.
  intros Hnd Hx.
  assert (Hsplit : l = firstn i l ++ x :: skipn (i + 1) l).
  { rewrite Nat.add_1_r. clear Hnd. revert i Hx.
    induction l as [|y l IH]; intros [|i] Hx; simpl in *; try discriminate.
    - congruence.
    - f_equal. now apply IH. }
  rewrite Hsplit in Hnd. unfold AM.del_at.
  split.
  - eapply NoDup_remove_1; eauto.
  - eapply NoDup_remove_2; eauto.
Qed.

Lemma del_at_last {A} (l : list A) (x : A) :
  AM.del_at (length l) (l ++ [x]) = l.
Proof.
  unfold AM.del_at. rewrite firstn_app, firstn_all, Nat.sub_diag.
  rewrite skipn_all2 by (rewrite length_app; simpl; lia).
  simpl. now rewrite !app_nil_r.
Qed.

Lemma rbind_return {St A B} (c : AM.R St A) (k : A -> AM.R St B)
      (s : St) (a : A) (s' : St) :
  c s = (AM.Return a, s') -> AM.rbind c k s = k a s'.
Proof. intros Hc. unfold AM.rbind. now rewrite Hc. Qed.

Lemma rbind_throw {St A B} (c : AM.R St A) (k : A -> AM.R St B)
      (s : St) (e : AM.am_error) (s' : St) :
  c s = (AM.Throw e, s') -> AM.rbind c k s = (AM.Throw e, s').
Proof. intros Hc. unfold AM.rbind. now rewrite Hc. Qed.

Lemma del_run {St A} (proj : St -> list A) (upd : list A -> St -> St)
      (i : nat) (s : St) :
  i < length (proj s) ->
  AM.del proj upd i s = (AM.Return tt, upd (AM.del_at i (proj s)) s).
Proof.
  intros Hi. unfold AM.del, AM.rbind, AM.rget, AM.rmodify.
  now rewrite (proj2 (Nat.ltb_lt _ _) Hi).
Qed.

(** The state after a bound mesh at position [idx] was detached. *)
Lemma removeBoundMesh_run {S} (s : AM.state S) (nm : string)
      (idx mesh : nat) (o : list (list Q)) :
  NoDup (AM.getBoundMeshes s) ->
  length (AM.__originalMeshCoords s) = length (AM.__meshes s) ->
  length (AM.__vertexToBoneMaps s) = length (AM.__meshes s) ->
  nth_error (AM.__meshes s) idx = Some mesh ->
  Mesh.name (AM.mesh_of s mesh) = nm ->
  nth_error (AM.__originalMeshCoords s) idx = Some o ->
  snapshot_fits (AM.mesh_of s mesh) o ->
  AM.removeBoundMesh nm s
  = (AM.Return tt,
     AM.set_vertexToBoneMaps
       (AM.del_at idx (AM.__vertexToBoneMaps s))
       (AM.set_originalMeshCoords
          (AM.del_at idx (AM.__originalMeshCoords s))
          (AM.set_meshes
             (AM.del_at idx (AM.__meshes s))
             (AM.set_world
                (replace_nth mesh
                   (Mesh.mk nm (xyz o)
                            (Mesh.visibility (AM.mesh_of s mesh)))
                   (AM.world s)) s)))).
Proof.
  intros Hnd Hlo Hlv Hm Hname Ho Hfit.
  assert (Hidx : idx < length (AM.__meshes s))
    by (apply nth_error_Some; congruence).
  pose proof (first_named_found s nm (AM.__meshes s) 0 idx mesh Hnd Hm Hname)
    as Hfound. simpl in Hfound.
  assert (Hfit' : snapshot_fits (AM.mesh_of s mesh) (map (firstn 3) o)).
  { destruct Hfit as [Hl Hr]. split; [now rewrite length_map|].
    apply Forall_forall. intros r Hin. apply in_map_iff in Hin.
    destruct Hin as (r0 & <- & Hr0).
    rewrite Forall_forall in Hr. specialize (Hr r0 Hr0).
    rewrite length_firstn. lia. }
  assert (Hxyz : xyz (map (firstn 3) o) = xyz o).
  { unfold xyz. rewrite map_map. apply map_ext_in. intros r Hin.
    destruct Hfit as [_ Hr]. rewrite Forall_forall in Hr.
    specialize (Hr r Hin). destruct r as [|x [|y [|z r]]]; simpl in Hr;
      try lia. reflexivity. }
  unfold AM.removeBoundMesh, AM.swallow.
  unfold AM.rbind at 1. unfold AM._getBoundMeshIndex at 1.
  unfold AM.rbind at 1. unfold AM.rget at 1. rewrite Hfound.
  unfold AM.rret at 1.
  set (s1 := AM.set_world
               (replace_nth mesh
                  (Mesh.mk nm (xyz o) (Mesh.visibility (AM.mesh_of s mesh)))
                  (AM.world s)) s).
  unfold AM.rbind at 1. cbv beta.
  match goal with
  | |- context [AM.rbind AM.rget ?k s] =>
    assert (Hinner : AM.rbind AM.rget k s = (AM.Return tt, s1))
  end.
  { unfold AM.rbind at 1. unfold AM.rget at 1.
    unfold AM.rbind at 1. unfold AM.index at 1. rewrite Hm.
    unfold AM.rret at 1. unfold AM.rbind at 1. unfold AM.index at 1.
    rewrite Ho. unfold AM.rret at 1.
    rewrite (updateMeshVerts_fits s mesh _ Hfit'). rewrite Hxyz, Hname.
    reflexivity. }
  rewrite Hinner. cbn [snd].
  rewrite (rbind_return _ _ s1 tt _
             (del_run AM.__meshes AM.set_meshes idx s1 Hidx)).
  erewrite rbind_return
    by (apply del_run; cbn [AM.__originalMeshCoords AM.set_meshes s1
                            AM.set_world]; lia).
  rewrite del_run
    by (cbn [AM.__vertexToBoneMaps AM.set_meshes s1 AM.set_world
             AM.set_originalMeshCoords]; lia).
  reflexivity.
Qed.

(** X27.  Unbinding a mesh gives it back at rest: [removeBoundMesh(name)]
    never raises; for a name that is not bound it changes nothing; for a
    bound mesh it writes the rest coordinates of the snapshot back to the
    mesh, whatever coordinates posing has left there, and removes the mesh,
    its snapshot and its weights from the three lists, which stay aligned.
    No other mesh is touched. *)
Theorem removeBoundMesh_restores_rest_coordinates {Sk} (s : AM.state Sk)
        (nm : string) :
  bound_ok s ->
  (~ In nm (AM.getBoundMeshes s) ->
   AM.removeBoundMesh nm s = (AM.Return tt, s)) /\
  (forall idx mesh o,
      nth_error (AM.__meshes s) idx = Some mesh ->
      Mesh.name (AM.mesh_of s mesh) = nm ->
      nth_error (AM.__originalMeshCoords s) idx = Some o ->
      exists s',
        AM.removeBoundMesh nm s = (AM.Return tt, s') /\
        AM.mesh_of s' mesh
        = Mesh.mk nm (xyz o) (Mesh.visibility (AM.mesh_of s mesh)) /\
        (forall i, i <> mesh -> AM.mesh_of s' i = AM.mesh_of s i) /\
        AM.__meshes s' = AM.del_at idx (AM.__meshes s) /\
        AM.__originalMeshCoords s'
        = AM.del_at idx (AM.__originalMeshCoords s) /\
        AM.__vertexToBoneMaps s'
        = AM.del_at idx (AM.__vertexToBoneMaps s) /\
        ~ In nm (AM.getBoundMeshes s') /\
        bound_ok s').
Proof.
  intros Hok. split.
  - intros Hn. unfold AM.removeBoundMesh, AM.swallow.
    erewrite rbind_throw; [reflexivity|].
    unfold AM._getBoundMeshIndex, AM.rbind, AM.rget.
    rewrite (first_named_absent s nm (AM.__meshes s) 0 Hn). reflexivity.
  - intros idx mesh o Hm Hname Ho.
    pose proof (bound_ok_ids s Hok) as Hids.
    destruct Hok as (Hnd & Hlo & Hlv & Hfit).
    destruct (Hfit idx mesh o Hm Ho) as [Hvalid Hf].
    assert (Hidx : idx < length (AM.__meshes s))
      by (apply nth_error_Some; congruence).
    set (m' := Mesh.mk nm (xyz o) (Mesh.visibility (AM.mesh_of s mesh))).
    set (s1 := AM.set_world (replace_nth mesh m' (AM.world s)) s).
    set (s' := AM.set_vertexToBoneMaps
                 (AM.del_at idx (AM.__vertexToBoneMaps s))
                 (AM.set_originalMeshCoords
                    (AM.del_at idx (AM.__originalMeshCoords s))
                    (AM.set_meshes (AM.del_at idx (AM.__meshes s)) s1))).
    assert (Hself : AM.mesh_of s' mesh = m').
    { change (AM.mesh_of s' mesh) with (AM.mesh_of s1 mesh). unfold s1.
      rewrite mesh_of_set_world by assumption. now rewrite Nat.eqb_refl. }
    assert (Hother : forall i, i <> mesh -> AM.mesh_of s' i = AM.mesh_of s i).
    { intros i Hi. change (AM.mesh_of s' i) with (AM.mesh_of s1 i).
      unfold s1. rewrite mesh_of_set_world by assumption.
      destruct (Nat.eqb_spec i mesh); [contradiction|reflexivity]. }
    destruct (del_at_NoDup idx (AM.__meshes s) mesh Hids Hm)
      as [Hids' Hgone].
    assert (Hnames : AM.getBoundMeshes s'
                     = AM.del_at idx (AM.getBoundMeshes s)).
    { unfold AM.getBoundMeshes at 2. rewrite <- del_at_map.
      unfold AM.getBoundMeshes.
      change (AM.__meshes s') with (AM.del_at idx (AM.__meshes s)).
      apply map_ext_in. intros i Hi. rewrite Hother; [reflexivity|].
      intros ->. contradiction. }
    assert (Hnm : nth_error (AM.getBoundMeshes s) idx = Some nm).
    { unfold AM.getBoundMeshes. rewrite nth_error_map, Hm. simpl.
      now rewrite Hname. }
    destruct (del_at_NoDup idx (AM.getBoundMeshes s) nm Hnd Hnm)
      as [Hnd' Hnmgone].
    exists s'. split; [|split; [|split; [|split; [|split; [|split;
                         [|split]]]]]].
    + exact (removeBoundMesh_run s nm idx mesh o Hnd Hlo Hlv Hm Hname Ho Hf).
    + exact Hself.
    + exact Hother.
    + reflexivity.
    + reflexivity.
    + reflexivity.
    + now rewrite Hnames.
    + split; [now rewrite Hnames|].
      change (AM.__meshes s') with (AM.del_at idx (AM.__meshes s)).
      change (AM.__originalMeshCoords s')
        with (AM.del_at idx (AM.__originalMeshCoords s)).
      change (AM.__vertexToBoneMaps s')
        with (AM.del_at idx (AM.__vertexToBoneMaps s)).
      change (AM.world s') with (replace_nth mesh m' (AM.world s)).
      rewrite !del_at_length by lia.
      split; [lia|]. split; [lia|].
      intros j mesh' o' Hm' Ho'.
      rewrite del_at_nth_error in Hm' by assumption.
      rewrite del_at_nth_error in Ho' by lia.
      destruct (Hfit _ mesh' o' Hm' Ho') as [Hv' Hf'].
      rewrite replace_nth_length. split; [exact Hv'|].
      rewrite Hother; [exact Hf'|].
      intros ->. apply Hgone.
      apply nth_error_In with (n := j).
      rewrite del_at_nth_error by assumption. exact Hm'.
Qed.

Lemma player_rest_bound_ok : bound_ok player_rest.
Proof.
  split; [|split; [reflexivity|split; [reflexivity|]]].
  - repeat constructor. intros [].
  - intros [|idx] mesh o Hm Ho; simpl in Hm, Ho.
    + injection Hm as <-. injection Ho as <-. split; [simpl; lia|].
      split; [reflexivity|]. repeat constructor; simpl; lia.
    + destruct idx; discriminate.
Defined.

Lemma removeBoundMesh_restores_rest_coordinates_witness :
  exists s',
    AM.removeBoundMesh "tri"%string player_rest = (AM.Return tt, s') /\
    AM.mesh_of s' 0 = triangle /\
    AM.__meshes s' = [].
Proof.
  destruct (proj2 (removeBoundMesh_restores_rest_coordinates
                     player_rest "tri"%string player_rest_bound_ok)
                  0 0 (AM.rest_snapshot triangle) eq_refl eq_refl eq_refl)
    as (s' & Hrun & Hm & _ & Hl & _).
  exists s'. split; [exact Hrun|]. split; [exact Hm|exact Hl].
Defined.

Lemma existsb_eqb_not_in (x : string) (l : list string) :
  ~ In x l -> existsb (String.eqb x) l = false.
Proof.
  intros Hn. apply not_true_iff_false. intros He.
  apply existsb_exists in He. destruct He as (y & Hy & Heq).
  apply String.eqb_eq in Heq. now subst.
Qed.

Lemma addBoundMesh_run {Sk} `{RiggedSkeleton Sk} (s : AM.state Sk)
      (mesh : nat) (mapping : raw_mapping + VertexBoneWeights.t) :
  ~ In (Mesh.name (AM.mesh_of s mesh)) (AM.getBoundMeshes s) ->
  AM.addBoundMesh mesh mapping s
  = match AM.getSkeleton s with
    | None =>
      (AM.Return tt, with_bound s mesh (AM.as_weights s mesh mapping))
    | Some skel =>
      match AM.compiled_with skel (AM.as_weights s mesh mapping) with
      | AM.Return vmap' => (AM.Return tt, with_bound s mesh vmap')
      | AM.Throw e => (AM.Throw e, with_snapshot s mesh)
      end
    end.
Proof.
  intros Hfresh. unfold AM.addBoundMesh.
  unfold AM.rbind at 1. unfold AM.rget at 1.
  rewrite (existsb_eqb_not_in _ _ Hfresh).
  unfold AM.rbind at 1. unfold AM.rret at 1.
  unfold AM.rbind at 1. unfold AM.rget at 1.
  unfold AM.rbind at 1. unfold AM.rmodify at 1.
  fold (with_snapshot s mesh).
  unfold AM.rbind at 1.
  destruct (AM.getSkeleton s) as [skel|].
  - destruct (AM.compiled_with skel (AM.as_weights s mesh mapping));
      reflexivity.
  - reflexivity.
Qed.

Lemma with_bound_ok {Sk} (s : AM.state Sk) (mesh : nat)
      (vmap : VertexBoneWeights.t) :
  bound_ok s -> mesh < length (AM.world s) ->
  ~ In (Mesh.name (AM.mesh_of s mesh)) (AM.getBoundMeshes s) ->
  bound_ok (with_bound s mesh vmap).
Proof.
  intros (Hnd & Hlo & Hlv & Hfit) Hvalid Hfresh.
  unfold bound_ok, with_bound, with_snapshot, AM.getBoundMeshes.
  cbn [AM.__meshes AM.set_meshes AM.set_vertexToBoneMaps
       AM.set_originalMeshCoords AM.__originalMeshCoords
       AM.__vertexToBoneMaps AM.world].
  change (fun m => Mesh.name
                     (AM.mesh_of
                        (AM.set_meshes (AM.__meshes s ++ [mesh])
                           (AM.set_vertexToBoneMaps
                              (AM.__vertexToBoneMaps s ++ [vmap])
                              (AM.set_originalMeshCoords
                                 (AM.__originalMeshCoords s
                                  ++ [AM.rest_snapshot (AM.mesh_of s mesh)])
                                 s))) m))
    with (fun m => Mesh.name (AM.mesh_of s m)).
  split; [|split; [|split]].
  - rewrite map_app. cbn [map].
    apply (Permutation_NoDup
             (l := Mesh.name (AM.mesh_of s mesh)
                   :: map (fun m => Mesh.name (AM.mesh_of s m))
                          (AM.__meshes s))).
    + apply Permutation_cons_append.
    + constructor; assumption.
  - rewrite !length_app. simpl. lia.
  - rewrite !length_app. simpl. lia.
  - intros idx mesh' o Hm Ho.
    change (AM.mesh_of _ mesh') with (AM.mesh_of s mesh').
    destruct (Nat.lt_ge_cases idx (length (AM.__meshes s))) as [Hlt | Hge].
    + rewrite nth_error_app1 in Hm by assumption.
      rewrite nth_error_app1 in Ho by lia.
      exact (Hfit idx mesh' o Hm Ho).
    + rewrite nth_error_app2 in Hm by assumption.
      rewrite nth_error_app2 in Ho by lia.
      rewrite Hlo in Ho.
      destruct (idx - length (AM.__meshes s)) as [|n]; simpl in Hm, Ho.
      * injection Hm as <-. injection Ho as <-.
        split; [assumption|apply rest_snapshot_fits].
      * destruct n; discriminate.
Qed.

Lemma with_bound_rest_coordinates {Sk} (s : AM.state Sk) (mesh : nat)
      (vmap : VertexBoneWeights.t) :
  bound_ok s ->
  ~ In (Mesh.name (AM.mesh_of s mesh)) (AM.getBoundMeshes s) ->
  AM.getRestCoordinates (Mesh.name (AM.mesh_of s mesh))
                        (with_bound s mesh vmap)
  = (AM.Return (map Mesh.row_list (Mesh.coord (AM.mesh_of s mesh))),
     with_bound s mesh vmap).
Proof.
  intros (Hnd & Hlo & Hlv & Hfit) Hfresh.
  set (sb := with_bound s mesh vmap).
  assert (Hfound : AM.first_named sb (Mesh.name (AM.mesh_of s mesh))
                     (enumerate_from 0 (AM.__meshes sb))
                   = Some (length (AM.__meshes s))).
  { apply (first_named_found sb _ (AM.__meshes sb) 0
                             (length (AM.__meshes s)) mesh).
    - change (map (fun m => Mesh.name (AM.mesh_of sb m)) (AM.__meshes sb))
        with (map (fun m => Mesh.name (AM.mesh_of s m))
                  (AM.__meshes s ++ [mesh])).
      rewrite map_app. cbn [map].
      apply (Permutation_NoDup
               (l := Mesh.name (AM.mesh_of s mesh)
                     :: map (fun m => Mesh.name (AM.mesh_of s m))
                            (AM.__meshes s))).
      + apply Permutation_cons_append.
      + constructor; assumption.
    - change (AM.__meshes sb) with (AM.__meshes s ++ [mesh]).
      rewrite nth_error_app2 by lia. now rewrite Nat.sub_diag.
    - reflexivity. }
  unfold AM.getRestCoordinates.
  erewrite rbind_return;
    [|unfold AM._getBoundMeshIndex, AM.rbind, AM.rget; rewrite Hfound;
      reflexivity].
  unfold AM.rbind at 1. unfold AM.rget at 1.
  unfold AM.rbind at 1. unfold AM.index.
  change (AM.__originalMeshCoords sb)
    with (AM.__originalMeshCoords s ++ [AM.rest_snapshot (AM.mesh_of s mesh)]).
  rewrite nth_error_app2 by lia. rewrite Hlo, Nat.sub_diag.
  cbn [nth_error]. unfold AM.rret. f_equal. f_equal.
  rewrite <- xyz_firstn by (apply rest_snapshot_fits).
  now rewrite xyz_rest_snapshot.
Qed.

(** X28.  Binding a mesh whose name is not bound yet.  The snapshot of its
    coordinates is appended first, then the weights are compiled if there is
    a skeleton.  When this succeeds the mesh, its weights and its snapshot
    are appended in step, the lists stay aligned, the weights are compiled
    when there is a skeleton, and [getRestCoordinates] of the name returns
    the coordinates the mesh had when it was bound.  When compiling raises,
    the exception leaves [addBoundMesh] with the snapshot already appended:
    there is one snapshot more than there are bound meshes. *)
Theorem addBoundMesh_outcomes {Sk} `{RiggedSkeleton Sk} (s : AM.state Sk)
        (mesh : nat) (mapping : raw_mapping + VertexBoneWeights.t) :
  bound_ok s -> mesh < length (AM.world s) ->
  ~ In (Mesh.name (AM.mesh_of s mesh)) (AM.getBoundMeshes s) ->
  let nm := Mesh.name (AM.mesh_of s mesh) in
  let vmap := AM.as_weights s mesh mapping in
  let bound_with v :=
      AM.addBoundMesh mesh mapping s = (AM.Return tt, with_bound s mesh v) /\
      bound_ok (with_bound s mesh v) /\
      AM.getRestCoordinates nm (with_bound s mesh v)
      = (AM.Return (map Mesh.row_list (Mesh.coord (AM.mesh_of s mesh))),
         with_bound s mesh v) in
  match AM.getSkeleton s with
  | None => bound_with vmap
  | Some skel =>
    match AM.compiled_with skel vmap with
    | AM.Return vmap' =>
      bound_with vmap' /\ VertexBoneWeights.isCompiled vmap' = true
    | AM.Throw e =>
      AM.addBoundMesh mesh mapping s = (AM.Throw e, with_snapshot s mesh) /\
      length (AM.__originalMeshCoords (with_snapshot s mesh))
      = length (AM.__meshes (with_snapshot s mesh)) + 1 /\
      ~ bound_ok (with_snapshot s mesh)
    end
  end.
Proof.
  intros Hok Hvalid Hfresh nm vmap bound_with.
  pose proof (addBoundMesh_run s mesh mapping Hfresh) as Hrun.
  fold vmap in Hrun.
  assert (Hb : forall v,
             AM.addBoundMesh mesh mapping s
             = (AM.Return tt, with_bound s mesh v) -> bound_with v).
  { intros v Hv. split; [exact Hv|]. split.
    - now apply with_bound_ok.
    - now apply with_bound_rest_coordinates. }
  destruct (AM.getSkeleton s) as [skel|]; [|now apply Hb].
  destruct (AM.compiled_with skel vmap) as [vmap'|e] eqn:Hc.
  - split; [now apply Hb|].
    unfold AM.compiled_with in Hc. rewrite compileData_eq in Hc.
    cbv zeta in Hc.
    destruct (_compileVertexWeights _ _ _ _); [|discriminate].
    injection Hc as <-. reflexivity.
  - split; [exact Hrun|].
    destruct Hok as (_ & Hlo & _).
    assert (Hl : length (AM.__originalMeshCoords (with_snapshot s mesh))
                 = length (AM.__meshes (with_snapshot s mesh)) + 1).
    { unfold with_snapshot.
      cbn [AM.__originalMeshCoords AM.set_originalMeshCoords AM.__meshes].
      rewrite length_app. simpl. lia. }
    split; [exact Hl|].
    intros (_ & Hlo' & _). lia.
Qed.

Lemma addBoundMesh_outcomes_witness :
  AM.addBoundMesh 0 (inl [("root"%string, ([0; 1; 2], [1; 1; 1]%Q))])
    (AM.mkState [] [triangle] (Some (mkRig ["root"%string] [diag 1]))
                [] [] [] true [] None 0%Q false false)
  = (AM.Return tt,
     with_bound
       (AM.mkState [] [triangle] (Some (mkRig ["root"%string] [diag 1]))
                   [] [] [] true [] None 0%Q false false) 0
       (VertexBoneWeights.mk
          [("root"%string, ([0; 1; 2], [1; 1; 1]%Q))]
          (Some (mkCompiled L4
                   (repeat [(0, 1%Q); (0, 0%Q); (0, 0%Q); (0, 0%Q)] 3)))
          (Some 3) 4)).
Proof.
  pose (s := AM.mkState (S := RigSkeleton) [] [triangle]
                        (Some (mkRig ["root"%string] [diag 1]))
                        [] [] [] true [] None 0%Q false false).
  assert (Hok : bound_ok s).
  { split; [constructor|]. split; [reflexivity|]. split; [reflexivity|].
    intros [|idx] mesh o Hm; discriminate. }
  assert (Hvalid : 0 < length (AM.world s)) by (simpl; lia).
  assert (Hfresh : ~ In (Mesh.name (AM.mesh_of s 0)) (AM.getBoundMeshes s))
    by (intros []).
  exact (proj1 (proj1 (addBoundMesh_outcomes
                         s 0 (inl [("root"%string, ([0; 1; 2], [1; 1; 1]%Q))])
                         Hok Hvalid Hfresh))).
Defined.

(** X29.  Binding and unbinding are inverse to each other.  After a mesh
    with a new name was bound, and whatever coordinates posing has given it
    since, [removeBoundMesh] of its name leads back to exactly the state
    before the mesh was bound, with the mesh on the coordinates it had at
    that time. *)
Theorem bind_then_unbind {Sk} `{RiggedSkeleton Sk} (s s1 : AM.state Sk)
        (mesh : nat) (mapping : raw_mapping + VertexBoneWeights.t)
        (coords : list (Q * Q * Q)) :
  bound_ok s -> mesh < length (AM.world s) ->
  ~ In (Mesh.name (AM.mesh_of s mesh)) (AM.getBoundMeshes s) ->
  AM.addBoundMesh mesh mapping s = (AM.Return tt, s1) ->
  length coords = Mesh.getVertexCount (AM.mesh_of s mesh) ->
  let m := AM.mesh_of s mesh in
  let moved := Mesh.mk (Mesh.name m) coords (Mesh.visibility m) in
  AM.removeBoundMesh
    (Mesh.name m)
    (AM.set_world (replace_nth mesh moved (AM.world s1)) s1)
  = (AM.Return tt, s).
Proof.
  intros Hok Hvalid Hfresh Hadd Hcoords m moved.
  assert (Hs1 : exists v, s1 = with_bound s mesh v).
  { rewrite (addBoundMesh_run s mesh mapping Hfresh) in Hadd.
    destruct (AM.getSkeleton s) as [skel|].
    - destruct (AM.compiled_with skel (AM.as_weights s mesh mapping))
        as [v|e]; [|discriminate].
      exists v. congruence.
    - eexists. symmetry. injection Hadd as Hadd. exact Hadd. }
  destruct Hs1 as [v ->].
  destruct Hok as (Hnd & Hlo & Hlv & Hfit).
  set (s2 := AM.set_world
               (replace_nth mesh moved (AM.world (with_bound s mesh v)))
               (with_bound s mesh v)).
  assert (Hmesh : forall i, Mesh.name (AM.mesh_of s2 i)
                            = Mesh.name (AM.mesh_of s i)).
  { intros i. unfold s2.
    change (AM.world (with_bound s mesh v)) with (AM.world s).
    change (AM.mesh_of (AM.set_world (replace_nth mesh moved (AM.world s))
                                     (with_bound s mesh v)) i)
      with (AM.mesh_of (AM.set_world (replace_nth mesh moved (AM.world s)) s)
                       i).
    rewrite mesh_of_set_world by assumption.
    destruct (Nat.eqb_spec i mesh) as [-> | _]; reflexivity. }
  assert (Hself : AM.mesh_of s2 mesh = moved).
  { unfold s2.
    change (AM.world (with_bound s mesh v)) with (AM.world s).
    change (AM.mesh_of (AM.set_world (replace_nth mesh moved (AM.world s))
                                     (with_bound s mesh v)) mesh)
      with (AM.mesh_of (AM.set_world (replace_nth mesh moved (AM.world s)) s)
                       mesh).
    rewrite mesh_of_set_world by assumption. now rewrite Nat.eqb_refl. }
  rewrite (removeBoundMesh_run s2 (Mesh.name m) (length (AM.__meshes s)) mesh
             (AM.rest_snapshot m)).
  - f_equal. rewrite Hself. cbn [Mesh.visibility moved].
    rewrite xyz_rest_snapshot.
    change (AM.__vertexToBoneMaps s2) with (AM.__vertexToBoneMaps s ++ [v]).
    change (AM.__originalMeshCoords s2)
      with (AM.__originalMeshCoords s ++ [AM.rest_snapshot m]).
    change (AM.__meshes s2) with (AM.__meshes s ++ [mesh]).
    change (AM.world s2) with (replace_nth mesh moved (AM.world s)).
    rewrite <- Hlv at 1. rewrite del_at_last.
    rewrite <- Hlo at 1. rewrite del_at_last.
    rewrite del_at_last. rewrite replace_nth_twice.
    assert (Hm : Mesh.mk (Mesh.name m) (Mesh.coord m) (Mesh.visibility m)
                 = nth mesh (AM.world s) AM.null_mesh).
    { fold (AM.mesh_of s mesh). fold m. now destruct m. }
    rewrite Hm, replace_nth_nth.
    destruct s. reflexivity.
  - unfold AM.getBoundMeshes.
    rewrite (map_ext _ _ Hmesh).
    change (AM.__meshes s2) with (AM.__meshes s ++ [mesh]).
    rewrite map_app. cbn [map].
    apply (Permutation_NoDup
             (l := Mesh.name (AM.mesh_of s mesh)
                   :: map (fun m => Mesh.name (AM.mesh_of s m))
                          (AM.__meshes s))).
    + apply Permutation_cons_append.
    + constructor; assumption.
  - change (AM.__originalMeshCoords s2)
      with (AM.__originalMeshCoords s ++ [AM.rest_snapshot m]).
    change (AM.__meshes s2) with (AM.__meshes s ++ [mesh]).
    rewrite !length_app. simpl. lia.
  - change (AM.__vertexToBoneMaps s2) with (AM.__vertexToBoneMaps s ++ [v]).
    change (AM.__meshes s2) with (AM.__meshes s ++ [mesh]).
    rewrite !length_app. simpl. lia.
  - change (AM.__meshes s2) with (AM.__meshes s ++ [mesh]).
    rewrite nth_error_app2 by lia. now rewrite Nat.sub_diag.
  - apply Hmesh.
  - change (AM.__originalMeshCoords s2)
      with (AM.__originalMeshCoords s ++ [AM.rest_snapshot m]).
    rewrite nth_error_app2 by lia. now rewrite Hlo, Nat.sub_diag.
  - rewrite Hself. destruct (rest_snapshot_fits m) as [Hl Hr].
    split; [|exact Hr]. rewrite Hl. cbn [Mesh.coord moved].
    symmetry. exact Hcoords.
Qed.

Lemma bind_then_unbind_witness :
  let s := AM.mkState (S := RigSkeleton) [] [triangle]
                      (Some (mkRig ["root"%string] [diag 1]))
                      [] [] [] true [] None 0%Q false false in
  AM.removeBoundMesh
    "tri"%string
    (AM.set_world
       [moved_triangle]
       (with_bound s 0
          (VertexBoneWeights.mk
             [("root"%string, ([0; 1; 2], [1; 1; 1]%Q))]
             (Some (mkCompiled L4
                      (repeat [(0, 1%Q); (0, 0%Q); (0, 0%Q); (0, 0%Q)] 3)))
             (Some 3) 4)))
  = (AM.Return tt, s).
Proof.
  intros s.
  assert (Hok : bound_ok s).
  { split; [constructor|]. split; [reflexivity|]. split; [reflexivity|].
    intros [|idx] mesh o Hm; discriminate. }
  assert (Hvalid : 0 < length (AM.world s)) by (simpl; lia).
  assert (Hfresh : ~ In (Mesh.name (AM.mesh_of s 0)) (AM.getBoundMeshes s))
    by (intros []).
  exact (bind_then_unbind
           s _ 0 (inl [("root"%string, ([0; 1; 2], [1; 1; 1]%Q))])
           (Mesh.coord moved_triangle) Hok Hvalid Hfresh eq_refl eq_refl).
Defined.

(** ** Posing *)

Lemma rbind_inv {St A B} (c : AM.R St A) (k : A -> AM.R St B)
      (s : St) (r : AM.result B) (s' : St) :
  AM.rbind c k s = (r, s') ->
  (exists a s1, c s = (AM.Return a, s1) /\ k a s1 = (r, s')) \/
  (exists e, c s = (AM.Throw e, s') /\ r = AM.Throw e).
Proof.
  unfold AM.rbind. destruct (c s) as [[a|e] s1]; intros Hr.
  - left. eauto.
  - right. injection Hr as <- <-. eauto.
Qed.

Lemma index_inv {St A} (l : list A) (i : nat) (s : St) (r : AM.result A)
      (s' : St) :
  AM.index l i s = (r, s') -> s' = s.
Proof.
  unfold AM.index. destruct (nth_error l i); intros [= _ <-]; reflexivity.
Qed.

Lemma pose_frame_refl {Sk} (touch : nat -> Prop) (s : AM.state Sk) :
  pose_frame touch s s.
Proof. repeat split. Qed.

Lemma pose_frame_trans {Sk} (touch : nat -> Prop) (s1 s2 s3 : AM.state Sk) :
  pose_frame touch s1 s2 -> pose_frame touch s2 s3 -> pose_frame touch s1 s3.
Proof.
  intros (E1 & V1 & M1) (E2 & V2 & M2). split; [|split].
  - now rewrite E2.
  - intros i. now rewrite V2.
  - intros i Hi. now rewrite M2, M1.
Qed.

Lemma updateMeshVerts_frame {Sk} (s : AM.state Sk) (mesh : nat)
      (verts : list (list Q)) (r : AM.result unit) (s' : AM.state Sk) :
  AM._updateMeshVerts mesh verts s = (r, s') ->
  pose_frame (fun i => i = mesh) s s'.
Proof.
  unfold AM._updateMeshVerts, Mesh.changeCoords.
  destruct (Mesh.rows3 (map (firstn 3) verts)) as [vs|];
    [|intros [= _ <-]; apply pose_frame_refl].
  destruct (length vs =? length (Mesh.coord (AM.mesh_of s mesh)));
    [|intros [= _ <-]; apply pose_frame_refl].
  intros [= _ <-]. split; [reflexivity|]. split.
  - intros i. unfold AM.mesh_of. cbn [AM.world AM.set_world].
    rewrite nth_replace_nth.
    destruct (Nat.eqb_spec i mesh) as [-> | _]; [|reflexivity].
    destruct (mesh <? length (AM.world s)); reflexivity.
  - intros i Hi. unfold AM.mesh_of. cbn [AM.world AM.set_world].
    rewrite nth_replace_nth.
    destruct (Nat.eqb_spec i mesh); [contradiction|reflexivity].
Qed.

Lemma pose_mesh_frame {Sk} `{RiggedSkeleton Sk} (anim : nat)
      (poseState : option ndarray) (idx mesh : nat) (s : AM.state Sk)
      (r : AM.result unit) (s' : AM.state Sk) :
  AM.pose_mesh anim poseState (idx, mesh) s = (r, s') ->
  (AM.onlyAnimateVisible s && negb (Mesh.visibility (AM.mesh_of s mesh))
   = true -> s' = s) /\
  pose_frame (fun i => i = mesh) s s'.
Proof.
  unfold AM.pose_mesh. intros Hrun.
  apply rbind_inv in Hrun.
  destruct Hrun as [(sa & sb & [= <- <-] & Hrun) | (e & [=] & _)].
  destruct (AM.onlyAnimateVisible s
            && negb (Mesh.visibility (AM.mesh_of s mesh))) eqn:Hskip.
  { injection Hrun as <- <-. split; [reflexivity|apply pose_frame_refl]. }
  split; [discriminate|].
  apply rbind_inv in Hrun.
  destruct Hrun as [(vmap & s1 & Hidx & Hrun) | (e & Hidx & _)];
    apply index_inv in Hidx; subst; [|apply pose_frame_refl].
  apply rbind_inv in Hrun.
  assert (Hcompile :
            forall (rc : AM.result unit) (sc : AM.state Sk),
              (if VertexBoneWeights.isCompiled vmap then AM.rret tt
               else match AM.getSkeleton s with
                    | Some skel =>
                      fun s =>
                        match VertexBoneWeights.compileData
                                (boneNames skel) None vmap with
                        | (r, vmap') =>
                          (AM.of_exc r,
                           AM.set_vertexToBoneMaps
                             (replace_nth idx vmap'
                                          (AM.__vertexToBoneMaps s)) s)
                        end
                    | None => AM.throw (AM.PyError AttributeError)
                    end) s = (rc, sc) ->
              pose_frame (fun i => i = mesh) s sc).
  { intros rc sc. destruct (VertexBoneWeights.isCompiled vmap).
    - intros [= _ <-]. apply pose_frame_refl.
    - destruct (AM.getSkeleton s) as [skel|].
      + destruct (VertexBoneWeights.compileData (boneNames skel) None vmap)
          as [rv vmap'].
        intros [= _ <-]. repeat split.
      + intros [= _ <-]. apply pose_frame_refl. }
  destruct Hrun as [(u & sc & Hc & Hrun) | (e & Hc & _)];
    [|exact (Hcompile _ _ Hc)].
  apply (pose_frame_trans _ s sc s'); [exact (Hcompile _ _ Hc)|].
  apply rbind_inv in Hrun.
  destruct Hrun as [(s2 & s3 & [= <- <-] & Hrun) | (e & [=] & _)].
  apply rbind_inv in Hrun.
  destruct Hrun as [(o & s3 & Hidx & Hrun) | (e & Hidx & _)];
    apply index_inv in Hidx; subst; [|apply pose_frame_refl].
  apply rbind_inv in Hrun.
  destruct Hrun as [(vmap1 & s3 & Hidx & Hrun) | (e & Hidx & _)];
    apply index_inv in Hidx; subst; [|apply pose_frame_refl].
  destruct (VertexBoneWeights._compiled vmap1) as [W|];
    [|injection Hrun as <- <-; apply pose_frame_refl].
  destruct poseState as [a|];
    [|injection Hrun as <- <-; apply pose_frame_refl].
  destruct (skinMesh _ W _) as [posedCoords|e];
    [|injection Hrun as <- <-; apply pose_frame_refl].
  exact (updateMeshVerts_frame _ _ _ _ _ Hrun).
Qed.

Lemma pose_frame_weaken {Sk} (touch1 touch2 : nat -> Prop)
      (s s' : AM.state Sk) :
  (forall i, touch1 i -> touch2 i) ->
  pose_frame touch1 s s' -> pose_frame touch2 s s'.
Proof.
  intros Hw (E & V & M). split; [exact E|]. split; [exact V|].
  intros i Hi. apply M. intros Ht. apply Hi. now apply Hw.
Qed.

Lemma pose_loop_frame {Sk} `{RiggedSkeleton Sk} (anim : nat)
      (poseState : option ndarray) (s : AM.state Sk)
      (items : list (nat * nat)) :
  let touch i := In i (AM.__meshes s) /\
                 (AM.onlyAnimateVisible s = false \/
                  Mesh.visibility (AM.mesh_of s i) = true) in
  forall (s_cur : AM.state Sk) (r : AM.result unit) (s' : AM.state Sk),
    (forall idx mesh, In (idx, mesh) items -> In mesh (AM.__meshes s)) ->
    pose_frame touch s s_cur ->
    AM.rfor items (AM.pose_mesh anim poseState) s_cur = (r, s') ->
    pose_frame touch s s'.
Proof.
  intros touch. induction items as [|[idx mesh] items IH];
    intros s_cur r s' Hin Hcur Hrun.
  - injection Hrun as <- <-. exact Hcur.
  - cbn [AM.rfor] in Hrun. apply rbind_inv in Hrun.
    assert (Hstep : forall r1 s_mid,
               AM.pose_mesh anim poseState (idx, mesh) s_cur = (r1, s_mid) ->
               pose_frame touch s s_mid).
    { intros r1 s_mid Hbody.
      destruct (pose_mesh_frame anim poseState idx mesh s_cur r1 s_mid Hbody)
        as [Hskip Hframe].
      destruct (AM.onlyAnimateVisible s_cur
                && negb (Mesh.visibility (AM.mesh_of s_cur mesh))) eqn:Hc.
      - now rewrite (Hskip eq_refl).
      - apply (pose_frame_trans touch s s_cur s_mid); [exact Hcur|].
        apply (pose_frame_weaken (fun i => i = mesh)); [|exact Hframe].
        intros i ->. split; [apply (Hin idx); now left|].
        destruct Hcur as (E & V & _).
        apply (f_equal AM.onlyAnimateVisible) in E. cbn in E.
        rewrite E, V in Hc.
        destruct (AM.onlyAnimateVisible s); [|now left].
        destruct (Mesh.visibility (AM.mesh_of s mesh)); [now right|].
        discriminate. }
    destruct Hrun as [(u & s_mid & Hbody & Hrest) | (e & Hbody & _)].
    + apply (IH s_mid r s'); [|exact (Hstep _ _ Hbody)|exact Hrest].
      intros idx' mesh' Hi. apply (Hin idx'). now right.
    + exact (Hstep _ _ Hbody).
Qed.

(** X30.  [_pose] bakes only what is not baked.  With an active animation
    that is already baked, a posed [_pose] changes no track and not the
    skeleton, whatever its outcome: it can only change the coordinates of
    bound meshes and the compiled weights, and with [onlyAnimateVisible]
    set it leaves every invisible mesh as it is.  With an active animation
    that is not baked it calls [bake]: when the skeleton has another number
    of bones the [RuntimeError] of [bake] leaves [_pose], and nothing has
    changed. *)
Theorem pose_bakes_lazily {Sk} `{RiggedSkeleton Sk} (s : AM.state Sk)
        (a : nat) (skel : Sk) :
  AM._posed s = true -> AM.__currentAnim s = Some a ->
  AM.__skeleton s = Some skel ->
  (isBaked (AM.track_of s a) = true ->
   forall r s',
     AM._pose s = (r, s') ->
     AM.set_world [] (AM.set_vertexToBoneMaps [] s')
     = AM.set_world [] (AM.set_vertexToBoneMaps [] s) /\
     (forall i, ~ In i (AM.__meshes s) ->
                AM.mesh_of s' i = AM.mesh_of s i) /\
     (AM.onlyAnimateVisible s = true ->
      forall i, Mesh.visibility (AM.mesh_of s i) = false ->
                AM.mesh_of s' i = AM.mesh_of s i)) /\
  (isBaked (AM.track_of s a) = false ->
   boneCount skel <> nBones (AM.track_of s a) ->
   AM._pose s = (AM.Throw (AM.PyError (RuntimeError BoneCountMismatch)), s)).
Proof.
  intros Hposed Hcur Hskel.
  assert (Hisposed : AM.isPosed s = true).
  { unfold AM.isPosed, AM.isPoseable, AM.getSkeleton.
    now rewrite Hposed, Hcur, Hskel. }
  split.
  - intros Hbaked r s' Hrun.
    assert (Hframe : pose_frame
                       (fun i => In i (AM.__meshes s) /\
                                 (AM.onlyAnimateVisible s = false \/
                                  Mesh.visibility (AM.mesh_of s i) = true))
                       s s').
    { unfold AM._pose in Hrun. unfold AM.rbind at 1 in Hrun.
      unfold AM.rget at 1 in Hrun. rewrite Hisposed in Hrun.
      unfold AM.getSkeleton in Hrun. rewrite Hskel, Hcur, Hbaked in Hrun.
      unfold AM.rbind at 1 in Hrun. unfold AM.rret at 1 in Hrun.
      apply rbind_inv in Hrun.
      assert (Hps : AM.getPoseState s = (fst (AM.getPoseState s), s)).
      { unfold AM.getPoseState. rewrite Hcur, track_getPoseState_eq.
        cbn [fst]. now rewrite set_tracks_same. }
      rewrite Hps in Hrun.
      destruct Hrun as [(ps & s1 & [= _ <-] & Hrun) | (e & [= _ <-] & _)];
        [|apply pose_frame_refl].
      unfold AM.rbind at 1 in Hrun. unfold AM.rget at 1 in Hrun.
      apply (pose_loop_frame a ps s (enumerate_from 0 (AM.__meshes s))
                             s r s'); [|apply pose_frame_refl|exact Hrun].
      intros idx mesh Hi. apply enumerate_from_in in Hi.
      destruct Hi as [_ Hi]. eapply nth_error_In; eauto. }
    destruct Hframe as (E & V & M). split; [exact E|]. split.
    + intros i Hi. apply M. tauto.
    + intros Hoav i Hi. apply M. intros [_ [Hc | Hc]]; congruence.
  - intros Hbaked Hcount.
    assert (Hnb : isBaked (AM.track_of s a) = false) by exact Hbaked.
    unfold AM._pose. unfold AM.rbind at 1. unfold AM.rget at 1.
    rewrite Hisposed. unfold AM.getSkeleton. rewrite Hskel, Hcur, Hnb.
    erewrite rbind_throw; [reflexivity|].
    unfold AM.bake_current.
    rewrite (bake_mismatch (AM.track_of s a) skel Hcount).
    cbn [AM.of_exc]. rewrite set_tracks_same.
    f_equal. destruct s; simpl in *. now subst.
Qed.

Lemma pose_bakes_lazily_witness :
  exists s',
    AM._pose player_posed = (AM.Return tt, s') /\
    AM.tracks s' = AM.tracks player_posed.
Proof.
  exists (snd (AM._pose player_posed)).
  assert (Hrun : AM._pose player_posed
                 = (AM.Return tt, snd (AM._pose player_posed)))
    by (vm_compute; reflexivity).
  split; [exact Hrun|].
  destruct (proj1 (pose_bakes_lazily
                     player_posed 0 (mkRig ["root"%string] [diag 2])
                     eq_refl eq_refl eq_refl)
                  eq_refl _ _ Hrun) as (E & _).
  exact (f_equal AM.tracks E).
Defined.
